(** * Secrets-engine reconciliation of bank-vaults

    A shallow embedding of [internal/vault/secrets_engines.go].  The Go
    code talks to a remote Vault server through a client; here the server
    is a record of response functions that see the history of calls made
    so far, and every client call, sleep and log line is appended to a
    trace.  Go maps that the code ranges over are association lists, the
    list order being the order the runtime happens to pick. *)

From Stdlib Require Import String Ascii ZArith Lia Bool List DecimalString.
From Stdlib Require Import PrimFloat.
From stdpp Require Import base option list gmap strings.

Local Open Scope string_scope.
Local Open Scope list_scope.

(** ** Go's [strings] package, on byte strings *)

Module GoStrings.

(** [strings.Contains(s, sub)] *)
Fixpoint Contains (s sub : string) : bool :=
  if String.prefix sub s then true
  else match s with
       | EmptyString => false
       | String _ s' => Contains s' sub
       end.

(** [oneOf c cutset]: the byte [c] occurs in [cutset]. *)
Fixpoint oneOf (c : ascii) (cutset : string) : bool :=
  match cutset with
  | EmptyString => false
  | String d r => if Ascii.eqb c d then true else oneOf c r
  end.

(** [strings.TrimLeft(s, cutset)] *)
Fixpoint TrimLeft (s cutset : string) : string :=
  match s with
  | EmptyString => EmptyString
  | String c s' => if oneOf c cutset then TrimLeft s' cutset else s
  end.

(** [strings.TrimRight(s, cutset)] *)
Fixpoint TrimRight (s cutset : string) : string :=
  match s with
  | EmptyString => EmptyString
  | String c s' =>
      match TrimRight s' cutset with
      | EmptyString => if oneOf c cutset then EmptyString else String c EmptyString
      | r => String c r
      end
  end.

(** [strings.Trim(s, cutset)] *)
Definition Trim (s cutset : string) : string :=
  TrimRight (TrimLeft s cutset) cutset.

(** Replacement of the non-empty pattern [old], scanning left to right;
    [skip] counts the bytes of a match that are still to be dropped. *)
Fixpoint replaceFrom (old new : string) (skip : nat) (s : string) : string :=
  match s with
  | EmptyString => EmptyString
  | String c s' =>
      match skip with
      | S k => replaceFrom old new k s'
      | O =>
          if String.prefix old s
          then new +:+ replaceFrom old new (Nat.pred (String.length old)) s'
          else String c (replaceFrom old new 0 s')
      end
  end.

(** With an empty pattern Go inserts [new] before every rune and at the
    end; on ASCII text runes are bytes. *)
Fixpoint insertEvery (new s : string) : string :=
  match s with
  | EmptyString => new
  | String c s' => new +:+ String c (insertEvery new s')
  end.

(** [strings.ReplaceAll(s, old, new)] *)
Definition ReplaceAll (s old new : string) : string :=
  match old with
  | EmptyString => insertEvery new s
  | _ => replaceFrom old new 0 s
  end.

End GoStrings.

Import GoStrings.

(** ** Dynamically typed configuration values ([interface{}]) *)

Set Warnings "-register-all,-clear-no-such-hyp".

Inductive value : Type :=
| VNil
| VBool (b : bool)
| VInt (z : Z)
| VStr (s : string)
| VList (l : list value)
| VMap (m : gmap string value)           (* map[string]interface{} *)
| VIMap (m : list (value * value)).      (* map[interface{}]interface{} *)

Module Cast.

(** [strconv.ParseBool], an error giving [false] in [cast.ToBool]. *)
Definition parseBool (s : string) : bool :=
  if decide (s = "1" \/ s = "t" \/ s = "T" \/ s = "TRUE" \/ s = "true" \/ s = "True")
  then true else false.

(** [cast.ToBool]: the zero value on every failed conversion. *)
Definition ToBool (o : option value) : bool :=
  match o with
  | Some (VBool b) => b
  | Some (VInt z) => negb (z =? 0)%Z
  | Some (VStr s) => parseBool s
  | _ => false
  end.

Definition itoa (z : Z) : string := NilZero.string_of_int (Z.to_int z).

(** [cast.ToString]: the empty string on every failed conversion. *)
Definition ToString (o : option value) : string :=
  match o with
  | Some (VStr s) => s
  | Some (VBool true) => "true"
  | Some (VBool false) => "false"
  | Some (VInt z) => itoa z
  | _ => EmptyString
  end.

(** [cast.ToStringMap] on a [map[interface{}]interface{}]: every key
    goes through [ToString]. *)
Definition ToStringMap (kvs : list (value * value)) : gmap string value :=
  list_to_map (map (fun kv => (ToString (Some (fst kv)), snd kv)) kvs).

End Cast.

(** ** Types of the Vault client API *)

(** [api.MountOutput] (and its alias [api.AuthMount]); only the accessor
    is read. *)
Record MountOutput := { Accessor : string }.

(** A Go [map[string]*api.MountOutput] together with the order in which
    a [range] loop visits it. *)
Definition Mounts := list (string * MountOutput).

(** [api.MountConfigInput]: the fields that [mapstructure] fills from the
    [config] block, and [Options]. *)
Record MountConfigInput := {
  mc_Options : gmap string string;
  mc_DefaultLeaseTTL : string;
  mc_MaxLeaseTTL : string;
  mc_ForceNoCache : bool;
  mc_ListingVisibility : string;
  mc_AuditNonHMACRequestKeys : list string;
  mc_AuditNonHMACResponseKeys : list string;
  mc_PassthroughRequestHeaders : list string;
  mc_AllowedResponseHeaders : list string;
  mc_TokenType : string
}.

(** [api.MountInput] *)
Record MountInput := {
  mi_Type : string;
  mi_Description : string;
  mi_PluginName : string;
  mi_Config : MountConfigInput;
  mi_Options : gmap string string;
  mi_Local : bool;
  mi_SealWrap : bool
}.

(** [api.Secret]; [Data] may be nil. *)
Record Secret := { Data : option (gmap string value) }.

(** Go errors: a message from the server or from [errors.Errorf], wrapped
    by [errors.Wrap] with a context message. *)
Inductive error : Type :=
| ErrRemote (msg : string)
| ErrNew (msg : string)
| ErrWrap (e : error) (ctx : string).

(** [err.Error()] *)
Fixpoint errorString (e : error) : string :=
  match e with
  | ErrRemote m => m
  | ErrNew m => m
  | ErrWrap e ctx => ctx +:+ ": " +:+ errorString e
  end.

Definition isOverwriteProhibitedError (err : error) : bool :=
  Contains (errorString err) "delete them before reconfiguring".

(** ** The secrets-engine declarations *)

(** secretEnginesWithoutNameConfig holds the secret engine types where the
    name shouldn't be part of the config path. *)
Definition secretEnginesWithoutNameConfig : gmap string bool :=
  list_to_map [("ad", true); ("alicloud", true); ("azure", true);
               ("gcp", true); ("gcpkms", true); ("kv", true)].

Record secretEngineTemplatedConfig := {
  AllowedDomains : list string;
  Other : option (gmap string value)       (* nil until mapstructure sets it *)
}.

Record secretEngine := {
  Path : string;
  Type_ : string;
  Description : string;
  Configuration : list (string * value);   (* ranged over *)
  Config : gmap string value;
  Options : gmap string string;
  PluginName : string;
  Local_ : bool;
  SealWrap : bool
}.

Definition setPath (p : string) (se : secretEngine) : secretEngine :=
  {| Path := p; Type_ := Type_ se; Description := Description se;
     Configuration := Configuration se; Config := Config se;
     Options := Options se; PluginName := PluginName se;
     Local_ := Local_ se; SealWrap := SealWrap se |}.

(** [v.externalConfig]: the declared engines and the purge switches. *)
Record externalConfig := {
  Secrets : list secretEngine;
  PurgeEnabled : bool;                      (* PurgeUnmanagedConfig.Enabled *)
  PurgeExcludeSecrets : bool                (* PurgeUnmanagedConfig.Exclude.Secrets *)
}.

Definition configNeedsNoName (secretEngineType configOption : string) : bool :=
  if decide (configOption = "config")
  then bool_decide (is_Some (secretEnginesWithoutNameConfig !! secretEngineType))
  else if decide (secretEngineType = "aws" /\ configOption = "config/root")
  then true
  else if decide (secretEngineType = "transit" /\ configOption = "cache-config")
  then true
  else false.

Fixpoint initSecretsEnginesConfig (configs : list secretEngine) : list secretEngine :=
  match configs with
  | [] => []
  | config :: rest =>
      let p := if decide (Path config = EmptyString) then Type_ config else Path config in
      setPath (Trim p "/") config :: initSecretsEnginesConfig rest
  end.

(** ** [github.com/jpillora/backoff]

    Durations are nanoseconds, as in [time.Duration].  The reconciler
    builds its [Backoff] with [Jitter: false], the only case modelled. *)

Module Backoff.

Record t := {
  Min : Z;
  Max : Z;
  Factor : Z;
  Jitter : bool;
  attempt : nat
}.

Definition Millisecond : Z := 1000000.
Definition Second : Z := 1000 * Millisecond.
(* float64(math.MaxInt64 - 512) *)
Definition maxInt64 : Z := 2 ^ 63 - 1024.

(** [b.ForAttempt(attempt)] *)
Definition ForAttempt (b : t) (n : nat) : Z :=
  let min := if (Min b <=? 0)%Z then (100 * Millisecond)%Z else Min b in
  let max := if (Max b <=? 0)%Z then (10 * Second)%Z else Max b in
  if (max <=? min)%Z then max
  else
    let factor := if (Factor b <=? 0)%Z then 2%Z else Factor b in
    let durf := (min * factor ^ Z.of_nat n)%Z in
    if (maxInt64 <? durf)%Z then max
    else if (durf <? min)%Z then min
    else if (max <? durf)%Z then max
    else durf.

(** [b.Duration()]: the wait of the current attempt, and the counter
    moves on. *)
Definition Duration (b : t) : Z * t :=
  (ForAttempt b (attempt b),
   {| Min := Min b; Max := Max b; Factor := Factor b; Jitter := Jitter b;
      attempt := S (attempt b) |}).

(** [b.Reset()] *)
Definition Reset (b : t) : t :=
  {| Min := Min b; Max := Max b; Factor := Factor b; Jitter := Jitter b;
     attempt := 0 |}.

End Backoff.

(** ** Calls, log lines and the trace *)

Inductive LogMsg : Type :=
| LogAccessorReplaced (input accessor : string)
| LogExistingMounts (mounts : Mounts)
| LogRotating (rotatePath : string)
| LogRotated (rotatePath : string)
| LogRotatedPreviously (rotatePath : string)
| LogAdding (path type : string)
| LogMountInput (input : MountInput)
| LogMountRetry (path err : string) (d : Z)
| LogTuning (path : string)
| LogTuneRetry (path err : string) (d : Z)
| LogAlreadyExists (configPath reason : string)
| LogCantReconfigure (configPath : string)
| LogRemoving (path : string).

Inductive Event : Type :=
| EListAuth
| EListMounts
| EMount (path : string) (input : MountInput)
| ETuneMount (path : string) (config : MountConfigInput)
| ERead (path : string)
| EWrite (path : string) (data : option (gmap string value))
| ERawGet (path : string)
| EUnmount (path : string)
| ESleep (d : Z)
| ELog (m : LogMsg).

(** The remote server: what each client call answers, given everything
    that happened before the call. *)
Record Server := {
  srvListAuth : list Event -> error + Mounts;
  srvListMounts : list Event -> error + Mounts;
  srvMount : list Event -> string -> MountInput -> option error;
  srvTuneMount : list Event -> string -> MountConfigInput -> option error;
  srvRead : list Event -> string -> error + option Secret;
  srvWrite : list Event -> string -> option (gmap string value) -> error + option Secret;
  srvRawGet : list Event -> string -> error + Z;
  srvUnmount : list Event -> string -> option error
}.

(** The decoding libraries ([mapstructure], [cast], [fmt]), taken as
    given: the properties hold whatever these functions answer. *)
Record Decoders := {
  (* mapstructure.Decode(se.Config, &mountConfigInput) *)
  decodeMountConfig : gmap string value -> error + MountConfigInput;
  (* mapstructure.Decode(subConfigDataRaw, &pkiRole); None when it fails *)
  decodeTemplated : value -> option secretEngineTemplatedConfig;
  (* cast.ToSliceE *)
  ToSliceE : value -> error + list value;
  (* cast.ToStringMapE *)
  ToStringMapE : value -> error + gmap string value;
  (* fmt's %s verb on a value that is neither nil nor a string *)
  sprintOther : value -> string
}.

(** The state of a pass: what has happened so far, and [v.rotateCache]. *)
Record World := {
  trace : list Event;
  rotateCache : gmap string bool
}.

Inductive outcome (A : Type) : Type :=
| Ok (a : A)
| Fail (e : error)
| Panic (msg : string)
| OutOfFuel.

Arguments Ok {A} a.
Arguments Fail {A} e.
Arguments Panic {A} msg.
Arguments OutOfFuel {A}.

Definition M (A : Type) : Type := World -> outcome A * World.

#[global] Instance M_ret : MRet M := fun A a w => (Ok a, w).

#[global] Instance M_bind : MBind M := fun A B f m w =>
  match m w with
  | (Ok a, w') => f a w'
  | (Fail e, w') => (Fail e, w')
  | (Panic msg, w') => (Panic msg, w')
  | (OutOfFuel, w') => (OutOfFuel, w')
  end.

Definition throw {A} (e : error) : M A := fun w => (Fail e, w).
Definition panic {A} (msg : string) : M A := fun w => (Panic msg, w).
Definition outOfFuel {A} : M A := fun w => (OutOfFuel, w).

Definition record (e : Event) (w : World) : World :=
  {| trace := trace w ++ [e]; rotateCache := rotateCache w |}.

Definition emit (e : Event) : M unit := fun w => (Ok tt, record e w).

Definition log (m : LogMsg) : M unit := emit (ELog m).

Definition sleep (d : Z) : M unit := emit (ESleep d).

(** A client call: the server answers from the history, the call joins
    the trace. *)
Definition call {A} (answer : list Event -> A) (e : Event) : M A :=
  fun w => (Ok (answer (trace w)), record e w).

(** [v.rotateCache] read, and [v.rotateCache[p] = true]. *)
Definition readCache : M (gmap string bool) := fun w => (Ok (rotateCache w), w).

Definition markRotated (p : string) : M unit := fun w =>
  (Ok tt, {| trace := trace w; rotateCache := <[p := true]> (rotateCache w) |}).

(** [errors.Wrap] on the way out: [m !> wrap] fails with [wrap err] where
    [m] fails with [err]. *)
Definition wrapErr {A} (m : M A) (wrap : error -> error) : M A := fun w =>
  match m w with
  | (Fail e, w') => (Fail (wrap e), w')
  | r => r
  end.

Notation "m !> wrap" := (wrapErr m wrap) (at level 50, left associativity).

(** [res, err := m]: the error is looked at instead of returned. *)
Definition try {A} (m : M A) : M (error + A) := fun w =>
  match m w with
  | (Ok a, w') => (Ok (inr a), w')
  | (Fail e, w') => (Ok (inl e), w')
  | (Panic msg, w') => (Panic msg, w')
  | (OutOfFuel, w') => (OutOfFuel, w')
  end.

Fixpoint forM_ {A} (l : list A) (f : A -> M unit) : M unit :=
  match l with
  | [] => mret tt
  | x :: rest => f x;; forM_ rest f
  end.

Fixpoint traverse {A B} (f : A -> M B) (l : list A) : M (list B) :=
  match l with
  | [] => mret []
  | x :: rest => y ← f x; ys ← traverse f rest; mret (y :: ys)
  end.

(** ** The reconciler *)

Definition fst_eqb (k : string) (kv : string * MountOutput) : bool :=
  String.eqb k (fst kv).

(** [fmt.Sprintf("%s", v)] for a value that is not nil. *)
Definition sprintS (lib : Decoders) (v : value) : string :=
  match v with
  | VStr s => s
  | _ => sprintOther lib v
  end.

(** [vaultpkg.NewData(cas, data)] of the vault-sdk: a KV version 2 write
    payload. *)
Definition NewData (cas : Z) (data : option (gmap string value)) : gmap string value :=
  <["options" := VMap {["cas" := VInt cas]}]>
    (<["data" := match data with Some d => VMap d | None => VNil end]> ∅).

(** The body of the loop at lines 304-308: a child dict that arrived as
    [map[interface{}]interface{}] becomes a string-keyed map. *)
Definition stringKeyed (v : value) : value :=
  match v with
  | VIMap kvs => VMap (Cast.ToStringMap kvs)
  | _ => v
  end.

(** The backoff that [addManagedSecretsEngines] creates on entry. *)
Definition newBackoff : Backoff.t :=
  {| Backoff.Min := 500 * Backoff.Millisecond;
     Backoff.Max := 60 * Backoff.Second;
     Backoff.Factor := 2;
     Backoff.Jitter := false;
     Backoff.attempt := 0 |}.

(** Iterations granted to a retry loop; [retry_fuel_suffices] shows that
    the loops of the reconciler return before they are used up. *)
Definition retryFuel : nat := 16.

Definition isRotatable (secretEngineType configOption : string) : bool :=
  bool_decide ((secretEngineType = "database" /\ configOption = "config") \/
               (secretEngineType = "aws" /\ configOption = "config/root")).

(** The error of line 298. *)
Definition namingError (se : secretEngine) (configOption : string) : error :=
  ErrNew ("error finding sub config data name for secret engine: "
          +:+ Path se +:+ "/" +:+ configOption).

(** [fmt.Sprintf("__accessor__%s", strings.TrimRight(k, "/"))] *)
Definition accessorToken (k : string) : string :=
  "__accessor__" +:+ TrimRight k "/".

Section Reconciler.

Variable srv : Server.
Variable lib : Decoders.
Variable cfg : externalConfig.

(** Modelled from the spec: [writeWithWarningCheck] is a method of the
    vault type that is not in this file; the spec gives the write as
    [Write(path, data) -> (resultData, error)].  The client may answer a
    successful write without a secret. *)
Definition writeWithWarningCheck (path : string) (data : option (gmap string value))
  : M (option Secret) :=
  r ← call (fun h => srvWrite srv h path data) (EWrite path data);
  match r with
  | inl err => throw err
  | inr sec => mret sec
  end.

Fixpoint replaceAccessor (input : string) (mounts : Mounts) : M string :=
  match mounts with
  | [] => mret input
  | (k, v) :: rest =>
      if Contains input (accessorToken k)
      then
        log (LogAccessorReplaced input (Accessor v));;
        mret (ReplaceAll input (accessorToken k) (Accessor v))
      else replaceAccessor input rest
  end.

Definition getMountConfigInput (se : secretEngine) : error + MountConfigInput :=
  match decodeMountConfig lib (Config se) with
  | inl err => inl (ErrWrap err "error parsing config for secret engine")
  | inr c =>
      (* the options outside config overwrite the options inside *)
      inr {| mc_Options := Options se;
             mc_DefaultLeaseTTL := mc_DefaultLeaseTTL c;
             mc_MaxLeaseTTL := mc_MaxLeaseTTL c;
             mc_ForceNoCache := mc_ForceNoCache c;
             mc_ListingVisibility := mc_ListingVisibility c;
             mc_AuditNonHMACRequestKeys := mc_AuditNonHMACRequestKeys c;
             mc_AuditNonHMACResponseKeys := mc_AuditNonHMACResponseKeys c;
             mc_PassthroughRequestHeaders := mc_PassthroughRequestHeaders c;
             mc_AllowedResponseHeaders := mc_AllowedResponseHeaders c;
             mc_TokenType := mc_TokenType c |}
  end.

Definition mountExists (path : string) : M bool :=
  r ← call (srvListMounts srv) EListMounts;
  match r with
  | inl err => throw (ErrWrap err "error reading mounts from vault")
  | inr mounts =>
      log (LogExistingMounts mounts);;
      mret (existsb (fst_eqb (path +:+ "/")) mounts)
  end.

Definition rotatePathOf (secretEngineType path name : string) : option string :=
  if decide (secretEngineType = "aws") then Some (path +:+ "/config/rotate-root")
  else if decide (secretEngineType = "database") then Some (path +:+ "/rotate-root/" +:+ name)
  else if decide (secretEngineType = "gcp") then Some (path +:+ "/" +:+ name +:+ "/rotate")
  else None.

Definition rotateSecretEngineCredentials
    (secretEngineType path name configPath : string) : M unit :=
  match rotatePathOf secretEngineType path name with
  | None =>
      throw (ErrNew ("secret engine type '" +:+ secretEngineType
                     +:+ "' doesn't support credential rotation"))
  | Some rotatePath =>
      cache ← readCache;
      match cache !! rotatePath with
      | None =>
          log (LogRotating rotatePath);;
          writeWithWarningCheck rotatePath None
            !> (fun err => ErrWrap err ("error rotating credentials for '" +:+ configPath
                                        +:+ "' config in vault"));;
          log (LogRotated rotatePath);;
          markRotated rotatePath
      | Some _ => log (LogRotatedPreviously rotatePath)
      end
  end.

(** getExistingSecretsEngines gets all secrets engines that are already
    in Vault; it hands back its error next to the map. *)
Definition getExistingSecretsEngines : M (error + gmap string bool) :=
  r ← call (srvListMounts srv) EListMounts;
  match r with
  | inl err => mret (inl (ErrWrap err "unable to list existing secrets engines"))
  | inr l => mret (inr (foldl (fun m kv => <[Trim (fst kv) "/" := true]> m) ∅ l))
  end.

(** getUnmanagedSecretsEngines compares what is in Vault with what is
    declared.  The error of the listing is dropped: the map is then nil,
    and deleting from a nil map does nothing. *)
Definition getUnmanagedSecretsEngines (managedSecretsEngines : list secretEngine)
  : M (gmap string bool) :=
  r ← getExistingSecretsEngines;
  let unmanagedSecretsEngines := match r with inl _ => ∅ | inr m => m end in
  let unmanagedSecretsEngines :=
    delete "cubbyhole" (delete "identity" (delete "sys" unmanagedSecretsEngines)) in
  mret (foldl (fun m se => delete (Path se) m) unmanagedSecretsEngines managedSecretsEngines).

(** The retry loop around [Mount] (lines 230-245): one [b.Duration()]
    per failed attempt. *)
Fixpoint mountRetry (fuel : nat) (path : string) (mountInput : MountInput)
    (b : Backoff.t) : M Backoff.t :=
  match fuel with
  | O => outOfFuel
  | S fuel' =>
      r ← call (fun h => srvMount srv h path mountInput) (EMount path mountInput);
      match r with
      | Some err =>
          let '(d, b1) := Backoff.Duration b in
          log (LogMountRetry path (errorString err) d);;
          if decide (d = Backoff.Max b1)
          then throw (ErrWrap err ("error mounting " +:+ path
                                   +:+ " into vault after several attempts"))
          else sleep d;; mountRetry fuel' path mountInput b1
      | None => mret (Backoff.Reset b)
      end
  end.

(** The retry loop around [TuneMount] (lines 249-263): [b.Duration()]
    is called for the log line, again for the comparison and again for
    the sleep. *)
Fixpoint tuneRetry (fuel : nat) (path : string) (mountConfigInput : MountConfigInput)
    (b : Backoff.t) : M Backoff.t :=
  match fuel with
  | O => outOfFuel
  | S fuel' =>
      r ← call (fun h => srvTuneMount srv h path mountConfigInput)
               (ETuneMount path mountConfigInput);
      match r with
      | Some err =>
          let '(d1, b1) := Backoff.Duration b in
          log (LogTuneRetry path (errorString err) d1);;
          let '(d2, b2) := Backoff.Duration b1 in
          if decide (d2 = Backoff.Max b2)
          then throw (ErrWrap err ("error mounting " +:+ path
                                   +:+ " into vault after several attempts"))
          else
            let '(d3, b3) := Backoff.Duration b2 in
            sleep d3;; tuneRetry fuel' path mountConfigInput b3
      | None => mret (Backoff.Reset b)
      end
  end.

(** Lines 216-264: mount the engine if it is not there, tune it if it
    is. *)
Definition ensureMount (se : secretEngine) (mountExists : bool)
    (mountConfigInput : MountConfigInput) (b : Backoff.t) : M Backoff.t :=
  if negb mountExists
  then
    let mountInput :=
      {| mi_Type := Type_ se;
         mi_Description := Description se;
         mi_PluginName := PluginName se;
         mi_Config := mountConfigInput;
         mi_Options := mc_Options mountConfigInput;
         mi_Local := Local_ se;
         mi_SealWrap := SealWrap se |} in
    log (LogAdding (Path se) (Type_ se));;
    log (LogMountInput mountInput);;
    mountRetry retryFuel (Path se) mountInput b
  else
    log (LogTuning (Path se));;
    tuneRetry retryFuel (Path se) mountConfigInput b.

(** Lines 273-294: the item as a string-keyed map, its templated
    domains resolved. *)
Definition decodeSubConfig (subConfigDataRaw : value) (mounts : Mounts)
  : M (gmap string value) :=
  match decodeTemplated lib subConfigDataRaw with
  | Some pkiRole =>
      templatedDomains ← traverse (fun domain => replaceAccessor domain mounts)
                              (AllowedDomains pkiRole);
      match Other pkiRole with
      | None => panic "assignment to entry in nil map"
      | Some other => mret (<["allowed_domains" := VList (VStr <$> templatedDomains)]> other)
      end
  | None =>
      match ToStringMapE lib subConfigDataRaw with
      | inl err => throw (ErrWrap err "error converting sub config data for secret engine")
      | inr m => mret m
      end
  end.

(** Lines 310-315 *)
Definition configPathOf (path configOption : string) (name : option value) : string :=
  match name with
  | None | Some VNil => path +:+ "/" +:+ configOption
  | Some n => path +:+ "/" +:+ configOption +:+ "/" +:+ sprintS lib n
  end.

(** Lines 333-358: does the sub-resource exist already?  (The deferred
    close of the response body makes no call and is left out.) *)
Definition secretExists (se : secretEngine) (configOption configPath : string) : M bool :=
  if decide (configOption = "root/generate")
  then
    r ← call (fun h => srvRawGet srv h ("/v1/" +:+ Path se +:+ "/ca"))
             (ERawGet ("/v1/" +:+ Path se +:+ "/ca"));
    match r with
    | inl err => throw (ErrWrap err "failed to check pki CA")
    | inr status => mret (bool_decide (status = 200%Z))
    end
  else
    r ← call (fun h => srvRead srv h configPath) (ERead configPath);
    match r with
    | inl err => throw (ErrWrap err ("error reading configPath " +:+ configPath))
    | inr (Some {| Data := Some _ |}) => mret true
    | inr _ => mret false
    end.

(** Lines 331-368 *)
Definition shouldUpdate (se : secretEngine) (mountExists createOnly rotate : bool)
    (configOption configPath : string) : M bool :=
  if (createOnly || rotate) && mountExists
  then
    exists_ ← secretExists se configOption configPath;
    if exists_ : bool
    then
      log (LogAlreadyExists configPath (if createOnly then "create_only" else "rotate"));;
      mret false
    else mret true
  else mret true.

(** Lines 370-387; [false] stands for the [continue] of line 376. *)
Definition writeConfig (configPath saveTo : string) (subConfigData : gmap string value)
  : M bool :=
  r ← try (writeWithWarningCheck configPath (Some subConfigData));
  match r with
  | inl err =>
      if isOverwriteProhibitedError err
      then log (LogCantReconfigure configPath);; mret false
      else throw (ErrWrap err ("error configuring " +:+ configPath +:+ " config in vault"))
  | inr sec =>
      if decide (saveTo = EmptyString) then mret true
      else
        match sec with
        | None => panic "nil pointer dereference"
        | Some sec =>
            writeWithWarningCheck saveTo (Some (NewData 0 (Data sec)))
              !> (fun err => ErrWrap err ("error saving secret in vault to " +:+ saveTo));;
            mret true
        end
  end.

(** Lines 393-405 *)
Definition rotateIfNeeded (se : secretEngine) (mountExists rotate : bool)
    (configOption configPath : string) (name : option value) : M unit :=
  if rotate && mountExists && isRotatable (Type_ se) configOption
  then
    nameStr ← match name with
              | None | Some VNil => mret EmptyString
              | Some (VStr s) => mret s
              | Some _ => panic "interface conversion: interface {} is not string"
              end;
    rotateSecretEngineCredentials (Type_ se) (Path se) nameStr configPath
      !> (fun err => ErrWrap err ("error rotating credentials for '" +:+ configPath
                                  +:+ "' config in vault"))
  else mret tt.

(** Lines 317-405: the item applied at [configPath]. *)
Definition applyAt (se : secretEngine) (mountExists : bool) (configOption : string)
    (name : option value) (configPath : string) (subConfigData : gmap string value)
  : M unit :=
    let createOnly := Cast.ToBool (subConfigData !! "create_only") in
    let subConfigData := delete "create_only" subConfigData in
    let rotate := Cast.ToBool (subConfigData !! "rotate") in
    let subConfigData := delete "rotate" subConfigData in
    let saveTo := Cast.ToString (subConfigData !! "save_to") in
    let subConfigData := delete "save_to" subConfigData in
    update ← shouldUpdate se mountExists createOnly rotate configOption configPath;
    goOn ← (if update : bool then writeConfig configPath saveTo subConfigData else mret true);
    if goOn : bool
    then rotateIfNeeded se mountExists rotate configOption configPath name
    else mret tt.

(** Lines 296-405, one item whose map is [subConfigData]. *)
Definition applyItem (se : secretEngine) (mountExists : bool) (configOption : string)
    (subConfigData : gmap string value) : M unit :=
  let name := subConfigData !! "name" in
  if negb (bool_decide (is_Some name)) && negb (configNeedsNoName (Type_ se) configOption)
  then throw (namingError se configOption)
  else
    applyAt se mountExists configOption name
            (configPathOf (Path se) configOption name) (stringKeyed <$> subConfigData).

(** Lines 272-406, one raw item. *)
Definition processItem (se : secretEngine) (mountExists : bool) (configOption : string)
    (mounts : Mounts) (subConfigDataRaw : value) : M unit :=
  subConfigData ← decodeSubConfig subConfigDataRaw mounts;
  applyItem se mountExists configOption subConfigData.

(** Lines 267-407 *)
Definition processOption (se : secretEngine) (mountExists : bool) (mounts : Mounts)
    (entry : string * value) : M unit :=
  match ToSliceE lib (snd entry) with
  | inl err => throw (ErrWrap err "error converting config data for secret engine")
  | inr configData => forM_ configData (processItem se mountExists (fst entry) mounts)
  end.

(** Lines 206-407, one engine; the backoff is handed on to the next. *)
Definition processEngine (se : secretEngine) (mounts : Mounts) (b : Backoff.t)
  : M Backoff.t :=
  exists_ ← mountExists (Path se);
  match getMountConfigInput se with
  | inl err => throw err
  | inr mountConfigInput =>
      b' ← ensureMount se exists_ mountConfigInput b;
      forM_ (Configuration se) (processOption se exists_ mounts);;
      mret b'
  end.

(** The loop of line 205, from the backoff state [b]. *)
Fixpoint addEngines (managedSecretsEngines : list secretEngine) (mounts : Mounts)
    (b : Backoff.t) : M Backoff.t :=
  match managedSecretsEngines with
  | [] => mret b
  | se :: rest => b' ← processEngine se mounts b; addEngines rest mounts b'
  end.

Definition addManagedSecretsEngines (managedSecretsEngines : list secretEngine)
    (mounts : Mounts) : M unit :=
  addEngines managedSecretsEngines mounts newBackoff;; mret tt.

Definition unmountOne (secretEnginePath : string) : M unit :=
  log (LogRemoving secretEnginePath);;
  r ← call (fun h => srvUnmount srv h secretEnginePath) (EUnmount secretEnginePath);
  match r with
  | Some err => throw (ErrWrap err ("error unmounting " +:+ secretEnginePath
                                    +:+ " secret engine from vault"))
  | None => mret tt
  end.

(** The keys of the unmanaged map in the order the [range] of line 419
    visits them; Go leaves the order open, the model takes the order of
    [map_to_list]. *)
Definition rangeKeys (m : gmap string bool) : list string := (map_to_list m).*1.

Definition removeUnmanagedSecretsEngines (unmanagedSecretsEngines : gmap string bool)
  : M unit :=
  if bool_decide (size unmanagedSecretsEngines = 0) || negb (PurgeEnabled cfg)
     || PurgeExcludeSecrets cfg
  then mret tt
  else forM_ (rangeKeys unmanagedSecretsEngines) unmountOne.

Definition configureSecretsEngines : M unit :=
  r ← call (srvListAuth srv) EListAuth;
  match r with
  | inl err =>
      throw (ErrWrap err "error while getting list of auth engines for secret engine configuration")
  | inr auths =>
      let managedSecretsEngines := initSecretsEnginesConfig (Secrets cfg) in
      unmanagedSecretsEngines ← getUnmanagedSecretsEngines managedSecretsEngines;
      addManagedSecretsEngines managedSecretsEngines auths
        !> (fun err => ErrWrap err "error adding secrets engines");;
      removeUnmanagedSecretsEngines unmanagedSecretsEngines
        !> (fun err => ErrWrap err "error removing secrets engines")
  end.

End Reconciler.


(** ** Projections of a trace *)

Definition sleepsOf (tr : list Event) : list Z :=
  omap (fun e => match e with ESleep d => Some d | _ => None end) tr.

Definition mountedPaths (tr : list Event) : list string :=
  omap (fun e => match e with EMount p _ => Some p | _ => None end) tr.

Definition tunedPaths (tr : list Event) : list string :=
  omap (fun e => match e with ETuneMount p _ => Some p | _ => None end) tr.

Definition tuneOptions (tr : list Event) : list (gmap string string) :=
  omap (fun e => match e with ETuneMount _ c => Some (mc_Options c) | _ => None end) tr.

Definition writtenPaths (tr : list Event) : list string :=
  omap (fun e => match e with EWrite p _ => Some p | _ => None end) tr.

Definition unmountedPaths (tr : list Event) : list string :=
  omap (fun e => match e with EUnmount p => Some p | _ => None end) tr.

Definition logged (tr : list Event) : list LogMsg :=
  omap (fun e => match e with ELog m => Some m | _ => None end) tr.

(** ** Servers, decoders and declarations used in the examples *)

Module Scenario.

(** A server on which nothing is mounted and every call succeeds. *)
Definition quiet : Server :=
  {| srvListAuth := fun _ => inr [];
     srvListMounts := fun _ => inr [];
     srvMount := fun _ _ _ => None;
     srvTuneMount := fun _ _ _ => None;
     srvRead := fun _ _ => inr None;
     srvWrite := fun _ _ _ => inr None;
     srvRawGet := fun _ _ => inr 404%Z;
     srvUnmount := fun _ _ => None |}.

Definition emptyMountConfig : MountConfigInput :=
  {| mc_Options := ∅; mc_DefaultLeaseTTL := EmptyString; mc_MaxLeaseTTL := EmptyString;
     mc_ForceNoCache := false; mc_ListingVisibility := EmptyString;
     mc_AuditNonHMACRequestKeys := []; mc_AuditNonHMACResponseKeys := [];
     mc_PassthroughRequestHeaders := []; mc_AllowedResponseHeaders := [];
     mc_TokenType := EmptyString |}.

Definition asStrings (l : list value) : option (list string) :=
  mapM (fun v => match v with VStr s => Some s | _ => None end) l.

Definition nonEmpty (m : gmap string value) : option (gmap string value) :=
  if decide (m = ∅) then None else Some m.

(** Decoders for configuration that was read from YAML into string-keyed
    maps: lease settings are strings, [allowed_domains] a list of
    strings. *)
Definition yaml : Decoders :=
  {| decodeMountConfig := fun m =>
       inr {| mc_Options := ∅;
              mc_DefaultLeaseTTL := Cast.ToString (m !! "default_lease_ttl");
              mc_MaxLeaseTTL := Cast.ToString (m !! "max_lease_ttl");
              mc_ForceNoCache := Cast.ToBool (m !! "force_no_cache");
              mc_ListingVisibility := Cast.ToString (m !! "listing_visibility");
              mc_AuditNonHMACRequestKeys := [];
              mc_AuditNonHMACResponseKeys := [];
              mc_PassthroughRequestHeaders := [];
              mc_AllowedResponseHeaders := [];
              mc_TokenType := Cast.ToString (m !! "token_type") |};
     decodeTemplated := fun v =>
       match v with
       | VMap m =>
           match m !! "allowed_domains" with
           | None => Some {| AllowedDomains := []; Other := nonEmpty m |}
           | Some (VList l) =>
               ds ← asStrings l;
               Some {| AllowedDomains := ds;
                       Other := nonEmpty (delete "allowed_domains" m) |}
           | Some _ => None
           end
       | _ => None
       end;
     ToSliceE := fun v =>
       match v with
       | VList l => inr l
       | _ => inl (ErrNew "unable to cast to []interface{}")
       end;
     ToStringMapE := fun v =>
       match v with
       | VMap m => inr m
       | VIMap kvs => inr (Cast.ToStringMap kvs)
       | _ => inl (ErrNew "unable to cast to map[string]interface{}")
       end;
     sprintOther := fun v =>
       match v with
       | VInt z => "%!s(int=" +:+ Cast.itoa z +:+ ")"
       | VBool true => "%!s(bool=true)"
       | VBool false => "%!s(bool=false)"
       | _ => "%!s(?)"
       end |}.

Definition start : World := {| trace := []; rotateCache := ∅ |}.

Definition engine (path type : string) (configuration : list (string * value))
    (options : gmap string string) : secretEngine :=
  {| Path := path; Type_ := type; Description := EmptyString;
     Configuration := configuration; Config := ∅; Options := options;
     PluginName := EmptyString; Local_ := false; SealWrap := false |}.

(** Two auth mounts, in the order a [range] visits them. *)
Definition auths : Mounts :=
  [("github/", {| Accessor := "auth_github_0a1b" |});
   ("ldap/", {| Accessor := "auth_ldap_2c3d" |})].

Definition refused : error := ErrRemote "connection refused".

(** The auth methods cannot be listed. *)
Definition authRefused : Server :=
  {| srvListAuth := fun _ => inl refused; srvListMounts := srvListMounts quiet;
     srvMount := srvMount quiet; srvTuneMount := srvTuneMount quiet;
     srvRead := srvRead quiet; srvWrite := srvWrite quiet;
     srvRawGet := srvRawGet quiet; srvUnmount := srvUnmount quiet |}.

(** [quiet] with another listing of mounts, another [TuneMount], another
    [Mount], another [Read]. *)
Definition withMounts (answer : list Event -> error + Mounts) (s : Server) : Server :=
  {| srvListAuth := srvListAuth s; srvListMounts := answer;
     srvMount := srvMount s; srvTuneMount := srvTuneMount s;
     srvRead := srvRead s; srvWrite := srvWrite s;
     srvRawGet := srvRawGet s; srvUnmount := srvUnmount s |}.

Definition withTune (answer : list Event -> string -> MountConfigInput -> option error)
    (s : Server) : Server :=
  {| srvListAuth := srvListAuth s; srvListMounts := srvListMounts s;
     srvMount := srvMount s; srvTuneMount := answer;
     srvRead := srvRead s; srvWrite := srvWrite s;
     srvRawGet := srvRawGet s; srvUnmount := srvUnmount s |}.

Definition withMount (answer : list Event -> string -> MountInput -> option error)
    (s : Server) : Server :=
  {| srvListAuth := srvListAuth s; srvListMounts := srvListMounts s;
     srvMount := answer; srvTuneMount := srvTuneMount s;
     srvRead := srvRead s; srvWrite := srvWrite s;
     srvRawGet := srvRawGet s; srvUnmount := srvUnmount s |}.

Definition withRead (answer : list Event -> string -> error + option Secret)
    (s : Server) : Server :=
  {| srvListAuth := srvListAuth s; srvListMounts := srvListMounts s;
     srvMount := srvMount s; srvTuneMount := srvTuneMount s;
     srvRead := answer; srvWrite := srvWrite s;
     srvRawGet := srvRawGet s; srvUnmount := srvUnmount s |}.

Definition mount (accessor : string) : MountOutput := {| Accessor := accessor |}.

(** A Vault with a KV engine, an old KV engine and the system mounts. *)
Definition mounted : Mounts :=
  [("kv/", mount "kv_1a"); ("old-kv/", mount "kv_2b"); ("sys/", mount "system_3c");
   ("identity/", mount "identity_4d"); ("cubbyhole/", mount "cubbyhole_5e")].

Definition kvServer : Server := withMounts (fun _ => inr mounted) quiet.

(** The KV engine is there, every [TuneMount] is refused. *)
Definition tuneRefused : Server := withTune (fun _ _ _ => Some refused) kvServer.

(** Nothing is mounted, every [Mount] is refused. *)
Definition mountRefused : Server := withMount (fun _ _ _ => Some refused) quiet.

(** The first listing of mounts of a pass is refused, later ones succeed. *)
Definition firstListingRefused : Server :=
  withMounts (fun h =>
                if existsb (fun e => match e with EListMounts => true | _ => false end) h
                then inr [] else inl refused) quiet.

(** The listing for the unmanaged set succeeds, the listing of the mount
    check is refused. *)
Definition secondListingRefused : Server :=
  withMounts (fun h =>
                if existsb (fun e => match e with EListMounts => true | _ => false end) h
                then inl refused else inr mounted) quiet.

Definition kv : secretEngine := engine EmptyString "kv" [] {["version" := "2"]}.

Definition kvOnly (purge : bool) : externalConfig :=
  {| Secrets := [kv]; PurgeEnabled := purge; PurgeExcludeSecrets := false |}.

(** A database engine whose connection is declared with [rotate]. *)
Definition postgres : gmap string value :=
  {["name" := VStr "pg"; "rotate" := VBool true;
    "connection_url" := VStr "postgresql://{{username}}:{{password}}@db:5432"]}.

Definition database : secretEngine :=
  engine "database" "database" [("config", VList [VMap postgres])] ∅.

Definition databaseOnly : externalConfig :=
  {| Secrets := [database]; PurgeEnabled := false; PurgeExcludeSecrets := false |}.

(** The database engine is mounted and its connection configured. *)
Definition databaseServer : Server :=
  withRead (fun _ _ => inr (Some {| Data := Some {["plugin_name" := VStr "postgresql"]} |}))
           (withMounts (fun _ => inr [("database/", mount "database_6f")]) quiet).

(** A PKI engine and two roles: one without a name, one whose name is
    nil. *)
Definition pki : secretEngine := engine "pki" "pki" [] ∅.

Definition roleWithoutName : gmap string value := {["ttl" := VStr "1h"]}.

Definition roleNilName : gmap string value := {["name" := VNil; "ttl" := VStr "1h"]}.

(** The first two attempts to mount are refused, the third succeeds. *)
Definition mountRefusedTwice : Server :=
  withMount (fun h _ _ => if decide (length (mountedPaths h) < 2) then Some refused else None)
            quiet.

Definition pkiOnly : externalConfig :=
  {| Secrets := [engine "pki" "pki" [("roles", VList [VMap roleWithoutName])] ∅];
     PurgeEnabled := false; PurgeExcludeSecrets := false |}.

(** A GCP engine with a roleset that is declared create-only and exists
    already. *)
Definition roleset : gmap string value :=
  {["name" := VStr "deploy"; "create_only" := VBool true;
    "project" := VStr "example-project"]}.

Definition gcp : secretEngine :=
  engine "gcp" "gcp" [("roleset", VList [VMap roleset])] ∅.

Definition gcpOnly : externalConfig :=
  {| Secrets := [gcp]; PurgeEnabled := false; PurgeExcludeSecrets := false |}.

Definition gcpServer : Server :=
  withRead (fun _ _ => inr (Some {| Data := Some {["project" := VStr "example-project"]} |}))
           (withMounts (fun _ => inr [("gcp/", mount "gcp_7a")]) quiet).

(** A PKI engine whose root certificate is generated once and saved to
    a KV path; the server answers a write with the certificate. *)
Definition rootCA : gmap string value :=
  {["name" := VStr "internal"; "common_name" := VStr "vault.example";
    "create_only" := VBool true; "save_to" := VStr "secret/data/pki/root"]}.

Definition pkiRootOnly : externalConfig :=
  {| Secrets := [engine "pki" "pki" [("root/generate", VList [VMap rootCA])] ∅];
     PurgeEnabled := false; PurgeExcludeSecrets := false |}.

Definition certificate : gmap string value := {["certificate" := VStr "PEM"]}.

Definition signing : Server :=
  {| srvListAuth := srvListAuth quiet; srvListMounts := srvListMounts quiet;
     srvMount := srvMount quiet; srvTuneMount := srvTuneMount quiet;
     srvRead := srvRead quiet;
     srvWrite := fun _ _ _ => inr (Some {| Data := Some certificate |});
     srvRawGet := srvRawGet quiet; srvUnmount := srvUnmount quiet |}.

End Scenario.

(** ** Vocabulary of the statements *)

(** A relational Hoare logic for the pass.  [obeys R S m]: a run of [m]
    that returns relates the worlds before and after by [R]; a run that
    fails, panics or stops relates them by [S]. *)
Definition obeys (R S : World -> World -> Prop) {A} (m : M A) : Prop :=
  forall w, match m w with
            | (Ok _, w') => R w w'
            | (_, w') => S w w'
            end.

(** An event that may always be recorded. *)
Definition accepts (R : World -> World -> Prop) (e : Event) : Prop :=
  forall w, R w (record e w).

(** The item's data once lines 319-329 have taken out the control keys. *)
Definition stripControl (d : gmap string value) : gmap string value :=
  delete "save_to" (delete "rotate" (delete "create_only" d)).

(** A payload without the three control keys. *)
Definition controlFree (d : gmap string value) : Prop :=
  d !! "create_only" = None /\ d !! "rotate" = None /\ d !! "save_to" = None.

(** The events of a pass other than the rotation write: any call that is
    not a write, and a write of a payload without control keys. *)
Definition plain (e : Event) : Prop :=
  match e with
  | EWrite _ None => False
  | EWrite _ (Some d) => controlFree d
  | _ => True
  end.

(** Any call that is not a write, any sleep and any log line. *)
Definition notWrite (e : Event) : Prop :=
  match e with
  | EWrite _ _ => False
  | _ => True
  end.

(** Anything but a write with a payload. *)
Definition noPayload (e : Event) : Prop :=
  match e with
  | EWrite _ (Some _) => False
  | _ => True
  end.

(** Anything but a write without a payload. *)
Definition noRotation (e : Event) : Prop :=
  match e with
  | EWrite _ None => False
  | _ => True
  end.

(** No write carries a control key. *)
Definition clean (e : Event) : Prop :=
  match e with
  | EWrite _ (Some d) => controlFree d
  | _ => True
  end.

(** What an item may write: its data without the control keys at its
    config path, and the result of that write at its [save_to] path. *)
Definition itemWrite (configPath saveTo : string) (d : gmap string value) (e : Event)
  : Prop :=
  match e with
  | EWrite p (Some d') =>
      (p = configPath /\ d' = stripControl d) \/
      (p = saveTo /\ exists data, d' = NewData 0 data)
  | _ => True
  end.

(** [w'] continues [w] by events that all satisfy [P]. *)
Definition extends (P : Event -> Prop) (w w' : World) : Prop :=
  exists evs, trace w' = trace w ++ evs /\ Forall P evs.

(** The rotation write is the only write without a payload. *)
Definition isRotationWrite (p : string) (e : Event) : bool :=
  match e with
  | EWrite q None => bool_decide (q = p)
  | _ => false
  end.

Definition rotationWrites (p : string) (tr : list Event) : nat :=
  length (filter (fun e => isRotationWrite p e = true) tr).

(** The cache holds exactly the paths whose rotation write is in the
    trace, and each of them was written once. *)
Definition cacheExact (w : World) : Prop :=
  forall p, rotationWrites p (trace w) =
            match rotateCache w !! p with Some _ => 1 | None => 0 end.

Definition rotatedAtMostOnce (w : World) : Prop :=
  forall p, rotationWrites p (trace w) <= 1.

Definition cacheGrows (w w' : World) : Prop :=
  forall p, is_Some (rotateCache w !! p) -> is_Some (rotateCache w' !! p).

(** The relations of the rotation invariant: exactness of the cache is
    kept by a run that returns, and a run that fails has still written
    every rotation path at most once. *)
Definition onceR (w w' : World) : Prop :=
  (cacheExact w -> cacheExact w') /\ cacheGrows w w'.

Definition onceS (w w' : World) : Prop :=
  (cacheExact w -> rotatedAtMostOnce w') /\ cacheGrows w w'.

(** Every error that [m] returns carries a context message. *)
Definition failsWrapped {A} (m : M A) : Prop :=
  forall w e, (m w).1 = Fail e -> exists cause ctx, e = ErrWrap cause ctx.

(** The reconciler's backoff after [k] calls of [Duration]. *)
Definition backoffAt (k : nat) : Backoff.t :=
  {| Backoff.Min := Backoff.Min newBackoff;
     Backoff.Max := Backoff.Max newBackoff;
     Backoff.Factor := Backoff.Factor newBackoff;
     Backoff.Jitter := Backoff.Jitter newBackoff;
     Backoff.attempt := k |}.

(** The wait that the [k]-th call of [Duration] computes. *)
Definition waitAt (k : nat) : Z := Backoff.ForAttempt newBackoff k.

Definition retryError (path : string) (err : error) : error :=
  ErrWrap err ("error mounting " +:+ path +:+ " into vault after several attempts").

(** What [ensureMount] may send for engine [se] with mount config [c]:
    to an engine that is present only [TuneMount] with [c], to an absent
    one only [Mount] with [c] as its config and the options of [c] as its
    options; besides that it sleeps and logs. *)
Definition mountCall (se : secretEngine) (present : bool) (c : MountConfigInput)
    (e : Event) : Prop :=
  match e with
  | ETuneMount p c' => present = true /\ p = Path se /\ c' = c
  | EMount p mi =>
      present = false /\ p = Path se /\ mi_Config mi = c /\ mi_Options mi = mc_Options c
  | ESleep _ | ELog _ => True
  | _ => False
  end.

(** The path of a declared engine as [initSecretsEnginesConfig] leaves
    it. *)
Definition normalizedPath (se : secretEngine) : string :=
  Trim (if decide (Path se = EmptyString) then Type_ se else Path se) "/".

(** What pruning does: it logs and unmounts. *)
Definition pruneEvent (e : Event) : Prop :=
  match e with
  | EUnmount _ | ELog (LogRemoving _) => True
  | _ => False
  end.

(** The existence probe of lines 333-358 finds the sub-resource: the raw
    status check of the CA answers 200 for the option root/generate, the
    read of the config path answers a secret with data for any other. *)
Definition alreadyExists (srv : Server) (se : secretEngine)
    (configOption configPath : string) (h : list Event) : Prop :=
  if decide (configOption = "root/generate")
  then srvRawGet srv h ("/v1/" +:+ Path se +:+ "/ca") = inr 200%Z
  else exists d, srvRead srv h configPath = inr (Some {| Data := Some d |}).

(** The call that the probe makes. *)
Definition probeOf (se : secretEngine) (configOption configPath : string) : Event :=
  if decide (configOption = "root/generate")
  then ERawGet ("/v1/" +:+ Path se +:+ "/ca")
  else ERead configPath.

(** A write with a payload, or a log line. *)
Definition writeOrLog (e : Event) : Prop :=
  match e with
  | EWrite _ (Some _) | ELog _ => True
  | _ => False
  end.

(** [m] always comes back before its fuel is used up. *)
Definition returns {A} (m : M A) : Prop :=
  forall w, (m w).1 <> OutOfFuel.

(** [m] comes back, and with the backoff reset when it succeeds. *)
Definition resets (m : M Backoff.t) : Prop :=
  forall w, match (m w).1 with
            | Ok b => b = newBackoff
            | OutOfFuel => False
            | _ => True
            end.

(** ** Further vocabulary *)

(** The last byte of [s] is [c]. *)
Fixpoint lastIs (c : ascii) (s : string) : bool :=
  match s with
  | EmptyString => false
  | String a EmptyString => Ascii.eqb a c
  | String _ r => lastIs c r
  end.

(** Neither the first nor the last byte of [s] is a separator. *)
Definition edgeFree (s : string) : Prop :=
  String.prefix "/" s = false /\ lastIs "/" s = false.

(** The existence probe of lines 333-358 finds nothing: the status of the
    CA check is not 200 for the option root/generate; for any other option
    the read of the config path answers no secret, or a secret without
    data. *)
Definition notFound (srv : Server) (se : secretEngine)
    (configOption configPath : string) (h : list Event) : Prop :=
  if decide (configOption = "root/generate")
  then exists status,
         srvRawGet srv h ("/v1/" +:+ Path se +:+ "/ca") = inr status /\ status <> 200%Z
  else srvRead srv h configPath = inr None \/
       srvRead srv h configPath = inr (Some {| Data := None |}).

(** The item is due for its write in the world [w0]: it is not flagged, or
    its mount was created in this pass, and [w0] is [w]; or the probe made
    in [w] found nothing, and [w0] is [w] with the probe recorded. *)
Definition due (srv : Server) (se : secretEngine) (present flagged : bool)
    (configOption configPath : string) (w w0 : World) : Prop :=
  if flagged && present
  then notFound srv se configOption configPath (trace w) /\
       w0 = record (probeOf se configOption configPath) w
  else w0 = w.

(** The error of a failed probe. *)
Definition probeError (configOption configPath : string) (err : error) : error :=
  if decide (configOption = "root/generate")
  then ErrWrap err "failed to check pki CA"
  else ErrWrap err ("error reading configPath " +:+ configPath).

(** The probe is refused with [err]. *)
Definition probeRefused (srv : Server) (se : secretEngine)
    (configOption configPath : string) (h : list Event) (err : error) : Prop :=
  if decide (configOption = "root/generate")
  then srvRawGet srv h ("/v1/" +:+ Path se +:+ "/ca") = inl err
  else srvRead srv h configPath = inl err.


(** A log line and nothing else. *)
Definition logOnly (e : Event) : Prop :=
  match e with
  | ELog _ => True
  | _ => False
  end.

(** What the rotation step of an item may record: log lines, and a write
    without a payload to the rotation endpoint of a database connection or
    of the AWS root configuration. *)
Definition rotationEvent (se : secretEngine) (configOption : string) (e : Event) : Prop :=
  match e with
  | ELog _ => True
  | EWrite p None =>
      (Type_ se = "database" /\ configOption = "config" /\
       exists name, p = Path se +:+ "/rotate-root/" +:+ name) \/
      (Type_ se = "aws" /\ configOption = "config/root" /\
       p = Path se +:+ "/config/rotate-root")
  | _ => False
  end.

(** The context that both the rotation step and its caller put around
    an error. *)
Definition rotationContext (configPath : string) : string :=
  "error rotating credentials for '" +:+ configPath +:+ "' config in vault".

(** A name that the type assertion of line 400 accepts: none, nil, or a
    string. *)
Definition stringOrNil (name : option value) : bool :=
  match name with
  | None | Some VNil | Some (VStr _) => true
  | Some _ => false
  end.

(** The waits of the [Mount] loop, one for each failed attempt but the
    last, and of the [TuneMount] loop. *)
Definition mountWaits : list Z :=
  [500 * Backoff.Millisecond; 1 * Backoff.Second; 2 * Backoff.Second; 4 * Backoff.Second;
   8 * Backoff.Second; 16 * Backoff.Second; 32 * Backoff.Second]%Z.

Definition tuneWaits : list Z := [2 * Backoff.Second; 16 * Backoff.Second]%Z.

(** Whatever [m] records satisfies [P], however it ends. *)
Definition emits (P : Event -> Prop) {A} (m : M A) : Prop :=
  forall w, extends P w (m w).2.

(** The path [p] lies under the mount of [se]. *)
Definition under (se : secretEngine) (p : string) : Prop :=
  String.prefix (Path se +:+ "/") p = true.

(** What the pass may record for the declared engine [se]: listings of the
    mounts, [Mount] and [TuneMount] of its own path, the CA check of its own
    mount, reads and writes under its own mount, the write of a saved answer
    (wherever save_to points), sleeps and log lines. *)
Definition engineEvent (se : secretEngine) (e : Event) : Prop :=
  match e with
  | EListMounts | ESleep _ | ELog _ => True
  | EMount p _ | ETuneMount p _ => p = Path se
  | ERawGet p => p = "/v1/" +:+ Path se +:+ "/ca"
  | ERead p | EWrite p None => under se p
  | EWrite p (Some d) => under se p \/ exists data, d = NewData 0 data
  | EListAuth | EUnmount _ => False
  end.

(** What adding the declared engines may record: anything but a listing
    of the auth methods and an unmount. *)
Definition addEvent (e : Event) : Prop :=
  match e with
  | EListAuth | EUnmount _ => False
  | _ => True
  end.

(** Anything but a sleep. *)
Definition noSleep (e : Event) : Prop :=
  match e with
  | ESleep _ => False
  | _ => True
  end.

(** The waits of a retry loop that starts from the first wait. *)
Definition freshWaits (waits : list Z) : Prop :=
  waits `prefix_of` mountWaits \/ waits `prefix_of` tuneWaits.


(** Anything but a [Mount] and a [TuneMount]. *)
Definition noMounting (e : Event) : Prop :=
  match e with
  | EMount _ _ | ETuneMount _ _ => False
  | _ => True
  end.

(** The rotation endpoint of an item that reaches the rotation step of
    lines 393-405 with a name that is nil or a string: the pair of type and
    option is database/config or aws/config/root, and the path is the one
    that [rotateSecretEngineCredentials] computes for the name. *)
Definition itemRotatePath (se : secretEngine) (configOption : string)
    (name : option value) : option string :=
  if isRotatable (Type_ se) configOption
  then match name with
       | None | Some VNil => rotatePathOf (Type_ se) (Path se) EmptyString
       | Some (VStr s) => rotatePathOf (Type_ se) (Path se) s
       | Some _ => None
       end
  else None.

(** ** Further servers and declarations used in the examples *)

Module Cases.

Definition withWrite
    (answer : list Event -> string -> option (gmap string value) -> error + option Secret)
    (s : Server) : Server :=
  {| srvListAuth := srvListAuth s; srvListMounts := srvListMounts s;
     srvMount := srvMount s; srvTuneMount := srvTuneMount s;
     srvRead := srvRead s; srvWrite := answer;
     srvRawGet := srvRawGet s; srvUnmount := srvUnmount s |}.

(** The message with which Vault refuses to overwrite a GCP roleset. *)
Definition conflict : error :=
  ErrRemote "found bindings for roleset; delete them before reconfiguring".

(** The GCP engine is mounted, nothing is configured under it, and every
    write is refused with the conflict. *)
Definition conflicting : Server :=
  withWrite (fun _ _ _ => inl conflict)
            (Scenario.withMounts (fun _ => inr [("gcp/", Scenario.mount "gcp_7a")])
                                 Scenario.quiet).

(** Every write is refused. *)
Definition readOnly : Server := withWrite (fun _ _ _ => inl Scenario.refused) Scenario.quiet.

(** Every read is refused. *)
Definition unreadable : Server :=
  Scenario.withRead (fun _ _ => inl Scenario.refused) Scenario.quiet.

(** The database connection declared twice, both times with [rotate]. *)
Definition databaseTwice : externalConfig :=
  {| Secrets := [Scenario.engine "database" "database"
                   [("config", VList [VMap Scenario.postgres; VMap Scenario.postgres])] ∅];
     PurgeEnabled := false; PurgeExcludeSecrets := false |}.

End Cases.

(** ** The metrics exporter ([cmd/bank-vaults/metrics.go]) *)

Module Metrics.

(** The descriptors of the package: vault_sys_initialized,
    vault_sys_sealed, vault_sys_leader, vault_config_successful and
    vault_config_failed. *)
Inductive Desc : Type :=
| initializedDesc
| sealedDesc
| leaderDesc
| successfulConfigurationsDesc
| failedConfigurationsDesc.

(** The two methods of [internalVault.Vault] that the exporter calls, as
    what they answer. *)
Record Vault := {
  Sealed : error + bool;
  Leader : error + bool
}.

Record prometheusExporter := {
  Vault_ : Vault;
  Mode : string
}.

(** The package variables that count the applied configuration files. *)
Record Counts := {
  successfulConfigurationsCount : float;
  failedConfigurationsCount : float
}.

Definition bToF (b : bool) : float := if b then 1%float else 0%float.

(** What the exporter does, in order: it asks the Vault, logs an error,
    sends a descriptor or a gauge on the channel. *)
Inductive Step : Type :=
| AskSealed
| AskLeader
| LogError (msg : string)
| SendDesc (d : Desc)
| SendGauge (d : Desc) (v : float).

Definition Describe (e : prometheusExporter) : list Step :=
  if decide (Mode e = "unseal")
  then [SendDesc initializedDesc; SendDesc sealedDesc; SendDesc leaderDesc]
  else if decide (Mode e = "configure")
  then [SendDesc successfulConfigurationsDesc; SendDesc failedConfigurationsDesc]
  else [].

Definition Collect (e : prometheusExporter) (c : Counts) : list Step :=
  if decide (Mode e = "unseal")
  then
    AskSealed ::
    match Sealed (Vault_ e) with
    | inl err => [LogError ("error checking if vault is sealed: " +:+ errorString err)]
    | inr sealed =>
        AskLeader ::
        match Leader (Vault_ e) with
        | inl err => [LogError ("error checking if vault is leader: " +:+ errorString err)]
        | inr leader =>
            [SendGauge initializedDesc (bToF true);
             SendGauge sealedDesc (bToF sealed);
             SendGauge leaderDesc (bToF leader)]
        end
    end
  else if decide (Mode e = "configure")
  then [SendGauge successfulConfigurationsDesc (successfulConfigurationsCount c);
        SendGauge failedConfigurationsDesc (failedConfigurationsCount c)]
  else [].

(** The descriptors and the gauges that went out on the channel. *)
Definition described (steps : list Step) : list Desc :=
  omap (fun s => match s with SendDesc d => Some d | _ => None end) steps.

Definition gauges (steps : list Step) : list (Desc * float) :=
  omap (fun s => match s with SendGauge d v => Some (d, v) | _ => None end) steps.

Definition errorsLogged (steps : list Step) : nat :=
  length (omap (fun s => match s with LogError m => Some m | _ => None end) steps).

Definition asked (q : Step) (steps : list Step) : bool :=
  existsb (fun s => match s, q with
                    | AskSealed, AskSealed | AskLeader, AskLeader => true
                    | _, _ => false
                    end) steps.

End Metrics.

(** ** The GCS store ([pkg/kv/gcs]) *)

Module Gcs.

(** The errors of the store: an error of the storage client, with its text
    and with whether it is [storage.ErrObjectNotExist]; an error wrapped in a
    context; the not-found error of the [kv] package. *)
Inductive gerror : Type :=
| ErrClient (msg : string) (notExist : bool)
| Wrapped (e : gerror) (ctx : string)
| NotFoundError (msg : string).

(** [err.Error()] *)
Fixpoint Error (e : gerror) : string :=
  match e with
  | ErrClient msg _ => msg
  | Wrapped e ctx => ctx +:+ ": " +:+ Error e
  | NotFoundError msg => msg
  end.

(** [errors.Is(err, storage.ErrObjectNotExist)] *)
Fixpoint IsObjectNotExist (e : gerror) : bool :=
  match e with
  | ErrClient _ notExist => notExist
  | Wrapped e _ => IsObjectNotExist e
  | NotFoundError _ => false
  end.

(** The storage client, as what it answers for a bucket and an object
    name. *)
Record Client := {
  Write : string -> string -> list Byte.byte -> option gerror;
  CloseWriter : string -> string -> option gerror;
  NewReader : string -> string -> option gerror;
  ReadAll : string -> string -> gerror + list Byte.byte;
  CloseReader : string -> string -> option gerror
}.

Record gcsStorage := {
  cl : Client;
  bucket : string;
  prefix : string
}.

(** The calls of an operation, in order. *)
Inductive Call : Type :=
| CNewWriter (bucket name : string)
| CWrite (val : list Byte.byte)
| CCloseWriter
| CNewReader (bucket name : string)
| CReadAll
| CCloseReader
| CPrint (err : gerror).

(** [New]; the answer of [storage.NewClient] is given. *)
Definition New (client : gerror + Client) (bucket prefix : string) : gerror + gcsStorage :=
  match client with
  | inl err => inl (Wrapped err "error creating gcs client")
  | inr cl => inr {| cl := cl; bucket := bucket; prefix := prefix |}
  end.

Definition objectNameWithPrefix (prefix key : string) : string := prefix +:+ key.

(** A deferred close: the call, and the print of its error. *)
Definition deferred (close : Call) (answer : option gerror) : list Call :=
  close :: match answer with
           | Some err => [CPrint err]
           | None => []
           end.

(** [Set]: the error it returns and the calls it made. *)
Definition Set_ (g : gcsStorage) (key : string) (val : list Byte.byte)
  : option gerror * list Call :=
  let n := objectNameWithPrefix (prefix g) key in
  let closing := deferred CCloseWriter (CloseWriter (cl g) (bucket g) n) in
  match Write (cl g) (bucket g) n val with
  | Some err =>
      (Some (Wrapped err ("error writing key '" +:+ n +:+ "' to gcs bucket '"
                          +:+ bucket g +:+ "'")),
       CNewWriter (bucket g) n :: CWrite val :: closing)
  | None => (None, CNewWriter (bucket g) n :: CWrite val :: closing)
  end.

(** [Get]: what it returns and the calls it made. *)
Definition Get (g : gcsStorage) (key : string) : (gerror + list Byte.byte) * list Call :=
  let n := objectNameWithPrefix (prefix g) key in
  match NewReader (cl g) (bucket g) n with
  | Some err =>
      if IsObjectNotExist err
      then (inl (NotFoundError ("error getting object for key '" +:+ n +:+ "': "
                                +:+ Error err)),
            [CNewReader (bucket g) n])
      else (inl (Wrapped err ("error getting object for key '" +:+ n +:+ "'")),
            [CNewReader (bucket g) n])
  | None =>
      let closing := deferred CCloseReader (CloseReader (cl g) (bucket g) n) in
      match ReadAll (cl g) (bucket g) n with
      | inl err =>
          (inl (Wrapped err ("error reading object with key '" +:+ n +:+ "'")),
           CNewReader (bucket g) n :: CReadAll :: closing)
      | inr b => (inr b, CNewReader (bucket g) n :: CReadAll :: closing)
      end
  end.

(** How often a call occurs. *)
Definition closes (c : Call) (calls : list Call) : nat :=
  length (omap (fun x => match x, c with
                         | CCloseWriter, CCloseWriter | CCloseReader, CCloseReader => Some x
                         | _, _ => None
                         end) calls).

(** The client [c] with another answer to the close of a writer. *)
Definition withCloseWriter (answer : string -> string -> option gerror) (c : Client)
  : Client :=
  {| Write := Write c; CloseWriter := answer; NewReader := NewReader c;
     ReadAll := ReadAll c; CloseReader := CloseReader c |}.

End Gcs.

(** * Properties *)

(** ** Running the monad *)

Lemma bind_run {A B} (m : M A) (f : A -> M B) (w : World) :
  (m ≫= f) w =
  match m w with
  | (Ok a, w') => f a w'
  | (Fail e, w') => (Fail e, w')
  | (Panic msg, w') => (Panic msg, w')
  | (OutOfFuel, w') => (OutOfFuel, w')
  end.
Proof. reflexivity. Qed.

Ltac run :=
  repeat (progress (unfold mbind, M_bind, mret, M_ret, log, sleep, emit, call, throw,
                    panic, outOfFuel, readCache, markRotated, wrapErr, try; simpl)).

(** ** Rules of the relational Hoare logic *)

Section Obeys.

Variables R S : World -> World -> Prop.

#[local] Abbreviation obeys := (obeys R S).
#[local] Abbreviation accepts := (accepts R).

Hypothesis R_refl : forall w, R w w.
Hypothesis R_trans : forall a b c, R a b -> R b c -> R a c.
Hypothesis R_S : forall a b, R a b -> S a b.
Hypothesis RS_trans : forall a b c, R a b -> S b c -> S a c.

Lemma obeys_ret {A} (a : A) : obeys (mret a).
Proof. intros w. apply R_refl. Qed.

Lemma obeys_throw {A} (e : error) : obeys (throw (A := A) e).
Proof. intros w. apply R_S, R_refl. Qed.

Lemma obeys_panic {A} (msg : string) : obeys (panic (A := A) msg).
Proof. intros w. apply R_S, R_refl. Qed.

Lemma obeys_outOfFuel {A} : obeys (outOfFuel (A := A)).
Proof. intros w. apply R_S, R_refl. Qed.

Lemma obeys_readCache : obeys readCache.
Proof. intros w. apply R_refl. Qed.

Lemma obeys_bind {A B} (m : M A) (f : A -> M B) :
  obeys m -> (forall a, obeys (f a)) -> obeys (m ≫= f).
Proof.
  intros Hm Hf w. rewrite bind_run. specialize (Hm w).
  destruct (m w) as [[a| | |] w1]; try exact Hm.
  specialize (Hf a w1). destruct (f a w1) as [[b| | |] w2]; eauto.
Qed.

Lemma obeys_wrapErr {A} (m : M A) (wrap : error -> error) :
  obeys m -> obeys (m !> wrap).
Proof.
  intros Hm w. unfold wrapErr. specialize (Hm w).
  destruct (m w) as [[a| | |] w1]; exact Hm.
Qed.

Lemma obeys_forM {A} (l : list A) (f : A -> M unit) :
  (forall x, obeys (f x)) -> obeys (forM_ l f).
Proof.
  intros Hf. induction l as [|x l IH]; simpl.
  - apply obeys_ret.
  - apply obeys_bind; auto.
Qed.

Lemma obeys_traverse {A B} (f : A -> M B) (l : list A) :
  (forall x, obeys (f x)) -> obeys (traverse f l).
Proof.
  intros Hf. induction l as [|x l IH]; simpl.
  - apply obeys_ret.
  - apply obeys_bind; [auto|]. intros y.
    apply obeys_bind; [auto|]. intros ys. apply obeys_ret.
Qed.

Lemma obeys_emit (e : Event) : accepts e -> obeys (emit e).
Proof. intros He w. apply He. Qed.

Lemma obeys_call {A} (answer : list Event -> A) (e : Event) :
  accepts e -> obeys (call answer e).
Proof. intros He w. apply He. Qed.

(** A call whose error is inspected is a single recorded event. *)
Lemma obeys_try_call {A} (answer : list Event -> error + A) (e : Event) :
  accepts e ->
  obeys (try (r ← call answer e; match r with inl err => throw err | inr a => mret a end)).
Proof.
  intros He w. unfold try. rewrite bind_run. unfold call. simpl.
  destruct (answer (trace w)); simpl; apply He.
Qed.

(** *** Every step of the pass

    Given that the events of the pass may be recorded and that the
    rotation step obeys the relations, so does every function of the
    reconciler. *)

Variable srv : Server.
Variable lib : Decoders.
Variable cfg : externalConfig.

Hypothesis R_notWrite : forall e, notWrite e -> accepts e.
Hypothesis rotation_obeys :
  forall t p n c, obeys (rotateSecretEngineCredentials srv t p n c).

Ltac obey :=
  unfold log, sleep;
  repeat (first
    [ simple apply obeys_ret | simple apply obeys_throw | simple apply obeys_panic
    | simple apply obeys_outOfFuel | simple apply obeys_readCache
    | simple apply obeys_emit; apply R_notWrite; exact I
    | simple apply obeys_call; apply R_notWrite; exact I
    | simple apply rotation_obeys
    | simple apply obeys_wrapErr
    | simple apply obeys_bind; [|intros ?]
    | simple apply obeys_forM; intros ?
    | simple apply obeys_traverse; intros ?
    | match goal with |- obeys (match ?x with _ => _ end) => destruct x end ]).

Lemma replaceAccessor_obeys (input : string) (mounts : Mounts) :
  obeys (replaceAccessor input mounts).
Proof. induction mounts as [|[k v] rest IH]; simpl; obey. exact IH. Qed.

Lemma mountExists_obeys (path : string) : obeys (mountExists srv path).
Proof. unfold mountExists. obey. Qed.

Lemma getUnmanagedSecretsEngines_obeys (managed : list secretEngine) :
  obeys (getUnmanagedSecretsEngines srv managed).
Proof. unfold getUnmanagedSecretsEngines, getExistingSecretsEngines. obey. Qed.

Lemma mountRetry_obeys (fuel : nat) (path : string) (input : MountInput) (b : Backoff.t) :
  obeys (mountRetry srv fuel path input b).
Proof. revert b. induction fuel as [|fuel IH]; intros b; simpl; obey. apply IH. Qed.

Lemma tuneRetry_obeys (fuel : nat) (path : string) (c : MountConfigInput) (b : Backoff.t) :
  obeys (tuneRetry srv fuel path c b).
Proof. revert b. induction fuel as [|fuel IH]; intros b; simpl; obey. apply IH. Qed.

Lemma ensureMount_obeys (se : secretEngine) (present : bool) (c : MountConfigInput)
    (b : Backoff.t) :
  obeys (ensureMount srv se present c b).
Proof.
  unfold ensureMount. obey; [apply mountRetry_obeys | apply tuneRetry_obeys].
Qed.

Lemma decodeSubConfig_obeys (raw : value) (mounts : Mounts) :
  obeys (decodeSubConfig lib raw mounts).
Proof. unfold decodeSubConfig. obey. apply replaceAccessor_obeys. Qed.

Lemma shouldUpdate_obeys (se : secretEngine) (present createOnly rotate : bool)
    (configOption configPath : string) :
  obeys (shouldUpdate srv se present createOnly rotate configOption configPath).
Proof. unfold shouldUpdate, secretExists. obey. Qed.

Lemma NewData_controlFree (cas : Z) (data : option (gmap string value)) :
  controlFree (NewData cas data).
Proof.
  unfold controlFree, NewData.
  repeat split; rewrite !lookup_insert_ne by discriminate; apply lookup_empty.
Qed.

Lemma stripped_controlFree (d : gmap string value) : controlFree (stripControl d).
Proof.
  unfold controlFree, stripControl. repeat split.
  - rewrite !lookup_delete_ne by discriminate. apply lookup_delete_eq.
  - rewrite lookup_delete_ne by discriminate. apply lookup_delete_eq.
  - apply lookup_delete_eq.
Qed.

Lemma writeConfig_obeys (configPath saveTo : string) (d : gmap string value) :
  accepts (EWrite configPath (Some d)) ->
  (forall data, accepts (EWrite saveTo (Some (NewData 0 data)))) ->
  obeys (writeConfig srv configPath saveTo d).
Proof.
  intros Hd Hs. unfold writeConfig. simple apply obeys_bind.
  - unfold writeWithWarningCheck. apply obeys_try_call. exact Hd.
  - intros r. unfold writeWithWarningCheck. obey. apply obeys_call. apply Hs.
Qed.

Lemma rotateIfNeeded_obeys (se : secretEngine) (present rotate : bool)
    (configOption configPath : string) (name : option value) :
  obeys (rotateIfNeeded srv se present rotate configOption configPath name).
Proof. unfold rotateIfNeeded. obey. Qed.

Lemma applyAt_obeys (se : secretEngine) (present : bool) (configOption : string)
    (name : option value) (configPath : string) (d : gmap string value) :
  accepts (EWrite configPath (Some (stripControl d))) ->
  (forall data, accepts (EWrite (Cast.ToString (d !! "save_to")) (Some (NewData 0 data)))) ->
  obeys (applyAt srv se present configOption name configPath d).
Proof.
  intros Hd Hs. unfold applyAt. simple apply obeys_bind; [apply shouldUpdate_obeys|].
  intros update. simple apply obeys_bind.
  - destruct update; [|apply obeys_ret]. apply writeConfig_obeys; [exact Hd|].
    rewrite !lookup_delete_ne by discriminate. exact Hs.
  - intros goOn. destruct goOn; [apply rotateIfNeeded_obeys | apply obeys_ret].
Qed.

Hypothesis R_plain : forall e, plain e -> accepts e.

Lemma applyItem_obeys (se : secretEngine) (present : bool) (configOption : string)
    (d : gmap string value) :
  obeys (applyItem srv lib se present configOption d).
Proof.
  unfold applyItem. obey.
  apply applyAt_obeys; intros; apply R_plain;
    [apply stripped_controlFree | apply NewData_controlFree].
Qed.

Lemma processItem_obeys (se : secretEngine) (present : bool) (configOption : string)
    (mounts : Mounts) (raw : value) :
  obeys (processItem srv lib se present configOption mounts raw).
Proof.
  unfold processItem. simple apply obeys_bind;
    [apply decodeSubConfig_obeys | intros d; apply applyItem_obeys].
Qed.

Lemma processOption_obeys (se : secretEngine) (present : bool) (mounts : Mounts)
    (entry : string * value) :
  obeys (processOption srv lib se present mounts entry).
Proof. unfold processOption. obey. apply processItem_obeys. Qed.

Lemma processEngine_obeys (se : secretEngine) (mounts : Mounts) (b : Backoff.t) :
  obeys (processEngine srv lib se mounts b).
Proof.
  unfold processEngine. simple apply obeys_bind; [apply mountExists_obeys|].
  intros present. destruct (getMountConfigInput lib se); [apply obeys_throw|].
  simple apply obeys_bind; [apply ensureMount_obeys|]. intros b'.
  simple apply obeys_bind; [|intros ?; apply obeys_ret].
  apply obeys_forM. intros entry. apply processOption_obeys.
Qed.

Lemma addEngines_obeys (managed : list secretEngine) (mounts : Mounts) (b : Backoff.t) :
  obeys (addEngines srv lib managed mounts b).
Proof.
  revert b. induction managed as [|se rest IH]; intros b; simpl.
  - apply obeys_ret.
  - simple apply obeys_bind; [apply processEngine_obeys | intros b'; apply IH].
Qed.

Lemma removeUnmanagedSecretsEngines_obeys (unmanaged : gmap string bool) :
  obeys (removeUnmanagedSecretsEngines srv cfg unmanaged).
Proof. unfold removeUnmanagedSecretsEngines, unmountOne. obey. Qed.

(** The whole pass obeys the relations. *)
Lemma configureSecretsEngines_obeys : obeys (configureSecretsEngines srv lib cfg).
Proof.
  unfold configureSecretsEngines, addManagedSecretsEngines.
  simple apply obeys_bind; [obey|]. intros [err|auths]; [apply obeys_throw|].
  simple apply obeys_bind; [apply getUnmanagedSecretsEngines_obeys|]. intros unmanaged.
  simple apply obeys_bind.
  - apply obeys_wrapErr. simple apply obeys_bind; [apply addEngines_obeys|].
    intros ?. apply obeys_ret.
  - intros ?. apply obeys_wrapErr, removeUnmanagedSecretsEngines_obeys.
Qed.

End Obeys.

(** ** No control key reaches the server *)

Section ControlKeys.

Variable srv : Server.
Variable lib : Decoders.
Variable cfg : externalConfig.

Lemma extends_refl (P : Event -> Prop) (w : World) : extends P w w.
Proof. exists []. split; [symmetry; apply app_nil_r | constructor]. Qed.

Lemma extends_trans (P : Event -> Prop) (a b c : World) :
  extends P a b -> extends P b c -> extends P a c.
Proof.
  intros (e1 & H1 & F1) (e2 & H2 & F2). exists (e1 ++ e2). split.
  - rewrite H2, H1. symmetry. apply app_assoc.
  - apply Forall_app. split; assumption.
Qed.

Lemma extends_accepts (P : Event -> Prop) (e : Event) : P e -> accepts (extends P) e.
Proof. intros He w. exists [e]. split; [reflexivity | repeat constructor; exact He]. Qed.

Lemma plain_clean (e : Event) : plain e -> clean e.
Proof. destruct e as [| | | | |p [d|]| | | |]; simpl; tauto. Qed.

Lemma extends_impl (P Q : Event -> Prop) (w w' : World) :
  (forall e, P e -> Q e) -> extends P w w' -> extends Q w w'.
Proof.
  intros HPQ (evs & Htr & Hev). exists evs. split; [exact Htr|].
  eapply Forall_impl; [exact Hev | exact HPQ].
Qed.

Lemma obeys_extends_impl (P Q : Event -> Prop) {A} (m : M A) :
  (forall e, P e -> Q e) ->
  obeys (extends P) (extends P) m -> obeys (extends Q) (extends Q) m.
Proof.
  intros HPQ H w. specialize (H w).
  destruct (m w) as [[a| | |] w']; eapply extends_impl; eauto.
Qed.

Lemma obeys_snd (R : World -> World -> Prop) {A} (m : M A) (w : World) :
  obeys R R m -> R w (m w).2.
Proof. intros H. specialize (H w). destruct (m w) as [[a| | |] w']; exact H. Qed.

(** The rotation step logs and writes without a payload. *)
Lemma rotation_noPayload (t p n c : string) :
  obeys (extends noPayload) (extends noPayload)
        (rotateSecretEngineCredentials srv t p n c).
Proof.
  intros w. unfold rotateSecretEngineCredentials, writeWithWarningCheck.
  destruct (rotatePathOf t p n) as [rp|]; [|apply extends_refl].
  run. destruct (rotateCache w !! rp); simpl; [|destruct (srvWrite srv _ rp None); simpl];
    (eexists; split;
     [unfold record; simpl; rewrite <- ?app_assoc; reflexivity | simpl; repeat constructor]).
Qed.

Lemma item_writes (se : secretEngine) (present : bool) (configOption : string)
    (name : option value) (configPath : string) (d : gmap string value) :
  let P := itemWrite configPath (Cast.ToString (d !! "save_to")) d in
  obeys (extends P) (extends P) (applyAt srv se present configOption name configPath d).
Proof.
  intros P. apply applyAt_obeys.
  - apply extends_refl.
  - apply extends_trans.
  - auto.
  - apply extends_trans.
  - intros e He. apply extends_accepts. destruct e; try exact I; destruct He.
  - intros t p n c. apply (obeys_extends_impl noPayload); [|apply rotation_noPayload].
    intros [| | | | |q [d'|]| | | |]; simpl; tauto.
  - apply extends_accepts. simpl. left. split; reflexivity.
  - intros data. apply extends_accepts. simpl. right. split; [reflexivity|]. exists data.
    reflexivity.
Qed.

Lemma pass_clean : obeys (extends clean) (extends clean) (configureSecretsEngines srv lib cfg).
Proof.
  apply configureSecretsEngines_obeys.
  - apply extends_refl.
  - apply extends_trans.
  - auto.
  - apply extends_trans.
  - intros e He. apply extends_accepts. destruct e; try exact I; destruct He.
  - intros t p n c. apply (obeys_extends_impl noPayload); [|apply rotation_noPayload].
    intros [| | | | |q [d'|]| | | |]; simpl; tauto.
  - intros e He. apply extends_accepts, plain_clean, He.
Qed.

Lemma stripControl_lookup (d : gmap string value) (k : string) :
  k <> "create_only" -> k <> "rotate" -> k <> "save_to" -> stripControl d !! k = d !! k.
Proof.
  intros H1 H2 H3. unfold stripControl. rewrite !lookup_delete_ne by congruence.
  reflexivity.
Qed.

(** C7. For every configuration item the keys create_only, rotate and
    save_to are taken out of the data before anything is sent: the only
    payloads an item writes are its data without the three keys, at its
    config path, and the wrapped result of that write, at its save_to path;
    neither contains any of the three keys, and so no write of a whole pass
    carries one of them. *)
Theorem control_keys_never_forwarded (w : World) :
  (forall se present configOption data,
     let d := stringKeyed <$> data in
     extends (itemWrite (configPathOf lib (Path se) configOption (data !! "name"))
                        (Cast.ToString (d !! "save_to")) d)
             w (applyItem srv lib se present configOption data w).2) /\
  (forall d, controlFree (stripControl d) /\
             forall k, k <> "create_only" -> k <> "rotate" -> k <> "save_to" ->
                       stripControl d !! k = d !! k) /\
  (forall data, controlFree (NewData 0 data)) /\
  extends clean w (configureSecretsEngines srv lib cfg w).2.
Proof.
  split; [|split; [|split]].
  - intros se present configOption data d. unfold applyItem.
    destruct (_ && _); [apply extends_refl|].
    apply obeys_snd, item_writes.
  - intros d. split; [apply stripped_controlFree|].
    intros k. apply stripControl_lookup.
  - intros data. apply NewData_controlFree.
  - apply obeys_snd, pass_clean.
Qed.

End ControlKeys.

(** ** Rotation happens once per path *)

Section Rotation.

Variable srv : Server.
Variable lib : Decoders.
Variable cfg : externalConfig.

Lemma rotationWrites_snoc (p : string) (tr : list Event) (e : Event) :
  rotationWrites p (tr ++ [e]) =
  rotationWrites p tr + (if isRotationWrite p e then 1 else 0).
Proof.
  unfold rotationWrites. rewrite filter_app, length_app. f_equal.
  rewrite filter_cons, filter_nil. destruct (isRotationWrite p e); simpl.
  - destruct (decide (true = true)); [reflexivity | congruence].
  - destruct (decide (false = true)); [congruence | reflexivity].
Qed.

Lemma cacheExact_atMostOnce (w : World) : cacheExact w -> rotatedAtMostOnce w.
Proof. intros H p. rewrite (H p). destruct (rotateCache w !! p); lia. Qed.

Lemma onceR_refl (w : World) : onceR w w.
Proof. split; [tauto | intros p Hp; exact Hp]. Qed.

Lemma onceR_trans (a b c : World) : onceR a b -> onceR b c -> onceR a c.
Proof. intros [H1 G1] [H2 G2]. split; [tauto | intros p Hp; apply G2, G1, Hp]. Qed.

Lemma onceR_onceS (a b : World) : onceR a b -> onceS a b.
Proof. intros [H G]. split; [|exact G]. intros Ha. apply cacheExact_atMostOnce, H, Ha. Qed.

Lemma onceRS_trans (a b c : World) : onceR a b -> onceS b c -> onceS a c.
Proof. intros [H1 G1] [H2 G2]. split; [tauto | intros p Hp; apply G2, G1, Hp]. Qed.

(** Recording anything but a rotation write keeps the invariant. *)
Lemma onceR_record (e : Event) : noRotation e -> accepts onceR e.
Proof.
  intros He w. split; [|intros p Hp; exact Hp].
  intros Hw p. simpl. rewrite rotationWrites_snoc, (Hw p).
  replace (isRotationWrite p e) with false; [lia|].
  destruct e as [| | | | |q [d|]| | | |]; simpl in *; try reflexivity. destruct He.
Qed.

Lemma rotation_once (t p n c : string) :
  obeys onceR onceS (rotateSecretEngineCredentials srv t p n c).
Proof.
  intros w. unfold rotateSecretEngineCredentials, writeWithWarningCheck.
  destruct (rotatePathOf t p n) as [rp|]; [|apply onceR_onceS, onceR_refl].
  run. destruct (rotateCache w !! rp) eqn:Hc; simpl.
  - apply onceR_record. exact I.
  - destruct (srvWrite srv _ rp None); simpl.
    + split; [|intros q Hq; exact Hq]. intros Hw q. simpl.
      rewrite !rotationWrites_snoc. simpl. specialize (Hw q).
      destruct (bool_decide (rp = q)) eqn:Hq.
      * apply bool_decide_eq_true in Hq. subst q. rewrite Hc in Hw. lia.
      * destruct (rotateCache w !! q); lia.
    + split.
      * intros Hw q. simpl. rewrite !rotationWrites_snoc. simpl. specialize (Hw q).
        destruct (bool_decide (rp = q)) eqn:Hq.
        -- apply bool_decide_eq_true in Hq. subst q.
           rewrite lookup_insert_eq. rewrite Hc in Hw. lia.
        -- apply bool_decide_eq_false in Hq. rewrite lookup_insert_ne by exact Hq.
           destruct (rotateCache w !! q); lia.
      * intros q Hq. simpl. destruct (decide (rp = q)) as [->|Hne].
        -- rewrite lookup_insert_eq. eauto.
        -- rewrite lookup_insert_ne by exact Hne. exact Hq.
Qed.

Lemma pass_once : obeys onceR onceS (configureSecretsEngines srv lib cfg).
Proof.
  apply configureSecretsEngines_obeys.
  - apply onceR_refl.
  - apply onceR_trans.
  - apply onceR_onceS.
  - apply onceRS_trans.
  - intros e He. apply onceR_record. destruct e; try exact I; destruct He.
  - apply rotation_once.
  - intros e He. apply onceR_record.
    destruct e as [| | | | |q [d|]| | | |]; try exact I. destruct He.
Qed.

End Rotation.

(** ** The name of an item *)

Section Naming.

Variable srv : Server.
Variable lib : Decoders.

Lemma failsWrapped_bind {A B} (m : M A) (f : A -> M B) :
  failsWrapped m -> (forall a, failsWrapped (f a)) -> failsWrapped (m ≫= f).
Proof.
  intros Hm Hf w e. rewrite bind_run. specialize (Hm w).
  destruct (m w) as [[a| | |] w1]; simpl in *; try discriminate.
  - apply Hf.
  - intros H. injection H as <-. apply Hm. reflexivity.
Qed.

Lemma failsWrapped_ret {A} (a : A) : failsWrapped (mret a).
Proof. intros w e H. discriminate H. Qed.

Lemma failsWrapped_panic {A} (msg : string) : failsWrapped (panic (A := A) msg).
Proof. intros w e H. discriminate H. Qed.

Lemma failsWrapped_emit (ev : Event) : failsWrapped (emit ev).
Proof. intros w e H. discriminate H. Qed.

Lemma failsWrapped_call {A} (answer : list Event -> A) (ev : Event) :
  failsWrapped (call answer ev).
Proof. intros w e H. discriminate H. Qed.

Lemma failsWrapped_try {A} (m : M A) : failsWrapped (try m).
Proof.
  intros w e. unfold try. destruct (m w) as [[a| | |] w1]; simpl; discriminate.
Qed.

Lemma failsWrapped_throw {A} (cause : error) (ctx : string) :
  failsWrapped (throw (A := A) (ErrWrap cause ctx)).
Proof. intros w e H. injection H as <-. eauto. Qed.

Lemma failsWrapped_wrapErr {A} (m : M A) (ctx : string) :
  failsWrapped (m !> (fun err => ErrWrap err ctx)).
Proof.
  intros w e. unfold wrapErr. destruct (m w) as [[a| | |] w1]; simpl; try discriminate.
  intros H. injection H as <-. eauto.
Qed.

Ltac wrapped :=
  unfold log, sleep;
  repeat (first
    [ simple apply failsWrapped_ret | simple apply failsWrapped_panic
    | simple apply failsWrapped_emit | simple apply failsWrapped_call
    | simple apply failsWrapped_try | simple apply failsWrapped_throw
    | simple apply failsWrapped_wrapErr
    | simple apply failsWrapped_bind; [|intros ?]
    | match goal with |- failsWrapped (match ?x with _ => _ end) => destruct x end ]).

Lemma applyAt_failsWrapped (se : secretEngine) (present : bool) (configOption : string)
    (name : option value) (configPath : string) (d : gmap string value) :
  failsWrapped (applyAt srv se present configOption name configPath d).
Proof.
  unfold applyAt, shouldUpdate, secretExists, writeConfig, rotateIfNeeded. wrapped.
Qed.

Lemma configNeedsNoName_spec (t o : string) :
  configNeedsNoName t o = true <->
  (o = "config" /\ In t ["ad"; "alicloud"; "azure"; "gcp"; "gcpkms"; "kv"]) \/
  (t = "aws" /\ o = "config/root") \/
  (t = "transit" /\ o = "cache-config").
Proof.
  unfold configNeedsNoName. destruct (decide (o = "config")) as [->|Ho].
  - rewrite bool_decide_eq_true. split.
    + intros [b Hb]. left. split; [reflexivity|].
      unfold secretEnginesWithoutNameConfig in Hb.
      apply elem_of_list_to_map_2 in Hb. apply list_elem_of_In in Hb.
      simpl in Hb. simpl.
      repeat (destruct Hb as [Hb|Hb]; [injection Hb as <- _; tauto|]). destruct Hb.
    + intros [[_ Hin]|[[_ H]|[_ H]]]; try discriminate H.
      simpl in Hin.
      repeat (destruct Hin as [<-|Hin]; [exists true; reflexivity|]). destruct Hin.
  - destruct (decide (t = "aws" /\ o = "config/root")) as [[-> ->]|H1].
    { split; [tauto | reflexivity]. }
    destruct (decide (t = "transit" /\ o = "cache-config")) as [[-> ->]|H2].
    { split; [tauto | reflexivity]. }
    split; [discriminate | tauto].
Qed.

Lemma applyAt_not_namingError (se se' : secretEngine) (present : bool)
    (configOption o' : string) (name : option value) (configPath : string)
    (d : gmap string value) (w : World) :
  (applyAt srv se present configOption name configPath d w).1 <> Fail (namingError se' o').
Proof.
  intros H. apply applyAt_failsWrapped in H. destruct H as (cause & ctx & H).
  discriminate H.
Qed.

(** C8. An item whose data lacks a name makes the pass fail with the
    missing-name error if and only if the pair of engine type and config
    option is not exempt (and then before any call is made for the item);
    the exempt pairs are exactly: option config with a type among ad,
    alicloud, azure, gcp, gcpkms, kv; type aws with option config/root;
    type transit with option cache-config. *)
Theorem missing_name_fatal_iff_not_exempt
    (se : secretEngine) (present : bool) (configOption : string)
    (data : gmap string value) (w : World) :
  data !! "name" = None ->
  ((applyItem srv lib se present configOption data w).1
     = Fail (namingError se configOption)
   <-> configNeedsNoName (Type_ se) configOption = false) /\
  (configNeedsNoName (Type_ se) configOption = false ->
   applyItem srv lib se present configOption data w
     = (Fail (namingError se configOption), w)) /\
  (configNeedsNoName (Type_ se) configOption = true <->
   (configOption = "config" /\
    In (Type_ se) ["ad"; "alicloud"; "azure"; "gcp"; "gcpkms"; "kv"]) \/
   (Type_ se = "aws" /\ configOption = "config/root") \/
   (Type_ se = "transit" /\ configOption = "cache-config")).
Proof.
  intros Hname. unfold applyItem. rewrite Hname.
  replace (bool_decide (is_Some (@None value))) with false
    by (symmetry; apply bool_decide_eq_false; intros [x Hx]; discriminate Hx).
  split; [|split].
  - destruct (configNeedsNoName (Type_ se) configOption); simpl.
    + split; [|discriminate]. intros H. exfalso. revert H. apply applyAt_not_namingError.
    + split; reflexivity.
  - intros ->. reflexivity.
  - apply configNeedsNoName_spec.
Qed.

(** C10. An item whose data maps name to nil never gets the missing-name
    error, whatever the engine type and the config option: it is applied
    at the config path mountPath/configOption, without a name segment, as
    an exempt item without a name is. *)
Theorem nil_name_is_not_missing
    (se : secretEngine) (present : bool) (configOption : string)
    (data : gmap string value) (w : World) :
  data !! "name" = Some VNil ->
  applyItem srv lib se present configOption data w
    = applyAt srv se present configOption None
              (Path se +:+ "/" +:+ configOption) (stringKeyed <$> data) w /\
  (applyItem srv lib se present configOption data w).1
    <> Fail (namingError se configOption) /\
  (forall data', data' !! "name" = None ->
     configNeedsNoName (Type_ se) configOption = true ->
     applyItem srv lib se present configOption data' w
       = applyAt srv se present configOption None
                 (Path se +:+ "/" +:+ configOption) (stringKeyed <$> data') w).
Proof.
  intros Hname. split; [|split].
  - unfold applyItem. rewrite Hname.
    replace (bool_decide (is_Some (Some VNil))) with true
      by (symmetry; apply bool_decide_eq_true; eauto).
    reflexivity.
  - unfold applyItem. rewrite Hname.
    replace (bool_decide (is_Some (Some VNil))) with true
      by (symmetry; apply bool_decide_eq_true; eauto).
    simpl. apply applyAt_not_namingError.
  - intros data' Hnone Hex. unfold applyItem. rewrite Hnone, Hex.
    rewrite andb_false_r. reflexivity.
Qed.

End Naming.

(** ** Accessor templates *)

Section Accessors.

Variable srv : Server.

Lemma replaceFrom_absent (old new s : string) :
  Contains s old = false -> replaceFrom old new 0 s = s.
Proof.
  induction s as [|c s IH]; simpl; [reflexivity|].
  destruct old as [|o old']; [discriminate|].
  simpl. destruct (Ascii.eqb o c && String.prefix old' s)%bool eqn:Hp.
  - destruct (Ascii.ascii_dec o c) as [->|Hne].
    + rewrite Ascii.eqb_refl in Hp. simpl in Hp. rewrite Hp.
      destruct (Ascii.ascii_dec c c); [discriminate | contradiction].
    + apply Ascii.eqb_neq in Hne. rewrite Hne in Hp. discriminate Hp.
  - destruct (Ascii.ascii_dec o c) as [->|Hne].
    + rewrite Ascii.eqb_refl in Hp. simpl in Hp. rewrite Hp.
      destruct (Ascii.ascii_dec c c) as [_|]; [|contradiction].
      intros H. f_equal. apply IH. exact H.
    + destruct (Ascii.ascii_dec o c) as [|_]; [contradiction|].
      intros H. f_equal. apply IH. exact H.
Qed.

(** A string without the pattern is left as it is. *)
Lemma ReplaceAll_absent (s old new : string) :
  old <> EmptyString -> Contains s old = false -> ReplaceAll s old new = s.
Proof.
  intros Hne H. unfold ReplaceAll. destruct old; [contradiction|].
  apply replaceFrom_absent, H.
Qed.

(** C9, as the code has it.  [replaceAccessor] visits the entries of the
    accessor map in the order of the range loop and stops at the first
    entry whose token (the marker followed by the entry's path without
    trailing separators) occurs in the string: all occurrences of that one
    token are replaced by that entry's accessor, the substitution is logged,
    and nothing else in the string is touched, tokens of later entries
    included.  When the token of no entry occurs, the string comes back as
    it is and nothing is logged. *)
Theorem replaceAccessor_first_match
    (input : string) (pre post : Mounts) (k : string) (v : MountOutput) (w : World) :
  Forall (fun kv => Contains input (accessorToken kv.1) = false) pre ->
  replaceAccessor input pre w = (Ok input, w) /\
  (Contains input (accessorToken k) = true ->
   replaceAccessor input (pre ++ (k, v) :: post) w =
   (Ok (ReplaceAll input (accessorToken k) (Accessor v)),
    record (ELog (LogAccessorReplaced input (Accessor v))) w)).
Proof.
  intros Hpre. induction Hpre as [|[k' v'] pre Hk' Hpre IH]; simpl.
  - split; [reflexivity|]. intros ->. reflexivity.
  - simpl in Hk'. rewrite Hk'. exact IH.
Qed.

(** Scenario D of the specification. *)
Example accessor_scenario_D :
  (replaceAccessor "__accessor__github-mount"
                   [("github-mount", Scenario.mount "acc-123")] Scenario.start).1
  = Ok "acc-123".
Proof. reflexivity. Qed.

End Accessors.

Lemma replaceAccessor_first_match_witness :
  replaceAccessor "{{identity.entity.aliases.__accessor__ldap.name}}"
                  Scenario.auths Scenario.start
  = (Ok "{{identity.entity.aliases.auth_ldap_2c3d.name}}",
     record (ELog (LogAccessorReplaced "{{identity.entity.aliases.__accessor__ldap.name}}"
                                       "auth_ldap_2c3d")) Scenario.start).
Proof.
  apply (replaceAccessor_first_match
           "{{identity.entity.aliases.__accessor__ldap.name}}"
           [("github/", Scenario.mount "auth_github_0a1b")] []
           "ldap/" (Scenario.mount "auth_ldap_2c3d") Scenario.start).
  - repeat constructor.
  - reflexivity.
Defined.

(** A string with the tokens of two entries: the token of the entry
    visited first is replaced, the token of the other entry occurs in the
    result as it did in the input. *)
Lemma replaceAccessor_leaves_second_token :
  let input := "__accessor__github,__accessor__ldap" in
  let output := "auth_github_0a1b,__accessor__ldap" in
  Contains input (accessorToken "ldap/") = true /\
  In ("ldap/", Scenario.mount "auth_ldap_2c3d") Scenario.auths /\
  (replaceAccessor input Scenario.auths Scenario.start).1 = Ok output /\
  Contains output (accessorToken "ldap/") = true /\
  output <> ReplaceAll output (accessorToken "ldap/") "auth_ldap_2c3d".
Proof.
  simpl. repeat split; try reflexivity.
  - right. left. reflexivity.
  - discriminate.
Qed.

(** ** The retry loops *)

Section Retry.

Variable srv : Server.

Import Backoff.

Lemma waitAt_values :
  map waitAt (seq 0 9) =
  [500 * Millisecond; 1 * Second; 2 * Second; 4 * Second; 8 * Second;
   16 * Second; 32 * Second; 60 * Second; 60 * Second]%Z.
Proof. vm_compute. reflexivity. Qed.

Lemma Duration_at (k : nat) : Duration (backoffAt k) = (waitAt k, backoffAt (S k)).
Proof. reflexivity. Qed.

(** One failed attempt of the [Mount] loop. *)
Lemma mountRetry_failed (fuel : nat) (path : string) (input : MountInput) (k : nat)
    (w : World) (e : error) :
  srvMount srv (trace w) path input = Some e ->
  mountRetry srv (S fuel) path input (backoffAt k) w =
  let w1 := record (ELog (LogMountRetry path (errorString e) (waitAt k)))
                   (record (EMount path input) w) in
  if decide (waitAt k = 60 * Second)%Z
  then (Fail (retryError path e), w1)
  else mountRetry srv fuel path input (backoffAt (S k)) (record (ESleep (waitAt k)) w1).
Proof.
  intros H. cbn [mountRetry]. rewrite bind_run. unfold call at 1. cbn beta iota.
  rewrite H, Duration_at. rewrite bind_run. unfold log at 1, emit at 1. cbn beta iota.
  change (Max (backoffAt (S k))) with (60 * Second)%Z.
  destruct (decide (waitAt k = 60 * Second)%Z); [reflexivity|].
  rewrite bind_run. reflexivity.
Qed.

Lemma mountRetry_succeeded (fuel : nat) (path : string) (input : MountInput)
    (b : Backoff.t) (w : World) :
  srvMount srv (trace w) path input = None ->
  mountRetry srv (S fuel) path input b w = (Ok (Reset b), record (EMount path input) w).
Proof.
  intros H. cbn [mountRetry]. rewrite bind_run. unfold call at 1. cbn beta iota.
  rewrite H. reflexivity.
Qed.

(** One failed attempt of the [TuneMount] loop: three calls of
    [Duration]. *)
Lemma tuneRetry_failed (fuel : nat) (path : string) (c : MountConfigInput) (k : nat)
    (w : World) (e : error) :
  srvTuneMount srv (trace w) path c = Some e ->
  tuneRetry srv (S fuel) path c (backoffAt k) w =
  let w1 := record (ELog (LogTuneRetry path (errorString e) (waitAt k)))
                   (record (ETuneMount path c) w) in
  if decide (waitAt (S k) = 60 * Second)%Z
  then (Fail (retryError path e), w1)
  else tuneRetry srv fuel path c (backoffAt (S (S (S k))))
                 (record (ESleep (waitAt (S (S k)))) w1).
Proof.
  intros H. cbn [tuneRetry]. rewrite bind_run. unfold call at 1. cbn beta iota.
  rewrite H, Duration_at. rewrite bind_run. unfold log at 1, emit at 1. cbn beta iota.
  rewrite !Duration_at.
  change (Max (backoffAt (S (S k)))) with (60 * Second)%Z.
  destruct (decide (waitAt (S k) = 60 * Second)%Z); [reflexivity|].
  rewrite bind_run. reflexivity.
Qed.

Lemma tuneRetry_succeeded (fuel : nat) (path : string) (c : MountConfigInput)
    (b : Backoff.t) (w : World) :
  srvTuneMount srv (trace w) path c = None ->
  tuneRetry srv (S fuel) path c b w = (Ok (Reset b), record (ETuneMount path c) w).
Proof.
  intros H. cbn [tuneRetry]. rewrite bind_run. unfold call at 1. cbn beta iota.
  rewrite H. reflexivity.
Qed.

Lemma sleepsOf_record (e : Event) (w : World) :
  sleepsOf (trace (record e w)) =
  sleepsOf (trace w) ++ match e with ESleep d => [d] | _ => [] end.
Proof. unfold sleepsOf, record. simpl. rewrite omap_app. destruct e; reflexivity. Qed.

Lemma mountedPaths_record (e : Event) (w : World) :
  mountedPaths (trace (record e w)) =
  mountedPaths (trace w) ++ match e with EMount p _ => [p] | _ => [] end.
Proof. unfold mountedPaths, record. simpl. rewrite omap_app. destruct e; reflexivity. Qed.

Lemma tunedPaths_record (e : Event) (w : World) :
  tunedPaths (trace (record e w)) =
  tunedPaths (trace w) ++ match e with ETuneMount p _ => [p] | _ => [] end.
Proof. unfold tunedPaths, record. simpl. rewrite omap_app. destruct e; reflexivity. Qed.

Ltac waits :=
  match goal with
  | |- context [decide (waitAt ?k = ?d)] =>
      let Heq := fresh "Heq" in
      let Hne := fresh "Hne" in
      destruct (decide (waitAt k = d)) as [Heq|Hne];
      [try (vm_compute in Heq; discriminate Heq)
      |try (exfalso; apply Hne; vm_compute; reflexivity); clear Hne]
  end.

Lemma mountRetry_refused (path : string) (input : MountInput) (e : error) (w : World) :
  (forall h, srvMount srv h path input = Some e) ->
  let r := mountRetry srv retryFuel path input newBackoff w in
  r.1 = Fail (retryError path e) /\
  sleepsOf (trace r.2) =
    sleepsOf (trace w) ++ [500 * Millisecond; 1 * Second; 2 * Second; 4 * Second;
                           8 * Second; 16 * Second; 32 * Second]%Z /\
  mountedPaths (trace r.2) = mountedPaths (trace w) ++ replicate 8 path.
Proof.
  intros H r. subst r. change newBackoff with (backoffAt 0). unfold retryFuel.
  do 8 (rewrite mountRetry_failed with (e := e) by apply H; cbn zeta; waits).
  cbn [fst snd]. split; [reflexivity|].
  rewrite !sleepsOf_record, !mountedPaths_record, <- !app_assoc. simpl.
  rewrite ?app_nil_r. split; reflexivity.
Qed.

Lemma tuneRetry_refused (path : string) (c : MountConfigInput) (e : error) (w : World) :
  (forall h, srvTuneMount srv h path c = Some e) ->
  let r := tuneRetry srv retryFuel path c newBackoff w in
  r.1 = Fail (retryError path e) /\
  sleepsOf (trace r.2) = sleepsOf (trace w) ++ [2 * Second; 16 * Second]%Z /\
  tunedPaths (trace r.2) = tunedPaths (trace w) ++ replicate 3 path.
Proof.
  intros H r. subst r. change newBackoff with (backoffAt 0). unfold retryFuel.
  do 3 (rewrite tuneRetry_failed with (e := e) by apply H; cbn zeta; waits).
  cbn [fst snd]. split; [reflexivity|].
  rewrite !sleepsOf_record, !tunedPaths_record, <- !app_assoc. simpl.
  rewrite ?app_nil_r. split; reflexivity.
Qed.

(** C2, on the code.  Against a server that refuses every [Mount] of the
    engine, the create loop makes eight attempts, sleeps 500ms, 1s, 2s, 4s,
    8s, 16s and 32s between them and returns the last error when the
    computed wait is the ceiling of 60s.  Against a server that refuses
    every [TuneMount], the tune loop asks the backoff for a duration three
    times per failed attempt: it makes three attempts, sleeps 2s and 16s
    between them and returns the error at the third.  A loop that succeeds
    leaves the backoff reset, so that the next loop starts at 500ms. *)
Theorem retry_waits (path : string) (input : MountInput) (c : MountConfigInput)
    (e : error) (w : World) :
  ((forall h, srvMount srv h path input = Some e) ->
   let r := mountRetry srv retryFuel path input newBackoff w in
   r.1 = Fail (retryError path e) /\
   sleepsOf (trace r.2) =
     sleepsOf (trace w) ++ [500 * Millisecond; 1 * Second; 2 * Second; 4 * Second;
                            8 * Second; 16 * Second; 32 * Second]%Z /\
   mountedPaths (trace r.2) = mountedPaths (trace w) ++ replicate 8 path) /\
  ((forall h, srvTuneMount srv h path c = Some e) ->
   let r := tuneRetry srv retryFuel path c newBackoff w in
   r.1 = Fail (retryError path e) /\
   sleepsOf (trace r.2) = sleepsOf (trace w) ++ [2 * Second; 16 * Second]%Z /\
   tunedPaths (trace r.2) = tunedPaths (trace w) ++ replicate 3 path) /\
  (forall fuel k,
     (srvMount srv (trace w) path input = None ->
      (mountRetry srv (S fuel) path input (backoffAt k) w).1 = Ok newBackoff) /\
     (srvTuneMount srv (trace w) path c = None ->
      (tuneRetry srv (S fuel) path c (backoffAt k) w).1 = Ok newBackoff)) /\
  waitAt (attempt newBackoff) = (500 * Millisecond)%Z.
Proof.
  split; [|split; [|split]].
  - apply mountRetry_refused.
  - apply tuneRetry_refused.
  - intros fuel k. split; intros H.
    + rewrite mountRetry_succeeded by exact H. reflexivity.
    + rewrite tuneRetry_succeeded by exact H. reflexivity.
  - reflexivity.
Qed.

End Retry.

Lemma retry_waits_witness :
  sleepsOf (trace (tuneRetry Scenario.tuneRefused retryFuel "kv" Scenario.emptyMountConfig
                             newBackoff Scenario.start).2)
  = [2 * Backoff.Second; 16 * Backoff.Second]%Z.
Proof.
  destruct (retry_waits Scenario.tuneRefused "kv"
              (Build_MountInput "kv" EmptyString EmptyString Scenario.emptyMountConfig ∅ false false)
              Scenario.emptyMountConfig Scenario.refused Scenario.start)
    as (_ & Htune & _).
  destruct (Htune (fun _ => eq_refl)) as (_ & Hsleeps & _).
  exact Hsleeps.
Defined.

(** The two loops in a whole pass: an absent engine whose [Mount] is
    always refused, and a mounted engine whose [TuneMount] is always
    refused. *)
Example retry_loops_in_a_pass :
  let mountRun := configureSecretsEngines Scenario.mountRefused Scenario.yaml
                    (Scenario.kvOnly false) Scenario.start in
  let tuneRun := configureSecretsEngines Scenario.tuneRefused Scenario.yaml
                   (Scenario.kvOnly false) Scenario.start in
  sleepsOf (trace mountRun.2) =
    [500 * Backoff.Millisecond; 1 * Backoff.Second; 2 * Backoff.Second;
     4 * Backoff.Second; 8 * Backoff.Second; 16 * Backoff.Second;
     32 * Backoff.Second]%Z /\
  mountedPaths (trace mountRun.2) = replicate 8 "kv" /\
  mountRun.1 = Fail (ErrWrap (retryError "kv" Scenario.refused)
                             "error adding secrets engines") /\
  sleepsOf (trace tuneRun.2) = [2 * Backoff.Second; 16 * Backoff.Second]%Z /\
  tunedPaths (trace tuneRun.2) = replicate 3 "kv" /\
  tuneRun.1 = Fail (ErrWrap (retryError "kv" Scenario.refused)
                            "error adding secrets engines").
Proof. vm_compute. repeat split; reflexivity. Qed.

(** ** Mount options *)

Section MountOptions.

Variable srv : Server.
Variable lib : Decoders.

Lemma extends_record (P : Event -> Prop) (e : Event) (w w' : World) :
  P e -> extends P (record e w) w' -> extends P w w'.
Proof.
  intros He H. eapply extends_trans; [|exact H]. apply extends_accepts, He.
Qed.

Lemma extends_first (P : Event -> Prop) (e : Event) (w w' : World) :
  extends P (record e w) w' ->
  exists evs, trace w' = trace w ++ e :: evs /\ Forall P evs.
Proof.
  intros (evs & Htr & Hev). exists evs. split; [|exact Hev].
  rewrite Htr. simpl. rewrite <- app_assoc. reflexivity.
Qed.

(** The [Mount] loop, after its first call. *)
Lemma mountRetry_after_call (P : Event -> Prop) (path : string) (input : MountInput) :
  P (EMount path input) -> (forall d, P (ESleep d)) -> (forall m, P (ELog m)) ->
  forall fuel b w,
    extends P (record (EMount path input) w) (mountRetry srv (S fuel) path input b w).2.
Proof.
  intros Hm Hs Hl. induction fuel as [|fuel IH]; intros b w;
    cbn [mountRetry]; rewrite bind_run; unfold call at 1; cbn beta iota;
    (destruct (srvMount srv (trace w) path input) as [e|]; [|apply extends_refl]);
    destruct (Backoff.Duration b) as [d b1]; rewrite bind_run;
    unfold log at 1, emit at 1; cbn beta iota;
    (eapply extends_record; [apply Hl|]);
    (destruct (decide (d = Backoff.Max b1)); [apply extends_refl|]);
    rewrite bind_run; unfold sleep at 1, emit at 1; cbn beta iota;
    (eapply extends_record; [apply Hs|]).
  - apply extends_refl.
  - eapply extends_record; [exact Hm|]. apply IH.
Qed.

(** The [TuneMount] loop, after its first call. *)
Lemma tuneRetry_after_call (P : Event -> Prop) (path : string) (c : MountConfigInput) :
  P (ETuneMount path c) -> (forall d, P (ESleep d)) -> (forall m, P (ELog m)) ->
  forall fuel b w,
    extends P (record (ETuneMount path c) w) (tuneRetry srv (S fuel) path c b w).2.
Proof.
  intros Hm Hs Hl. induction fuel as [|fuel IH]; intros b w;
    cbn [tuneRetry]; rewrite bind_run; unfold call at 1; cbn beta iota;
    (destruct (srvTuneMount srv (trace w) path c) as [e|]; [|apply extends_refl]);
    destruct (Backoff.Duration b) as [d1 b1]; rewrite bind_run;
    unfold log at 1, emit at 1; cbn beta iota;
    (eapply extends_record; [apply Hl|]);
    destruct (Backoff.Duration b1) as [d2 b2];
    (destruct (decide (d2 = Backoff.Max b2)); [apply extends_refl|]);
    destruct (Backoff.Duration b2) as [d3 b3];
    rewrite bind_run; unfold sleep at 1, emit at 1; cbn beta iota;
    (eapply extends_record; [apply Hs|]).
  - apply extends_refl.
  - eapply extends_record; [exact Hm|]. apply IH.
Qed.

(** C3, as the code has it.  The options declared outside config are put
    into the mount config input, over whatever options config held.  An
    engine that is absent is mounted with them twice over, as the options
    of the mount input and inside its config; an engine that is present is
    tuned with that same mount config input, options included.  Either way
    the first call goes out at once, and nothing but further attempts of
    the same call, sleeps and log lines follow. *)
Theorem options_sent_on_mount_and_tune
    (se : secretEngine) (c : MountConfigInput) (b : Backoff.t) (w : World) :
  getMountConfigInput lib se = inr c ->
  mc_Options c = Options se /\
  (exists evs, trace (ensureMount srv se true c b w).2 =
               trace w ++ ELog (LogTuning (Path se)) :: ETuneMount (Path se) c :: evs /\
               Forall (mountCall se true c) evs) /\
  (exists mi evs, mi_Options mi = Options se /\ mi_Config mi = c /\
                  trace (ensureMount srv se false c b w).2 =
                  trace w ++ ELog (LogAdding (Path se) (Type_ se))
                          :: ELog (LogMountInput mi) :: EMount (Path se) mi :: evs /\
                  Forall (mountCall se false c) evs).
Proof.
  intros Hc.
  assert (Ho : mc_Options c = Options se).
  { unfold getMountConfigInput in Hc.
    destruct (decodeMountConfig lib (Config se)); [discriminate|].
    injection Hc as <-. reflexivity. }
  split; [exact Ho|]. split.
  - unfold ensureMount, retryFuel. cbn [negb]. rewrite bind_run.
    unfold log at 1, emit at 1. cbn beta iota.
    destruct (extends_first (mountCall se true c) (ETuneMount (Path se) c)
                (record (ELog (LogTuning (Path se))) w)
                (tuneRetry srv 16 (Path se) c b (record (ELog (LogTuning (Path se))) w)).2)
      as (evs & Htr & Hev).
    { apply tuneRetry_after_call; simpl; auto. }
    exists evs. split; [|exact Hev]. rewrite Htr. simpl.
    rewrite <- app_assoc. reflexivity.
  - unfold ensureMount, retryFuel. cbn [negb]. rewrite !bind_run.
    unfold log at 1, emit at 1. cbn beta iota. rewrite bind_run.
    unfold log at 1, emit at 1. cbn beta iota.
    match goal with |- context [mountRetry srv 16 (Path se) ?mi b ?w1] =>
      destruct (extends_first (mountCall se false c) (EMount (Path se) mi) w1
                  (mountRetry srv 16 (Path se) mi b w1).2) as (evs & Htr & Hev);
      [apply mountRetry_after_call; simpl; auto | exists mi, evs]
    end.
    split; [exact Ho|]. split; [reflexivity|]. split; [|exact Hev].
    rewrite Htr. simpl. rewrite <- !app_assoc. reflexivity.
Qed.

End MountOptions.

Lemma options_sent_on_mount_and_tune_witness :
  exists c, getMountConfigInput Scenario.yaml Scenario.kv = inr c /\
            mc_Options c = {["version" := "2"]}.
Proof.
  eexists. split; [reflexivity|].
  eapply (options_sent_on_mount_and_tune Scenario.kvServer Scenario.yaml Scenario.kv _
            newBackoff Scenario.start).
  reflexivity.
Defined.

(** The KV engine is declared with the option version 2 and is mounted
    already: the pass mounts nothing and tunes once, and the tune payload
    holds the declared options. *)
Lemma tune_payload_holds_options :
  let r := configureSecretsEngines Scenario.kvServer Scenario.yaml
             (Scenario.kvOnly false) Scenario.start in
  r.1 = Ok tt /\
  mountedPaths (trace r.2) = [] /\
  tunedPaths (trace r.2) = ["kv"] /\
  tuneOptions (trace r.2) = [Options Scenario.kv] /\
  Options Scenario.kv !! "version" = Some "2".
Proof. vm_compute. repeat split; reflexivity. Qed.

(** ** Unmanaged engines *)

Section Unmanaged.

Variable srv : Server.
Variable cfg : externalConfig.

Lemma initSecretsEnginesConfig_paths (secrets : list secretEngine) :
  Path <$> initSecretsEnginesConfig secrets = normalizedPath <$> secrets.
Proof.
  induction secrets as [|se rest IH]; [reflexivity|].
  cbn [initSecretsEnginesConfig]. rewrite !fmap_cons, IH. reflexivity.
Qed.

Lemma dom_existing (l : Mounts) (m0 : gmap string bool) :
  dom (foldl (fun m kv => <[Trim kv.1 "/" := true]> m) m0 l) =
  dom m0 ∪ list_to_set ((fun kv => Trim kv.1 "/") <$> l).
Proof.
  revert m0. induction l as [|kv l IH]; intros m0; simpl.
  - set_solver.
  - rewrite IH, dom_insert_L. set_solver.
Qed.

Lemma dom_without_managed (managed : list secretEngine) (m0 : gmap string bool) :
  dom (foldl (fun m se => delete (Path se) m) m0 managed) =
  dom m0 ∖ list_to_set (Path <$> managed).
Proof.
  revert m0. induction managed as [|se rest IH]; intros m0; simpl.
  - set_solver.
  - rewrite IH, dom_delete_L. set_solver.
Qed.

Lemma rangeKeys_elements (m : gmap string bool) : rangeKeys m ≡ₚ elements (dom m).
Proof.
  unfold rangeKeys. apply NoDup_Permutation.
  - apply NoDup_fst_map_to_list.
  - apply NoDup_elements.
  - intros k. rewrite elem_of_elements, elem_of_dom. split.
    + intros Hk. apply list_elem_of_fmap in Hk as [[k' b] [-> Hin]].
      apply elem_of_map_to_list in Hin. eauto.
    + intros [b Hb]. apply list_elem_of_fmap. exists (k, b).
      split; [reflexivity|]. apply elem_of_map_to_list, Hb.
Qed.

Lemma unmountOne_run (k : string) (w : World) :
  unmountOne srv k w =
  let w1 := record (EUnmount k) (record (ELog (LogRemoving k)) w) in
  match srvUnmount srv (trace (record (ELog (LogRemoving k)) w)) k with
  | Some err =>
      (Fail (ErrWrap err ("error unmounting " +:+ k +:+ " secret engine from vault")), w1)
  | None => (Ok tt, w1)
  end.
Proof.
  unfold unmountOne. run.
  destruct (srvUnmount srv (trace w ++ [ELog (LogRemoving k)]) k); reflexivity.
Qed.

(** The loop of line 419 unmounts the keys in order and stops at the
    first refusal. *)
Lemma prune_loop (keys : list string) (w : World) :
  let r := forM_ keys (unmountOne srv) w in
  exists evs,
    trace r.2 = trace w ++ evs /\ Forall pruneEvent evs /\
    unmountedPaths evs `prefix_of` keys /\
    (r.1 = Ok tt -> unmountedPaths evs = keys) /\
    ((forall h p, srvUnmount srv h p = None) -> r.1 = Ok tt).
Proof.
  cbv zeta. revert w. induction keys as [|k keys IH]; intros w; cbn [forM_].
  - exists []. rewrite app_nil_r. repeat split; auto.
  - rewrite bind_run, unmountOne_run. cbv zeta.
    destruct (srvUnmount srv (trace (record (ELog (LogRemoving k)) w)) k) as [e|] eqn:He.
    + exists [ELog (LogRemoving k); EUnmount k]. cbn [fst snd]. unfold record. simpl.
      rewrite <- !app_assoc. repeat split; try discriminate.
      * repeat constructor.
      * exists keys. reflexivity.
      * intros H. rewrite H in He. discriminate He.
    + destruct (IH (record (EUnmount k) (record (ELog (LogRemoving k)) w)))
        as (evs & Htr & Hev & Hpre & Hok & Hall).
      exists (ELog (LogRemoving k) :: EUnmount k :: evs). repeat split.
      * rewrite Htr. unfold record. simpl. rewrite <- !app_assoc. reflexivity.
      * repeat constructor. exact Hev.
      * apply (prefix_cons k), Hpre.
      * intros H. change (k :: unmountedPaths evs = k :: keys). f_equal. apply Hok, H.
      * exact Hall.
Qed.

(** C6. The unmanaged set is the set of the listed mount paths, trimmed
    of separators, without the normalized path of every declared engine
    and without sys, identity and cubbyhole.  With purge disabled, or with
    the secrets category excluded, pruning calls nothing.  With purge
    enabled and the category not excluded, pruning unmounts the paths of
    the set, each once: it goes through them in the order of the range
    loop, and when no unmount is refused it unmounts exactly these paths
    (a refused unmount is fatal and ends the loop). *)
Theorem unmanaged_set_and_pruning (secrets : list secretEngine) (l : Mounts) (w : World) :
  srvListMounts srv (trace w) = inr l ->
  exists unmanaged,
    getUnmanagedSecretsEngines srv (initSecretsEnginesConfig secrets) w
      = (Ok unmanaged, record EListMounts w) /\
    dom unmanaged =
      list_to_set ((fun kv => Trim kv.1 "/") <$> l)
        ∖ list_to_set (normalizedPath <$> secrets)
        ∖ {["sys"; "identity"; "cubbyhole"]} /\
    rangeKeys unmanaged ≡ₚ elements (dom unmanaged) /\
    forall w',
      let r := removeUnmanagedSecretsEngines srv cfg unmanaged w' in
      (PurgeEnabled cfg = false \/ PurgeExcludeSecrets cfg = true -> r = (Ok tt, w')) /\
      (PurgeEnabled cfg = true -> PurgeExcludeSecrets cfg = false ->
       exists evs,
         trace r.2 = trace w' ++ evs /\ Forall pruneEvent evs /\
         unmountedPaths evs `prefix_of` rangeKeys unmanaged /\
         (r.1 = Ok tt -> unmountedPaths evs = rangeKeys unmanaged) /\
         ((forall h p, srvUnmount srv h p = None) -> r.1 = Ok tt)).
Proof.
  intros Hl. eexists. split; [|split; [|split]].
  - unfold getUnmanagedSecretsEngines, getExistingSecretsEngines.
    rewrite !bind_run. unfold call at 1. cbn beta iota. rewrite Hl. reflexivity.
  - rewrite dom_without_managed, !dom_delete_L, dom_existing, dom_empty_L.
    rewrite initSecretsEnginesConfig_paths. set_solver.
  - apply rangeKeys_elements.
  - intros w' r. subst r. unfold removeUnmanagedSecretsEngines. split.
    + intros [-> | ->]; [|rewrite orb_true_r]; try reflexivity.
      rewrite orb_true_r. reflexivity.
    + intros -> ->. simpl. rewrite !orb_false_r.
      match goal with |- context [bool_decide (size ?m = 0)] =>
        destruct (bool_decide (size m = 0)) eqn:Hsz; [|apply prune_loop];
        apply bool_decide_eq_true, map_size_empty_iff in Hsz
      end.
      exists []. unfold rangeKeys. rewrite Hsz, map_to_list_empty, app_nil_r. simpl.
      repeat split; auto.
Qed.

End Unmanaged.

Lemma unmanaged_set_and_pruning_witness :
  exists unmanaged,
    getUnmanagedSecretsEngines Scenario.kvServer
      (initSecretsEnginesConfig [Scenario.kv]) Scenario.start
      = (Ok unmanaged, record EListMounts Scenario.start) /\
    dom unmanaged =
      list_to_set ((fun kv => Trim kv.1 "/") <$> Scenario.mounted)
        ∖ list_to_set (normalizedPath <$> [Scenario.kv])
        ∖ {["sys"; "identity"; "cubbyhole"]}.
Proof.
  destruct (unmanaged_set_and_pruning Scenario.kvServer (Scenario.kvOnly true)
              [Scenario.kv] Scenario.mounted Scenario.start eq_refl)
    as (unmanaged & Hrun & Hdom & _).
  exists unmanaged. split; [exact Hrun | exact Hdom].
Defined.

(** Scenario E of the specification: the KV engine is declared, an old KV
    engine is mounted besides it.  With purge enabled the pass unmounts the
    old engine and nothing else; with purge disabled it unmounts nothing. *)
Example pruning_scenario_E :
  unmountedPaths (trace (configureSecretsEngines Scenario.kvServer Scenario.yaml
                           (Scenario.kvOnly true) Scenario.start).2) = ["old-kv"] /\
  unmountedPaths (trace (configureSecretsEngines Scenario.kvServer Scenario.yaml
                           (Scenario.kvOnly false) Scenario.start).2) = [].
Proof. vm_compute. split; reflexivity. Qed.

(** ** Failures of a listing *)

Section Listings.

Variable srv : Server.
Variable lib : Decoders.
Variable cfg : externalConfig.

Lemma processEngine_listing_failed (se : secretEngine) (mounts : Mounts) (b : Backoff.t)
    (w : World) (e : error) :
  srvListMounts srv (trace w) = inl e ->
  processEngine srv lib se mounts b w =
  (Fail (ErrWrap e "error reading mounts from vault"), record EListMounts w).
Proof.
  intros H. unfold processEngine, mountExists. rewrite !bind_run.
  unfold call at 1. cbn beta iota. rewrite H. reflexivity.
Qed.

Lemma addEngines_app (pre rest : list secretEngine) (mounts : Mounts) (b b1 : Backoff.t)
    (w0 w : World) :
  addEngines srv lib pre mounts b w0 = (Ok b1, w) ->
  addEngines srv lib (pre ++ rest) mounts b w0 = addEngines srv lib rest mounts b1 w.
Proof.
  revert b w0. induction pre as [|se pre IH]; intros b w0 H; simpl in *.
  - injection H as -> ->. reflexivity.
  - rewrite bind_run in *.
    destruct (processEngine srv lib se mounts b w0) as [[b'| | |] w1]; try discriminate.
    apply IH, H.
Qed.

Lemma foldl_delete_empty (managed : list secretEngine) :
  foldl (fun (m : gmap string bool) se => delete (Path se) m) ∅ managed = ∅.
Proof.
  induction managed as [|se rest IH]; simpl; [reflexivity|].
  rewrite delete_empty. exact IH.
Qed.

Lemma getUnmanaged_listing_failed (managed : list secretEngine) (w : World) (e : error) :
  srvListMounts srv (trace w) = inl e ->
  getUnmanagedSecretsEngines srv managed w = (Ok ∅, record EListMounts w).
Proof.
  intros H. unfold getUnmanagedSecretsEngines, getExistingSecretsEngines.
  rewrite !bind_run. unfold call at 1. cbn beta iota. rewrite H. cbn.
  rewrite !delete_empty, foldl_delete_empty. reflexivity.
Qed.

Lemma then_nothing (m : M unit) (wrap : error -> error) (w : World) :
  (m;; removeUnmanagedSecretsEngines srv cfg ∅ !> wrap) w = m w.
Proof.
  rewrite bind_run. destruct (m w) as [[[]| | |] w1]; reflexivity.
Qed.

(** C4, as the code has it.  A failure to list the auth methods at the
    start of the pass is fatal: the pass returns the error and has made no
    other call.  A failure to list the mounts when the pass checks whether
    an engine is mounted is fatal: the pass returns the error and makes no
    call after the failed listing.  A failure of the listing from which the
    unmanaged set is computed is not fatal: its error is dropped, the
    unmanaged set is empty, and the pass goes on to add the declared
    engines and prunes nothing. *)
Theorem listing_failures (w : World) (e : error) :
  (srvListAuth srv (trace w) = inl e ->
   configureSecretsEngines srv lib cfg w =
   (Fail (ErrWrap e "error while getting list of auth engines for secret engine configuration"),
    record EListAuth w)) /\
  (forall w0 auths pre se rest b1,
     srvListAuth srv (trace w0) = inr auths ->
     initSecretsEnginesConfig (Secrets cfg) = pre ++ se :: rest ->
     addEngines srv lib pre auths newBackoff
       (getUnmanagedSecretsEngines srv (pre ++ se :: rest) (record EListAuth w0)).2
       = (Ok b1, w) ->
     srvListMounts srv (trace w) = inl e ->
     configureSecretsEngines srv lib cfg w0 =
     (Fail (ErrWrap (ErrWrap e "error reading mounts from vault")
                    "error adding secrets engines"),
      record EListMounts w)) /\
  (forall auths,
     srvListAuth srv (trace w) = inr auths ->
     srvListMounts srv (trace (record EListAuth w)) = inl e ->
     let managed := initSecretsEnginesConfig (Secrets cfg) in
     let w1 := record EListMounts (record EListAuth w) in
     getUnmanagedSecretsEngines srv managed (record EListAuth w) = (Ok ∅, w1) /\
     configureSecretsEngines srv lib cfg w =
     (addManagedSecretsEngines srv lib managed auths
        !> (fun err => ErrWrap err "error adding secrets engines")) w1).
Proof.
  split; [|split].
  - intros H. unfold configureSecretsEngines. rewrite bind_run.
    unfold call at 1. cbn beta iota. rewrite H. reflexivity.
  - intros w0 auths pre se rest b1 Hauth Hinit Hpre Hlist.
    unfold configureSecretsEngines. rewrite bind_run.
    unfold call at 1. cbn beta iota. rewrite Hauth, Hinit. rewrite bind_run.
    destruct (getUnmanagedSecretsEngines srv (pre ++ se :: rest) (record EListAuth w0))
      as [[unmanaged| | |] w1] eqn:Hun;
      try (unfold getUnmanagedSecretsEngines, getExistingSecretsEngines in Hun;
           rewrite !bind_run in Hun; unfold call at 1 in Hun; cbn beta iota in Hun;
           destruct (srvListMounts srv (trace (record EListAuth w0))); discriminate Hun).
    cbn [snd] in Hpre. rewrite bind_run. unfold wrapErr at 1, addManagedSecretsEngines.
    rewrite bind_run, (addEngines_app _ _ _ _ _ _ _ Hpre). cbn [addEngines].
    rewrite bind_run, (processEngine_listing_failed _ _ _ _ _ Hlist). reflexivity.
  - intros auths Hauth Hlist managed w1. split.
    + apply (getUnmanaged_listing_failed _ _ e), Hlist.
    + unfold configureSecretsEngines. rewrite bind_run.
      unfold call at 1. cbn beta iota. rewrite Hauth. rewrite bind_run.
      fold managed. rewrite (getUnmanaged_listing_failed _ _ _ Hlist).
      apply then_nothing.
Qed.

End Listings.

Lemma listing_failures_witness :
  configureSecretsEngines Scenario.authRefused Scenario.yaml (Scenario.kvOnly true)
    Scenario.start
  = (Fail (ErrWrap Scenario.refused
             "error while getting list of auth engines for secret engine configuration"),
     record EListAuth Scenario.start).
Proof.
  apply (listing_failures Scenario.authRefused Scenario.yaml (Scenario.kvOnly true)
           Scenario.start Scenario.refused).
  reflexivity.
Defined.

(** The listing of the mount check is refused: the pass ends with the
    error, and the refused listing is its last call. *)
Example refused_mount_check_ends_the_pass :
  let r := configureSecretsEngines Scenario.secondListingRefused Scenario.yaml
             (Scenario.kvOnly true) Scenario.start in
  r.1 = Fail (ErrWrap (ErrWrap Scenario.refused "error reading mounts from vault")
                      "error adding secrets engines") /\
  trace r.2 = [EListAuth; EListMounts; EListMounts].
Proof. vm_compute. split; reflexivity. Qed.

(** The listing from which the unmanaged set is computed is refused: the
    pass goes on, mounts the declared engine and succeeds. *)
Lemma pass_survives_refused_listing :
  let r := configureSecretsEngines Scenario.firstListingRefused Scenario.yaml
             (Scenario.kvOnly true) Scenario.start in
  take 2 (trace r.2) = [EListAuth; EListMounts] /\
  srvListMounts Scenario.firstListingRefused [EListAuth] = inl Scenario.refused /\
  mountedPaths (trace r.2) = ["kv"] /\
  r.1 = Ok tt.
Proof. vm_compute. repeat split; reflexivity. Qed.

(** ** Items that exist already *)

Section Lifecycle.

Variable srv : Server.
Variable lib : Decoders.

Lemma ToBool_stringKeyed (data : gmap string value) (k : string) :
  Cast.ToBool ((stringKeyed <$> data) !! k) = Cast.ToBool (data !! k).
Proof. rewrite lookup_fmap. destruct (data !! k) as [[]|]; reflexivity. Qed.

Lemma ToString_stringKeyed (data : gmap string value) (k : string) :
  Cast.ToString ((stringKeyed <$> data) !! k) = Cast.ToString (data !! k).
Proof. rewrite lookup_fmap. destruct (data !! k) as [[]|]; reflexivity. Qed.

(** The flags as [applyAt] reads them, in terms of the item's data. *)
Lemma applyAt_flags (se : secretEngine) (present : bool) (configOption : string)
    (name : option value) (configPath : string) (data : gmap string value) :
  applyAt srv se present configOption name configPath (stringKeyed <$> data) =
  (update ← shouldUpdate srv se present (Cast.ToBool (data !! "create_only"))
                         (Cast.ToBool (data !! "rotate")) configOption configPath;
   goOn ← (if update : bool
           then writeConfig srv configPath (Cast.ToString (data !! "save_to"))
                            (stripControl (stringKeyed <$> data))
           else mret true);
   if goOn : bool
   then rotateIfNeeded srv se present (Cast.ToBool (data !! "rotate")) configOption
                       configPath name
   else mret tt).
Proof.
  unfold applyAt, stripControl.
  rewrite !lookup_delete_ne by discriminate.
  rewrite !ToBool_stringKeyed, ToString_stringKeyed. reflexivity.
Qed.

Lemma named_or_exempt (se : secretEngine) (configOption : string)
    (data : gmap string value) :
  is_Some (data !! "name") \/ configNeedsNoName (Type_ se) configOption = true ->
  negb (bool_decide (is_Some (data !! "name")))
    && negb (configNeedsNoName (Type_ se) configOption) = false.
Proof.
  intros [H | ->]; [|apply andb_false_r].
  rewrite (bool_decide_eq_true_2 _ H). reflexivity.
Qed.

(** The write of an item: the payload goes to the config path first; what
    follows is a log line or the write to the save_to path. *)
Lemma writeConfig_first (configPath saveTo : string) (d : gmap string value) (w : World) :
  exists evs,
    trace (writeConfig srv configPath saveTo d w).2 =
      trace w ++ EWrite configPath (Some d) :: evs /\
    Forall writeOrLog evs.
Proof.
  unfold writeConfig, writeWithWarningCheck. run.
  destruct (srvWrite srv (trace w) configPath (Some d)) as [e|sec]; simpl.
  - destruct (isOverwriteProhibitedError e); simpl.
    + eexists [_]. rewrite <- app_assoc. split; [reflexivity | repeat constructor].
    + exists []. split; [reflexivity | constructor].
  - destruct (decide (saveTo = EmptyString)); simpl.
    + exists []. split; [reflexivity | constructor].
    + destruct sec as [sec|]; simpl.
      * destruct (srvWrite srv _ saveTo _); simpl;
          (eexists [_]; rewrite <- app_assoc; split; [reflexivity | repeat constructor]).
      * exists []. split; [reflexivity | constructor].
Qed.

(** C1, as the code has it.  An item with create_only or rotate set,
    under a mount that was there before the pass, whose probe finds the
    sub-resource (data at the config path, or status 200 of the CA check for
    the option root/generate): the item's data is not written, neither to the
    config path nor to the save_to path, and the skip is logged with the
    reason create_only when create_only is set, else rotate.  What follows
    is the rotation step alone, which writes without a payload to the
    rotation endpoint when rotate is set and the pair of type and option is
    database/config or aws/config/root, and does nothing otherwise.  Under a
    mount created in this pass no probe is made: the first call is the write
    of the item's data to the config path, followed by nothing but log lines
    and the save_to write. *)
Theorem existing_item_is_skipped (se : secretEngine) (configOption : string)
    (data : gmap string value) (w : World) :
  let name := data !! "name" in
  let configPath := configPathOf lib (Path se) configOption name in
  let createOnly := Cast.ToBool (data !! "create_only") in
  let rotate := Cast.ToBool (data !! "rotate") in
  let skipped :=
    record (ELog (LogAlreadyExists configPath (if createOnly then "create_only" else "rotate")))
           (record (probeOf se configOption configPath) w) in
  is_Some name \/ configNeedsNoName (Type_ se) configOption = true ->
  (createOnly || rotate = true ->
   alreadyExists srv se configOption configPath (trace w) ->
   applyItem srv lib se true configOption data w
     = rotateIfNeeded srv se true rotate configOption configPath name skipped /\
   extends noPayload w (applyItem srv lib se true configOption data w).2 /\
   (rotate && isRotatable (Type_ se) configOption = false ->
    applyItem srv lib se true configOption data w = (Ok tt, skipped))) /\
  (exists evs,
     trace (applyItem srv lib se false configOption data w).2
       = trace w ++ EWrite configPath (Some (stripControl (stringKeyed <$> data))) :: evs /\
     Forall writeOrLog evs).
Proof.
  intros name configPath createOnly rotate skipped Hname.
  assert (Happly : forall present,
            applyItem srv lib se present configOption data w =
            applyAt srv se present configOption name configPath (stringKeyed <$> data) w).
  { intros present. unfold applyItem. rewrite (named_or_exempt _ _ _ Hname). reflexivity. }
  split.
  - intros Hflag Hex.
    assert (Hrun : applyItem srv lib se true configOption data w
                   = rotateIfNeeded srv se true rotate configOption configPath name skipped).
    { rewrite Happly, applyAt_flags. fold createOnly rotate.
      rewrite bind_run. unfold shouldUpdate. rewrite Hflag. cbn [andb].
      rewrite bind_run. unfold secretExists, alreadyExists, probeOf in *.
      subst skipped. destruct (decide (configOption = "root/generate")).
      - rewrite bind_run. unfold call at 1. cbn beta iota. rewrite Hex. cbn.
        reflexivity.
      - destruct Hex as [d Hd]. rewrite bind_run. unfold call at 1. cbn beta iota.
        rewrite Hd. cbn. reflexivity. }
    split; [exact Hrun|]. split.
    + rewrite Hrun. apply (extends_trans noPayload w skipped).
      * subst skipped.
        eapply extends_trans;
          [apply (extends_accepts noPayload (probeOf se configOption configPath))
          |apply (extends_accepts noPayload (ELog _)); exact I].
        unfold probeOf. destruct (decide _); exact I.
      * apply obeys_snd. unfold rotateIfNeeded.
        destruct (rotate && true && isRotatable (Type_ se) configOption);
          [|intros w'; apply extends_refl].
        apply obeys_bind; try apply extends_trans.
        -- destruct name as [[]|]; intros w'; apply extends_refl.
        -- intros nameStr. apply obeys_wrapErr, rotation_noPayload.
    + intros Hrot. rewrite Hrun. unfold rotateIfNeeded.
      rewrite andb_true_r, Hrot. reflexivity.
  - rewrite Happly, applyAt_flags. fold createOnly rotate.
    rewrite bind_run. unfold shouldUpdate. rewrite andb_false_r. cbn.
    destruct (writeConfig_first configPath (Cast.ToString (data !! "save_to"))
                (stripControl (stringKeyed <$> data)) w) as (evs & Htr & Hev).
    exists evs. split; [|exact Hev]. rewrite <- Htr.
    rewrite bind_run.
    destruct (writeConfig srv configPath _ _ w) as [[[|]| | |] w1]; try reflexivity.
    unfold rotateIfNeeded. rewrite andb_false_r. reflexivity.
Qed.

End Lifecycle.

(** ** Rotation, once for a path *)

Section RotatedOnce.

Variable srv : Server.
Variable lib : Decoders.
Variable cfg : externalConfig.

(** The rotation step of an item with the endpoint [rp] is the call of
    [rotateSecretEngineCredentials] for that endpoint. *)
Lemma rotateIfNeeded_active (se : secretEngine) (configOption configPath : string)
    (name : option value) (rp : string) (w : World) :
  itemRotatePath se configOption name = Some rp ->
  exists nameStr,
    rotatePathOf (Type_ se) (Path se) nameStr = Some rp /\
    rotateIfNeeded srv se true true configOption configPath name w =
    (rotateSecretEngineCredentials srv (Type_ se) (Path se) nameStr configPath
       !> (fun err => ErrWrap err ("error rotating credentials for '" +:+ configPath
                                   +:+ "' config in vault"))) w.
Proof.
  unfold itemRotatePath, rotateIfNeeded.
  destruct (isRotatable (Type_ se) configOption); [|discriminate]. cbn [andb].
  destruct name as [[| | |s| | |]|]; try discriminate; intros Hrp;
    eexists; (split; [exact Hrp | reflexivity]).
Qed.

Lemma rotateIfNeeded_first (se : secretEngine) (configOption configPath : string)
    (name : option value) (rp : string) (w : World) :
  itemRotatePath se configOption name = Some rp ->
  rotateCache w !! rp = None ->
  let ctx := "error rotating credentials for '" +:+ configPath +:+ "' config in vault" in
  let w1 := record (ELog (LogRotating rp)) w in
  let w2 := record (EWrite rp None) w1 in
  rotateIfNeeded srv se true true configOption configPath name w =
  match srvWrite srv (trace w1) rp None with
  | inl err => (Fail (ErrWrap (ErrWrap err ctx) ctx), w2)
  | inr _ =>
      (Ok tt, {| trace := trace (record (ELog (LogRotated rp)) w2);
                 rotateCache := <[rp := true]> (rotateCache w) |})
  end.
Proof.
  intros Hitem Hc ctx w1 w2.
  destruct (rotateIfNeeded_active se configOption configPath name rp w Hitem)
    as (nameStr & Hrp & ->).
  unfold wrapErr, rotateSecretEngineCredentials, writeWithWarningCheck.
  rewrite Hrp. run. rewrite Hc. simpl.
  destruct (srvWrite srv _ rp None); reflexivity.
Qed.

Lemma rotateIfNeeded_later (se : secretEngine) (configOption configPath : string)
    (name : option value) (rp : string) (w : World) :
  itemRotatePath se configOption name = Some rp ->
  is_Some (rotateCache w !! rp) ->
  rotateIfNeeded srv se true true configOption configPath name w =
  (Ok tt, record (ELog (LogRotatedPreviously rp)) w).
Proof.
  intros Hitem [b Hc].
  destruct (rotateIfNeeded_active se configOption configPath name rp w Hitem)
    as (nameStr & Hrp & ->).
  unfold wrapErr, rotateSecretEngineCredentials. rewrite Hrp. run.
  rewrite Hc. reflexivity.
Qed.

Lemma rotateIfNeeded_once (se : secretEngine) (present rotate : bool)
    (configOption configPath : string) (name : option value) :
  obeys onceR onceS (rotateIfNeeded srv se present rotate configOption configPath name).
Proof.
  apply rotateIfNeeded_obeys.
  - apply onceR_refl.
  - apply onceR_trans.
  - apply onceR_onceS.
  - apply onceRS_trans.
  - apply rotation_once.
Qed.

(** C5. Within one pass the rotation write of a rotation path is issued
    exactly once, however many items have that path.  The processing of an
    item with rotate set under a mount that was there before the pass ends
    with the rotation step, unless its write failed or was left over a
    conflict.  For an item whose step computes the endpoint [rp]: when [rp]
    is not in the cache the step logs, issues the write, and puts [rp] into
    the cache only when the write succeeded (a refused write is a fatal
    error and leaves the cache as it was); when [rp] is in the cache the step
    only logs that the credentials were rotated previously and writes
    nothing.  So for two items with the same endpoint, the first processed
    from a state whose cache agrees with the trace and lacks [rp], with
    anything in between that the pass may do: the endpoint is never written
    twice, and when the second step has returned it has been written exactly
    once, by the first.  Over a whole pass from such a state: no rotation
    path is written more than once, a path once in the cache stays there,
    and when the pass succeeds every path in the cache has been written
    exactly once. *)
Theorem rotation_once_per_path
    (se1 se2 : secretEngine) (option1 option2 : string)
    (data1 data2 : gmap string value) (rp : string) (w : World) :
  let name1 := data1 !! "name" in
  let name2 := data2 !! "name" in
  let configPath1 := configPathOf lib (Path se1) option1 name1 in
  let configPath2 := configPathOf lib (Path se2) option2 name2 in
  let step1 := rotateIfNeeded srv se1 true true option1 configPath1 name1 in
  let step2 := rotateIfNeeded srv se2 true true option2 configPath2 name2 in
  let context1 :=
    "error rotating credentials for '" +:+ configPath1 +:+ "' config in vault" in
  itemRotatePath se1 option1 name1 = Some rp ->
  itemRotatePath se2 option2 name2 = Some rp ->
  (is_Some name1 \/ configNeedsNoName (Type_ se1) option1 = true ->
   Cast.ToBool (data1 !! "rotate") = true ->
   applyItem srv lib se1 true option1 data1 w =
   (update ← shouldUpdate srv se1 true (Cast.ToBool (data1 !! "create_only")) true
                          option1 configPath1;
    goOn ← (if update : bool
            then writeConfig srv configPath1 (Cast.ToString (data1 !! "save_to"))
                             (stripControl (stringKeyed <$> data1))
            else mret true);
    if goOn : bool then step1 else mret tt) w) /\
  (rotateCache w !! rp = None ->
   let w1 := record (ELog (LogRotating rp)) w in
   let w2 := record (EWrite rp None) w1 in
   step1 w =
   match srvWrite srv (trace w1) rp None with
   | inl err => (Fail (ErrWrap (ErrWrap err context1) context1), w2)
   | inr _ =>
       (Ok tt, {| trace := trace (record (ELog (LogRotated rp)) w2);
                  rotateCache := <[rp := true]> (rotateCache w) |})
   end) /\
  (is_Some (rotateCache w !! rp) ->
   step2 w = (Ok tt, record (ELog (LogRotatedPreviously rp)) w)) /\
  (forall (A : Type) (between : M A),
     obeys onceR onceS between ->
     cacheExact w -> rotateCache w !! rp = None ->
     let run := (step1;; between;; step2) w in
     rotationWrites rp (trace run.2) <= 1 /\
     (run.1 = Ok tt ->
      rotationWrites rp (trace run.2) = 1 /\
      is_Some (rotateCache run.2 !! rp) /\
      exists sec, srvWrite srv (trace (record (ELog (LogRotating rp)) w)) rp None
                  = inr sec)) /\
  (cacheExact w ->
   let r := configureSecretsEngines srv lib cfg w in
   rotatedAtMostOnce r.2 /\ cacheGrows w r.2 /\ (r.1 = Ok tt -> cacheExact r.2)).
Proof.
  intros name1 name2 configPath1 configPath2 step1 step2 context1 Hitem1 Hitem2.
  split; [|split; [|split; [|split]]].
  - intros Hname Hrot. unfold applyItem. rewrite (named_or_exempt _ _ _ Hname).
    cbn [andb]. fold name1 configPath1. rewrite applyAt_flags, Hrot. reflexivity.
  - intros Hc. apply (rotateIfNeeded_first se1 option1 configPath1 name1 rp w Hitem1 Hc).
  - intros Hc. apply (rotateIfNeeded_later se2 option2 configPath2 name2 rp w Hitem2 Hc).
  - intros A between Hbetween Hw Hc run.
    assert (Hrun : obeys onceR onceS (step1;; between;; step2)).
    { apply obeys_bind; try apply onceR_trans; try apply onceRS_trans;
        [apply rotateIfNeeded_once|]. intros _.
      apply obeys_bind; try apply onceR_trans; try apply onceRS_trans;
        [exact Hbetween|]. intros _. apply rotateIfNeeded_once. }
    specialize (Hrun w). fold run in Hrun.
    assert (Hmost : rotationWrites rp (trace run.2) <= 1).
    { destruct run as [[[]| | |] w']; cbn [snd]; destruct Hrun as [Hrun _];
        try apply (Hrun Hw); apply cacheExact_atMostOnce, Hrun, Hw. }
    split; [exact Hmost|]. intros Hok.
    assert (Hsteps : is_Some (rotateCache run.2 !! rp) /\
                     exists sec, srvWrite srv (trace (record (ELog (LogRotating rp)) w))
                                          rp None = inr sec).
    { subst run step1 step2. rewrite bind_run in Hok |- *.
      pose proof (rotateIfNeeded_first se1 option1 configPath1 name1 rp w Hitem1 Hc)
        as H1.
      cbv zeta in H1. rewrite H1 in Hok |- *.
      destruct (srvWrite srv (trace (record (ELog (LogRotating rp)) w)) rp None)
        as [err|sec]; [discriminate Hok|].
      split; [|exists sec; reflexivity].
      cbn beta iota in Hok |- *.
      match goal with |- context [(between ≫= _) ?w3] => set (w3' := w3) in * end.
      assert (H3 : is_Some (rotateCache w3' !! rp)).
      { subst w3'. cbn [rotateCache]. rewrite lookup_insert_eq. eauto. }
      rewrite bind_run in Hok |- *. pose proof (Hbetween w3') as Hb.
      destruct (between w3') as [[a| | |] w4]; try discriminate Hok.
      cbn beta iota in Hok |- *.
      destruct Hb as [_ Hgrow]. specialize (Hgrow rp H3).
      rewrite (rotateIfNeeded_later se2 option2 configPath2 name2 rp w4 Hitem2 Hgrow).
      exact Hgrow. }
    destruct Hsteps as [Hin Hsec]. split; [|split; [exact Hin | exact Hsec]].
    destruct run as [[[]| | |] w']; try discriminate Hok. cbn [fst snd] in *.
    destruct Hrun as [Hrun _]. rewrite (Hrun Hw rp).
    destruct Hin as [b ->]. reflexivity.
  - intros Hw r. subst r. pose proof (pass_once srv lib cfg w) as H.
    destruct (configureSecretsEngines srv lib cfg w) as [[[]| | |] w']; simpl;
      destruct H as [H G]; (split; [|split; [exact G|]]);
      try (intros; discriminate); auto using cacheExact_atMostOnce.
Qed.

End RotatedOnce.

Lemma existing_item_is_skipped_witness :
  extends noPayload Scenario.start
    (applyItem Scenario.databaseServer Scenario.yaml Scenario.database true "config"
               Scenario.postgres Scenario.start).2.
Proof.
  destruct (existing_item_is_skipped Scenario.databaseServer Scenario.yaml
              Scenario.database "config" Scenario.postgres Scenario.start) as [H _].
  { left. eexists. reflexivity. }
  apply H.
  - reflexivity.
  - unfold alreadyExists. simpl. eexists. reflexivity.
Defined.

(** The database connection is declared with rotate, its engine is
    mounted and its config path holds data: the pass logs the skip with the
    reason rotate, does not write the connection, and writes to the rotation
    endpoint. *)
Lemma rotate_item_writes_rotation_endpoint :
  let r := configureSecretsEngines Scenario.databaseServer Scenario.yaml
             Scenario.databaseOnly Scenario.start in
  Cast.ToBool (Scenario.postgres !! "rotate") = true /\
  r.1 = Ok tt /\
  logged (trace r.2) =
    [LogExistingMounts [("database/", Scenario.mount "database_6f")];
     LogTuning "database";
     LogAlreadyExists "database/config/pg" "rotate";
     LogRotating "database/rotate-root/pg";
     LogRotated "database/rotate-root/pg"] /\
  writtenPaths (trace r.2) = ["database/rotate-root/pg"].
Proof. vm_compute. repeat split; reflexivity. Qed.

(** A root certificate declared with create_only and save_to under a
    fresh mount: no probe, the item is written without its control keys, and
    the answer of the write is saved at the save_to path. *)
Example fresh_mount_writes_and_saves :
  let r := configureSecretsEngines Scenario.signing Scenario.yaml Scenario.pkiRootOnly
             Scenario.start in
  r.1 = Ok tt /\
  omap (fun e => match e with EWrite p d => Some (p, d) | _ => None end) (trace r.2) =
    [("pki/root/generate/internal",
      Some {["name" := VStr "internal"; "common_name" := VStr "vault.example";
             "allowed_domains" := VList []]});
     ("secret/data/pki/root", Some (NewData 0 (Some Scenario.certificate)))] /\
  omap (fun e => match e with ERead p | ERawGet p => Some p | _ => None end) (trace r.2)
    = [].
Proof. vm_compute. repeat split; reflexivity. Qed.

(** Scenario C of the specification: a create-only roleset under a mount
    that is there already, with data at its config path.  The pass reads the
    config path, logs the skip with the reason create_only and writes
    nothing. *)
Example lifecycle_scenario_C :
  let r := configureSecretsEngines Scenario.gcpServer Scenario.yaml
             Scenario.gcpOnly Scenario.start in
  r.1 = Ok tt /\
  writtenPaths (trace r.2) = [] /\
  logged (trace r.2) =
    [LogExistingMounts [("gcp/", Scenario.mount "gcp_7a")];
     LogTuning "gcp";
     LogAlreadyExists "gcp/roleset/deploy" "create_only"].
Proof. vm_compute. repeat split; reflexivity. Qed.

(** Scenario B of the specification: the engine is absent, mounting it
    fails twice and then succeeds.  Three attempts, waits of 500ms and 1s
    between them, and no other call that changes the server. *)
Example retry_scenario_B :
  let r := configureSecretsEngines Scenario.mountRefusedTwice Scenario.yaml
             (Scenario.kvOnly false) Scenario.start in
  r.1 = Ok tt /\
  mountedPaths (trace r.2) = ["kv"; "kv"; "kv"] /\
  sleepsOf (trace r.2) = [500 * Backoff.Millisecond; 1 * Backoff.Second]%Z /\
  tunedPaths (trace r.2) = [] /\ writtenPaths (trace r.2) = [] /\
  unmountedPaths (trace r.2) = [].
Proof. vm_compute. repeat split; reflexivity. Qed.

Lemma rotation_once_per_path_witness :
  let item := rotateIfNeeded Scenario.databaseServer Scenario.database true true "config"
                             "database/config/pg" (Some (VStr "pg")) in
  let between :=
    decodeSubConfig Scenario.yaml (VMap Scenario.postgres) []
    ≫= fun _ => shouldUpdate Scenario.databaseServer Scenario.database true false true
                             "config" "database/config/pg" in
  rotationWrites "database/rotate-root/pg"
    (trace ((item;; between;; item) Scenario.start).2) = 1.
Proof.
  intros item between.
  destruct (rotation_once_per_path Scenario.databaseServer Scenario.yaml
              Scenario.databaseOnly Scenario.database Scenario.database "config" "config"
              Scenario.postgres Scenario.postgres "database/rotate-root/pg" Scenario.start
              eq_refl eq_refl) as (_ & _ & _ & Htwo & _).
  destruct (Htwo bool between) as (_ & Hok).
  - assert (Hrec : forall e, notWrite e -> accepts onceR e).
    { intros e He. apply onceR_record. destruct e; try exact I; destruct He. }
    apply obeys_bind; try apply onceR_trans; try apply onceRS_trans.
    + apply decodeSubConfig_obeys;
        [apply onceR_refl | apply onceR_trans | apply onceR_onceS | apply onceRS_trans
        | exact Hrec].
    + intros _. apply shouldUpdate_obeys;
        [apply onceR_refl | apply onceR_trans | apply onceR_onceS | apply onceRS_trans
        | exact Hrec].
  - intros p. simpl. rewrite lookup_empty. reflexivity.
  - reflexivity.
  - apply Hok. vm_compute. reflexivity.
Defined.

(** The database connection declared twice in one pass: both items are
    skipped because the connection exists, the first rotates, the second
    finds the endpoint in the cache. *)
Example two_items_rotate_once :
  let r := configureSecretsEngines Scenario.databaseServer Scenario.yaml
             Cases.databaseTwice Scenario.start in
  r.1 = Ok tt /\
  writtenPaths (trace r.2) = ["database/rotate-root/pg"] /\
  logged (trace r.2) =
    [LogExistingMounts [("database/", Scenario.mount "database_6f")];
     LogTuning "database";
     LogAlreadyExists "database/config/pg" "rotate";
     LogRotating "database/rotate-root/pg";
     LogRotated "database/rotate-root/pg";
     LogAlreadyExists "database/config/pg" "rotate";
     LogRotatedPreviously "database/rotate-root/pg"].
Proof. vm_compute. repeat split; reflexivity. Qed.

Lemma missing_name_fatal_iff_not_exempt_witness :
  applyItem Scenario.quiet Scenario.yaml Scenario.pki false "roles"
            Scenario.roleWithoutName Scenario.start
  = (Fail (namingError Scenario.pki "roles"), Scenario.start).
Proof.
  destruct (missing_name_fatal_iff_not_exempt Scenario.quiet Scenario.yaml Scenario.pki
              false "roles" Scenario.roleWithoutName Scenario.start eq_refl)
    as (_ & Hfatal & _).
  apply Hfatal. reflexivity.
Defined.

(** A PKI role without a name ends the pass: the engine is mounted, the
    role is not written, and the pass returns the missing-name error. *)
Example missing_name_ends_the_pass :
  let r := configureSecretsEngines Scenario.quiet Scenario.yaml Scenario.pkiOnly
             Scenario.start in
  r.1 = Fail (ErrWrap (namingError Scenario.pki "roles") "error adding secrets engines") /\
  mountedPaths (trace r.2) = ["pki"] /\
  writtenPaths (trace r.2) = [].
Proof. vm_compute. repeat split; reflexivity. Qed.

Lemma nil_name_is_not_missing_witness :
  applyItem Scenario.quiet Scenario.yaml Scenario.pki false "roles"
            Scenario.roleNilName Scenario.start
  = applyAt Scenario.quiet Scenario.pki false "roles" None "pki/roles"
            (stringKeyed <$> Scenario.roleNilName) Scenario.start.
Proof.
  destruct (nil_name_is_not_missing Scenario.quiet Scenario.yaml Scenario.pki false
              "roles" Scenario.roleNilName Scenario.start eq_refl) as (Hrun & _ & _).
  exact Hrun.
Defined.

(** ** The retry loops return *)

Section Termination.

Variable srv : Server.
Variable lib : Decoders.
Variable cfg : externalConfig.

Lemma waitAt_ceiling (k : nat) : 7 <= k -> waitAt k = (60 * Backoff.Second)%Z.
Proof.
  intros Hk. unfold waitAt, Backoff.ForAttempt, newBackoff. cbn -[Z.pow Z.mul].
  assert (Hpow : (2 ^ 7 <= 2 ^ Z.of_nat k)%Z) by (apply Z.pow_le_mono_r; lia).
  change (2 ^ 7)%Z with 128%Z in Hpow.
  unfold Backoff.maxInt64, Backoff.Second, Backoff.Millisecond.
  repeat match goal with
         | |- context [(?a <=? ?b)%Z] => destruct (Z.leb_spec a b); try lia
         | |- context [(?a <? ?b)%Z] => destruct (Z.ltb_spec a b); try lia
         end.
Qed.

Lemma mountRetry_returns (path : string) (input : MountInput) :
  forall fuel k w,
    7 <= fuel + k ->
    match (mountRetry srv (S fuel) path input (backoffAt k) w).1 with
    | Ok b => b = newBackoff
    | OutOfFuel => False
    | _ => True
    end.
Proof.
  induction fuel as [|fuel IH]; intros k w Hk;
    (destruct (srvMount srv (trace w) path input) as [e|] eqn:He;
     [rewrite (mountRetry_failed srv _ _ _ _ _ _ He); cbn zeta
     |rewrite (mountRetry_succeeded srv _ _ _ _ _ He); reflexivity]);
    destruct (decide (waitAt k = 60 * Backoff.Second)%Z) as [|Hne]; try exact I.
  - exfalso. apply Hne, waitAt_ceiling. lia.
  - apply IH. lia.
Qed.

Lemma tuneRetry_returns (path : string) (c : MountConfigInput) :
  forall fuel k w,
    6 <= 3 * fuel + k ->
    match (tuneRetry srv (S fuel) path c (backoffAt k) w).1 with
    | Ok b => b = newBackoff
    | OutOfFuel => False
    | _ => True
    end.
Proof.
  induction fuel as [|fuel IH]; intros k w Hk;
    (destruct (srvTuneMount srv (trace w) path c) as [e|] eqn:He;
     [rewrite (tuneRetry_failed srv _ _ _ _ _ _ He); cbn zeta
     |rewrite (tuneRetry_succeeded srv _ _ _ _ _ He); reflexivity]);
    destruct (decide (waitAt (S k) = 60 * Backoff.Second)%Z) as [|Hne]; try exact I.
  - exfalso. apply Hne, waitAt_ceiling. lia.
  - apply IH. lia.
Qed.

Lemma returns_bind {A B} (m : M A) (f : A -> M B) :
  returns m -> (forall a, returns (f a)) -> returns (m ≫= f).
Proof.
  intros Hm Hf w. rewrite bind_run. specialize (Hm w).
  destruct (m w) as [[a| | |] w1]; simpl in *; try discriminate.
  - apply Hf.
  - exfalso. apply Hm. reflexivity.
Qed.

Lemma returns_wrapErr {A} (m : M A) (wrap : error -> error) :
  returns m -> returns (m !> wrap).
Proof.
  intros Hm w. unfold wrapErr. specialize (Hm w).
  destruct (m w) as [[a| | |] w1]; simpl in *; try discriminate. exact Hm.
Qed.

Lemma returns_try {A} (m : M A) : returns m -> returns (try m).
Proof.
  intros Hm w. unfold try. specialize (Hm w).
  destruct (m w) as [[a| | |] w1]; simpl in *; try discriminate.
  exfalso. apply Hm. reflexivity.
Qed.

Lemma returns_forM {A} (l : list A) (f : A -> M unit) :
  (forall x, returns (f x)) -> returns (forM_ l f).
Proof.
  intros Hf. induction l as [|x l IH]; simpl.
  - intros w. discriminate.
  - apply returns_bind; auto.
Qed.

Lemma returns_traverse {A B} (f : A -> M B) (l : list A) :
  (forall x, returns (f x)) -> returns (traverse f l).
Proof.
  intros Hf. induction l as [|x l IH]; simpl.
  - intros w. discriminate.
  - apply returns_bind; [auto|]. intros y. apply returns_bind; [auto|].
    intros ys w. discriminate.
Qed.

Ltac back :=
  repeat (first
    [ simple apply returns_bind; [|intros ?]
    | simple apply returns_wrapErr
    | simple apply returns_try
    | simple apply returns_forM; intros ?
    | simple apply returns_traverse; intros ?
    | match goal with |- returns (match ?x with _ => _ end) => destruct x end
    | solve [intros ?; discriminate] ]).

Lemma replaceAccessor_returns (input : string) (mounts : Mounts) :
  returns (replaceAccessor input mounts).
Proof. induction mounts as [|[k v] rest IH]; simpl; back. exact IH. Qed.

Lemma applyItem_returns (se : secretEngine) (present : bool) (configOption : string)
    (d : gmap string value) :
  returns (applyItem srv lib se present configOption d).
Proof.
  unfold applyItem, applyAt, shouldUpdate, secretExists, writeConfig, rotateIfNeeded,
    rotateSecretEngineCredentials, writeWithWarningCheck. back.
Qed.

Lemma processOption_returns (se : secretEngine) (present : bool) (mounts : Mounts)
    (entry : string * value) :
  returns (processOption srv lib se present mounts entry).
Proof.
  unfold processOption, processItem, decodeSubConfig. back.
  - apply replaceAccessor_returns.
  - apply applyItem_returns.
Qed.

Lemma ensureMount_resets (se : secretEngine) (present : bool) (c : MountConfigInput) :
  resets (ensureMount srv se present c newBackoff).
Proof.
  intros w. unfold ensureMount, retryFuel. destruct present; cbn [negb];
    rewrite !bind_run; unfold log at 1, emit at 1; cbn beta iota.
  - apply (tuneRetry_returns _ _ 15 0). lia.
  - rewrite bind_run. unfold log at 1, emit at 1. cbn beta iota.
    apply (mountRetry_returns _ _ 15 0). lia.
Qed.

Lemma resets_bind {A} (m : M A) (f : A -> M Backoff.t) :
  returns m -> (forall a, resets (f a)) -> resets (m ≫= f).
Proof.
  intros Hm Hf w. rewrite bind_run. specialize (Hm w).
  destruct (m w) as [[a| | |] w1]; simpl in *; try exact I.
  - apply Hf.
  - apply Hm. reflexivity.
Qed.

Lemma resets_then (m : M Backoff.t) (k : M unit) :
  resets m -> returns k -> resets (b ← m; k;; mret b).
Proof.
  intros Hm Hk w. rewrite bind_run. specialize (Hm w).
  destruct (m w) as [[b| | |] w1]; simpl in *; try exact I; try contradiction.
  rewrite bind_run. specialize (Hk w1).
  destruct (k w1) as [[[]| | |] w2]; simpl in *; try exact I; try exact Hm.
  apply Hk. reflexivity.
Qed.

Lemma processEngine_resets (se : secretEngine) (mounts : Mounts) :
  resets (processEngine srv lib se mounts newBackoff).
Proof.
  unfold processEngine. apply resets_bind.
  - unfold mountExists. back.
  - intros present. destruct (getMountConfigInput lib se) as [e|c]; [intros w; exact I|].
    apply resets_then; [apply ensureMount_resets|].
    apply returns_forM. intros entry. apply processOption_returns.
Qed.

Lemma addEngines_resets (managed : list secretEngine) (mounts : Mounts) :
  resets (addEngines srv lib managed mounts newBackoff).
Proof.
  induction managed as [|se rest IH]; intros w; simpl; [reflexivity|].
  rewrite bind_run. pose proof (processEngine_resets se mounts w) as H.
  destruct (processEngine srv lib se mounts newBackoff w) as [[b| | |] w1]; simpl in H;
    try exact I; try contradiction.
  subst b. apply IH.
Qed.

(** The fuel of the retry loops is never used up: whatever the server
    answers, a pass returns, fails or panics. *)
Lemma retry_fuel_suffices : returns (configureSecretsEngines srv lib cfg).
Proof.
  unfold configureSecretsEngines. apply returns_bind; [back|].
  intros [e|auths]; [back|].
  apply returns_bind;
    [unfold getUnmanagedSecretsEngines, getExistingSecretsEngines; back|].
  intros unmanaged. apply returns_bind.
  - apply returns_wrapErr. unfold addManagedSecretsEngines.
    apply returns_bind; [|back]. intros w.
    pose proof (addEngines_resets (initSecretsEnginesConfig (Secrets cfg)) auths w) as H.
    destruct (addEngines srv lib _ auths newBackoff w) as [[b| | |] w1]; simpl in *;
      try discriminate; contradiction.
  - intros _. apply returns_wrapErr.
    unfold removeUnmanagedSecretsEngines, unmountOne. back.
Qed.

End Termination.

(** * Further properties *)

(** ** Paths and their separators *)

Section Strings.

Lemma Contains_cons (c : ascii) (s sub : string) :
  Contains (String c s) sub = String.prefix sub (String c s) || Contains s sub.
Proof. cbn [Contains]. destruct (String.prefix sub (String c s)); reflexivity. Qed.

Lemma prefix_app_l (a b s : string) :
  String.prefix (a +:+ b) s = true -> String.prefix a s = true.
Proof.
  revert s. induction a as [|x a IH]; intros s H; [destruct s; reflexivity|].
  destruct s as [|y s]; [discriminate H|]. simpl in *.
  destruct (Ascii.ascii_dec x y); [apply IH, H | discriminate H].
Qed.

(** A string that contains [a +:+ b] contains [a]. *)
Lemma Contains_app_l (s a b : string) :
  Contains s (a +:+ b) = true -> Contains s a = true.
Proof.
  induction s as [|c s IH].
  - cbn [Contains]. destruct (String.prefix (a +:+ b) EmptyString) eqn:Hp; [|discriminate].
    intros _. rewrite (prefix_app_l _ _ _ Hp). reflexivity.
  - rewrite !Contains_cons. intros H. apply orb_true_iff in H as [H|H].
    + rewrite (prefix_app_l _ _ _ H). reflexivity.
    + rewrite (IH H). apply orb_true_r.
Qed.

Lemma prefix_slash (c : ascii) (s : string) :
  String.prefix "/" (String c s) = Ascii.eqb c "/".
Proof.
  change (String.prefix "/" (String c s))
    with (if Ascii.ascii_dec "/" c then String.prefix EmptyString s else false).
  destruct (Ascii.ascii_dec "/" c) as [<-|Hne].
  - destruct s; reflexivity.
  - symmetry. apply Ascii.eqb_neq. congruence.
Qed.

Lemma TrimLeft_first (s : string) : String.prefix "/" (TrimLeft s "/") = false.
Proof.
  induction s as [|c s IH]; [reflexivity|]. cbn [TrimLeft oneOf].
  destruct (Ascii.eqb c "/") eqn:Hc; [exact IH|].
  rewrite prefix_slash. exact Hc.
Qed.

Lemma TrimRight_last (s : string) : lastIs "/" (TrimRight s "/") = false.
Proof.
  induction s as [|c s IH]; [reflexivity|]. cbn [TrimRight oneOf].
  destruct (TrimRight s "/") as [|a r].
  - destruct (Ascii.eqb c "/") eqn:Hc; [reflexivity | exact Hc].
  - exact IH.
Qed.

Lemma TrimRight_first (s : string) :
  String.prefix "/" s = false -> String.prefix "/" (TrimRight s "/") = false.
Proof.
  destruct s as [|c s]; [reflexivity|]. rewrite prefix_slash. intros Hc.
  cbn [TrimRight oneOf]. rewrite Hc.
  destruct (TrimRight s "/") as [|a r]; rewrite prefix_slash; exact Hc.
Qed.

Lemma Trim_edgeFree (s : string) : edgeFree (Trim s "/").
Proof.
  split; [apply TrimRight_first, TrimLeft_first | apply TrimRight_last].
Qed.

Lemma TrimLeft_fixed (s : string) : String.prefix "/" s = false -> TrimLeft s "/" = s.
Proof.
  destruct s as [|c s]; [reflexivity|]. rewrite prefix_slash. intros Hc.
  cbn [TrimLeft oneOf]. rewrite Hc. reflexivity.
Qed.

Lemma TrimRight_fixed (s : string) : lastIs "/" s = false -> TrimRight s "/" = s.
Proof.
  induction s as [|c s IH]; [reflexivity|]. cbn [TrimRight oneOf lastIs].
  destruct s as [|a r].
  - cbn [TrimRight]. intros ->. reflexivity.
  - intros H. rewrite (IH H). reflexivity.
Qed.

Lemma Trim_fixed (s : string) : edgeFree s -> Trim s "/" = s.
Proof.
  intros [H1 H2]. unfold Trim. rewrite (TrimLeft_fixed _ H1). apply TrimRight_fixed, H2.
Qed.

End Strings.

(** ** The declared paths *)

Section Normalization.

Lemma init_fixed (se : secretEngine) :
  normalizedPath se <> EmptyString ->
  normalizedPath (setPath (normalizedPath se) se) = normalizedPath se.
Proof.
  intros Hne. unfold normalizedPath at 1. cbn [Path Type_ setPath].
  destruct (decide (normalizedPath se = EmptyString)); [contradiction|].
  apply Trim_fixed, Trim_edgeFree.
Qed.

(** X1. [initSecretsEnginesConfig] keeps the engines, their order and all
    their fields but the path; the path becomes the declared path, or the
    type when no path is declared, without leading and trailing separators.
    Normalizing again changes nothing as long as no path came out empty. *)
Theorem normalization_normal_form (configs : list secretEngine) :
  initSecretsEnginesConfig configs
    = (fun se => setPath (normalizedPath se) se) <$> configs /\
  Forall (fun se => edgeFree (Path se)) (initSecretsEnginesConfig configs) /\
  (Forall (fun se => normalizedPath se <> EmptyString) configs ->
   initSecretsEnginesConfig (initSecretsEnginesConfig configs)
     = initSecretsEnginesConfig configs).
Proof.
  assert (Hmap : forall l, initSecretsEnginesConfig l
                           = (fun se => setPath (normalizedPath se) se) <$> l).
  { induction l as [|se l IH]; [reflexivity|].
    cbn [initSecretsEnginesConfig]. rewrite IH. reflexivity. }
  split; [apply Hmap|]. split.
  - rewrite Hmap. apply Forall_fmap. apply Forall_forall. intros se _.
    apply Trim_edgeFree.
  - intros Hne. induction Hne as [|se l Hse _ IH]; [reflexivity|].
    cbn [initSecretsEnginesConfig]. rewrite IH. f_equal.
    pose proof (init_fixed se Hse) as Hfix. unfold normalizedPath in Hfix at 1.
    cbn [Path Type_ setPath] in Hfix. fold (normalizedPath se).
    cbn [Path Type_ setPath]. rewrite Hfix. reflexivity.
Qed.

End Normalization.

Lemma normalization_normal_form_witness :
  initSecretsEnginesConfig (initSecretsEnginesConfig [Scenario.kv])
  = initSecretsEnginesConfig [Scenario.kv].
Proof.
  apply (normalization_normal_form [Scenario.kv]).
  repeat constructor. discriminate.
Defined.

(** A path made of separators only comes out empty, and a second
    normalization would replace it by the type. *)
Example normalization_of_a_bare_separator :
  let se := Scenario.engine "/" "kv" [] ∅ in
  Path <$> initSecretsEnginesConfig [se] = [EmptyString] /\
  Path <$> initSecretsEnginesConfig (initSecretsEnginesConfig [se]) = ["kv"].
Proof. split; reflexivity. Qed.

(** ** Accessor templates *)

Section Templates.

Lemma replaceAccessor_skip (input : string) (mid post : Mounts) (k : string)
    (v : MountOutput) (w : World) :
  Contains input (accessorToken k) = false ->
  replaceAccessor input (mid ++ (k, v) :: post) w = replaceAccessor input (mid ++ post) w.
Proof.
  intros Hk. induction mid as [|[k' v'] mid IH]; simpl.
  - simpl in Hk. rewrite Hk. reflexivity.
  - destruct (Contains input (accessorToken k')); [reflexivity | exact IH].
Qed.

(** A string in which no token of the map occurs comes back as it is. *)
Lemma replaceAccessor_absent (input : string) (mounts : Mounts) (w : World) :
  Forall (fun kv => Contains input (accessorToken kv.1) = false) mounts ->
  replaceAccessor input mounts w = (Ok input, w).
Proof.
  induction 1 as [|[k v] rest Hk _ IH]; [reflexivity|].
  cbn [replaceAccessor]. cbn [fst] in Hk. rewrite Hk. exact IH.
Qed.

(** X2. A string without the marker is left alone: whatever the accessor
    map holds, the string comes back as it is and nothing is logged. *)
Theorem unmarked_string_untouched (input : string) (mounts : Mounts) (w : World) :
  Contains input "__accessor__" = false ->
  replaceAccessor input mounts w = (Ok input, w).
Proof.
  intros H. induction mounts as [|[k v] rest IH]; [reflexivity|].
  cbn [replaceAccessor].
  destruct (Contains input (accessorToken k)) eqn:Hk; [|exact IH].
  apply (Contains_app_l input "__accessor__" (TrimRight k "/")) in Hk. congruence.
Qed.

(** X3. An entry is shadowed by every earlier entry whose path, without
    trailing separators, is a prefix of its own: taking the later entry out
    of the map changes neither the result nor the log. *)
Theorem shadowed_entry_is_dead (input : string) (pre mid post : Mounts)
    (k1 k2 rest : string) (v1 v2 : MountOutput) (w : World) :
  TrimRight k2 "/" = TrimRight k1 "/" +:+ rest ->
  replaceAccessor input (pre ++ (k1, v1) :: mid ++ (k2, v2) :: post) w
  = replaceAccessor input (pre ++ (k1, v1) :: mid ++ post) w.
Proof.
  intros Hpre. induction pre as [|[k v] pre IH]; simpl.
  - destruct (Contains input (accessorToken k1)) eqn:H1; [reflexivity|].
    apply replaceAccessor_skip.
    destruct (Contains input (accessorToken k2)) eqn:H2; [|reflexivity].
    unfold accessorToken in H2. rewrite Hpre in H2.
    change ("__accessor__" +:+ (TrimRight k1 "/" +:+ rest))
      with (accessorToken k1 +:+ rest) in H2.
    apply Contains_app_l in H2. congruence.
  - destruct (Contains input (accessorToken k)); [reflexivity | exact IH].
Qed.

End Templates.

Lemma unmarked_string_untouched_witness :
  replaceAccessor "*.example.com" Scenario.auths Scenario.start
  = (Ok "*.example.com", Scenario.start).
Proof. apply unmarked_string_untouched. reflexivity. Defined.

Lemma shadowed_entry_is_dead_witness :
  replaceAccessor "__accessor__github-enterprise"
    [("github/", Scenario.mount "auth_github_0a1b");
     ("github-enterprise/", Scenario.mount "auth_github_9z")] Scenario.start
  = replaceAccessor "__accessor__github-enterprise"
      [("github/", Scenario.mount "auth_github_0a1b")] Scenario.start.
Proof.
  apply (shadowed_entry_is_dead "__accessor__github-enterprise" [] [] [] "github/"
           "github-enterprise/" "-enterprise" _ _ Scenario.start).
  reflexivity.
Defined.

(** ** The write of an item *)

Section Writes.

Variable srv : Server.
Variable lib : Decoders.

Lemma applyItem_named (se : secretEngine) (present : bool) (configOption : string)
    (data : gmap string value) (w : World) :
  is_Some (data !! "name") \/ configNeedsNoName (Type_ se) configOption = true ->
  applyItem srv lib se present configOption data w =
  (update ← shouldUpdate srv se present (Cast.ToBool (data !! "create_only"))
                         (Cast.ToBool (data !! "rotate")) configOption
                         (configPathOf lib (Path se) configOption (data !! "name"));
   goOn ← (if update : bool
           then writeConfig srv (configPathOf lib (Path se) configOption (data !! "name"))
                            (Cast.ToString (data !! "save_to"))
                            (stripControl (stringKeyed <$> data))
           else mret true);
   if goOn : bool
   then rotateIfNeeded srv se present (Cast.ToBool (data !! "rotate")) configOption
                       (configPathOf lib (Path se) configOption (data !! "name"))
                       (data !! "name")
   else mret tt) w.
Proof.
  intros Hname. unfold applyItem. rewrite (named_or_exempt _ _ _ Hname).
  cbn [andb]. rewrite applyAt_flags. reflexivity.
Qed.

(** An item that is due goes on with its write. *)
Lemma applyItem_due (se : secretEngine) (present : bool) (configOption : string)
    (data : gmap string value) (w w0 : World) :
  is_Some (data !! "name") \/ configNeedsNoName (Type_ se) configOption = true ->
  due srv se present (Cast.ToBool (data !! "create_only") || Cast.ToBool (data !! "rotate"))
      configOption (configPathOf lib (Path se) configOption (data !! "name")) w w0 ->
  applyItem srv lib se present configOption data w =
  (goOn ← writeConfig srv (configPathOf lib (Path se) configOption (data !! "name"))
                      (Cast.ToString (data !! "save_to"))
                      (stripControl (stringKeyed <$> data));
   if goOn : bool
   then rotateIfNeeded srv se present (Cast.ToBool (data !! "rotate")) configOption
                       (configPathOf lib (Path se) configOption (data !! "name"))
                       (data !! "name")
   else mret tt) w0.
Proof.
  intros Hname Hdue. rewrite (applyItem_named _ _ _ _ _ Hname).
  rewrite bind_run. unfold shouldUpdate, due in *.
  destruct ((Cast.ToBool (data !! "create_only") || Cast.ToBool (data !! "rotate"))
            && present); [|subst w0; reflexivity].
  destruct Hdue as [Hno ->]. rewrite bind_run.
  unfold secretExists, notFound, probeOf in *.
  destruct (decide (configOption = "root/generate")).
  - destruct Hno as (status & Hst & Hne). rewrite bind_run. unfold call at 1.
    cbn beta iota. rewrite Hst. cbn. rewrite bool_decide_eq_false_2 by exact Hne.
    reflexivity.
  - rewrite bind_run. unfold call at 1. cbn beta iota.
    destruct Hno as [-> | ->]; reflexivity.
Qed.

(** The write of an item, by the answer of the server. *)
Lemma writeConfig_run (configPath saveTo : string) (d : gmap string value) (w : World) :
  writeConfig srv configPath saveTo d w =
  let w1 := record (EWrite configPath (Some d)) w in
  match srvWrite srv (trace w) configPath (Some d) with
  | inl err =>
      if isOverwriteProhibitedError err
      then (Ok false, record (ELog (LogCantReconfigure configPath)) w1)
      else (Fail (ErrWrap err ("error configuring " +:+ configPath +:+ " config in vault")),
            w1)
  | inr sec =>
      if decide (saveTo = EmptyString) then (Ok true, w1)
      else match sec with
           | None => (Panic "nil pointer dereference", w1)
           | Some sec =>
               let saved := Some (NewData 0 (Data sec)) in
               match srvWrite srv (trace w1) saveTo saved with
               | inl err =>
                   (Fail (ErrWrap err ("error saving secret in vault to " +:+ saveTo)),
                    record (EWrite saveTo saved) w1)
               | inr _ => (Ok true, record (EWrite saveTo saved) w1)
               end
           end
  end.
Proof.
  unfold writeConfig, writeWithWarningCheck. run.
  destruct (srvWrite srv (trace w) configPath (Some d)) as [e|sec]; simpl.
  - destruct (isOverwriteProhibitedError e); reflexivity.
  - destruct (decide (saveTo = EmptyString)); [reflexivity|].
    destruct sec as [sec|]; [|reflexivity]. simpl.
    destruct (srvWrite srv _ saveTo _); reflexivity.
Qed.

(** X4. A write that the server refuses because the resource must be
    deleted before it is configured again does not end the pass: the refusal
    is logged and the item is left, without its save_to write and without
    its rotation. *)
Theorem conflict_skips_item (se : secretEngine) (present : bool) (configOption : string)
    (data : gmap string value) (w w0 : World) (err : error) :
  let name := data !! "name" in
  let configPath := configPathOf lib (Path se) configOption name in
  let flagged := Cast.ToBool (data !! "create_only") || Cast.ToBool (data !! "rotate") in
  let d := stripControl (stringKeyed <$> data) in
  is_Some name \/ configNeedsNoName (Type_ se) configOption = true ->
  due srv se present flagged configOption configPath w w0 ->
  srvWrite srv (trace w0) configPath (Some d) = inl err ->
  isOverwriteProhibitedError err = true ->
  applyItem srv lib se present configOption data w =
  (Ok tt, record (ELog (LogCantReconfigure configPath))
                 (record (EWrite configPath (Some d)) w0)).
Proof.
  intros name configPath flagged d Hname Hdue Hw Herr.
  rewrite (applyItem_due _ _ _ _ _ _ Hname Hdue), bind_run, writeConfig_run.
  cbv zeta. fold name configPath d. rewrite Hw, Herr. reflexivity.
Qed.

(** X5. Any other refusal of the item's write ends the pass with the
    error of the server in the context of the config path; nothing is sent
    after the refused write. *)
Theorem refused_write_is_fatal (se : secretEngine) (present : bool) (configOption : string)
    (data : gmap string value) (w w0 : World) (err : error) :
  let name := data !! "name" in
  let configPath := configPathOf lib (Path se) configOption name in
  let flagged := Cast.ToBool (data !! "create_only") || Cast.ToBool (data !! "rotate") in
  let d := stripControl (stringKeyed <$> data) in
  is_Some name \/ configNeedsNoName (Type_ se) configOption = true ->
  due srv se present flagged configOption configPath w w0 ->
  srvWrite srv (trace w0) configPath (Some d) = inl err ->
  isOverwriteProhibitedError err = false ->
  applyItem srv lib se present configOption data w =
  (Fail (ErrWrap err ("error configuring " +:+ configPath +:+ " config in vault")),
   record (EWrite configPath (Some d)) w0).
Proof.
  intros name configPath flagged d Hname Hdue Hw Herr.
  rewrite (applyItem_due _ _ _ _ _ _ Hname Hdue), bind_run, writeConfig_run.
  cbv zeta. fold name configPath d. rewrite Hw, Herr. reflexivity.
Qed.

(** X6. An item with a save_to path: the data of the secret that the
    server answers to the item's write is written to the save_to path as a
    KV version 2 payload with cas 0, right after the item's write; a refusal
    of that second write ends the pass, and the rotation step follows only
    when it succeeded. *)
Theorem answer_is_saved (se : secretEngine) (present : bool) (configOption : string)
    (data : gmap string value) (w w0 : World) (sec : Secret) :
  let name := data !! "name" in
  let configPath := configPathOf lib (Path se) configOption name in
  let flagged := Cast.ToBool (data !! "create_only") || Cast.ToBool (data !! "rotate") in
  let saveTo := Cast.ToString (data !! "save_to") in
  let d := stripControl (stringKeyed <$> data) in
  let saved := Some (NewData 0 (Data sec)) in
  let w1 := record (EWrite configPath (Some d)) w0 in
  let w2 := record (EWrite saveTo saved) w1 in
  is_Some name \/ configNeedsNoName (Type_ se) configOption = true ->
  due srv se present flagged configOption configPath w w0 ->
  srvWrite srv (trace w0) configPath (Some d) = inr (Some sec) ->
  saveTo <> EmptyString ->
  applyItem srv lib se present configOption data w =
  match srvWrite srv (trace w1) saveTo saved with
  | inl err => (Fail (ErrWrap err ("error saving secret in vault to " +:+ saveTo)), w2)
  | inr _ =>
      rotateIfNeeded srv se present (Cast.ToBool (data !! "rotate")) configOption
                     configPath name w2
  end.
Proof.
  intros name configPath flagged saveTo d saved w1 w2 Hname Hdue Hw Hsave.
  rewrite (applyItem_due _ _ _ _ _ _ Hname Hdue), bind_run, writeConfig_run.
  cbv zeta. fold name configPath d saveTo. rewrite Hw.
  destruct (decide (saveTo = EmptyString)); [contradiction|].
  fold saved w1. destruct (srvWrite srv (trace w1) saveTo saved); reflexivity.
Qed.

(** X7. A flagged item under a mount that was there before the pass whose
    probe is refused: the pass ends with the error of the probe, and the
    item is not written. *)
Theorem refused_probe_is_fatal (se : secretEngine) (configOption : string)
    (data : gmap string value) (w : World) (err : error) :
  let name := data !! "name" in
  let configPath := configPathOf lib (Path se) configOption name in
  is_Some name \/ configNeedsNoName (Type_ se) configOption = true ->
  Cast.ToBool (data !! "create_only") || Cast.ToBool (data !! "rotate") = true ->
  probeRefused srv se configOption configPath (trace w) err ->
  applyItem srv lib se true configOption data w =
  (Fail (probeError configOption configPath err),
   record (probeOf se configOption configPath) w).
Proof.
  intros name configPath Hname Hflag Hprobe.
  rewrite (applyItem_named _ _ _ _ _ Hname). fold name configPath.
  rewrite bind_run. unfold shouldUpdate. rewrite Hflag. cbn [andb].
  rewrite bind_run. unfold secretExists, probeRefused, probeError, probeOf in *.
  destruct (decide (configOption = "root/generate")).
  - rewrite bind_run. unfold call at 1. cbn beta iota. rewrite Hprobe. reflexivity.
  - rewrite bind_run. unfold call at 1. cbn beta iota. rewrite Hprobe. reflexivity.
Qed.

End Writes.

Lemma conflict_skips_item_witness :
  applyItem Cases.conflicting Scenario.yaml Scenario.gcp true "roleset" Scenario.roleset
            Scenario.start
  = (Ok tt,
     {| trace := [ERead "gcp/roleset/deploy";
                  EWrite "gcp/roleset/deploy"
                         (Some {["name" := VStr "deploy";
                                 "project" := VStr "example-project"]});
                  ELog (LogCantReconfigure "gcp/roleset/deploy")];
        rotateCache := ∅ |}).
Proof.
  rewrite (conflict_skips_item Cases.conflicting Scenario.yaml Scenario.gcp true "roleset"
             Scenario.roleset Scenario.start
             (record (ERead "gcp/roleset/deploy") Scenario.start) Cases.conflict).
  - vm_compute. reflexivity.
  - left. eexists. reflexivity.
  - vm_compute. split; [left|]; reflexivity.
  - reflexivity.
  - reflexivity.
Defined.

Lemma refused_write_is_fatal_witness :
  applyItem Cases.readOnly Scenario.yaml Scenario.gcp false "roleset" Scenario.roleset
            Scenario.start
  = (Fail (ErrWrap Scenario.refused "error configuring gcp/roleset/deploy config in vault"),
     {| trace := [EWrite "gcp/roleset/deploy"
                         (Some {["name" := VStr "deploy";
                                 "project" := VStr "example-project"]})];
        rotateCache := ∅ |}).
Proof.
  rewrite (refused_write_is_fatal Cases.readOnly Scenario.yaml Scenario.gcp false "roleset"
             Scenario.roleset Scenario.start Scenario.start Scenario.refused).
  - vm_compute. reflexivity.
  - left. eexists. reflexivity.
  - vm_compute. reflexivity.
  - reflexivity.
  - reflexivity.
Defined.

Lemma answer_is_saved_witness :
  writtenPaths
    (trace (applyItem Scenario.signing Scenario.yaml Scenario.pki false "root/generate"
                      Scenario.rootCA Scenario.start).2)
  = ["pki/root/generate/internal"; "secret/data/pki/root"].
Proof.
  rewrite (answer_is_saved Scenario.signing Scenario.yaml Scenario.pki false "root/generate"
             Scenario.rootCA Scenario.start Scenario.start
             {| Data := Some Scenario.certificate |}).
  - vm_compute. reflexivity.
  - left. eexists. reflexivity.
  - vm_compute. reflexivity.
  - reflexivity.
  - vm_compute. discriminate.
Defined.

Lemma refused_probe_is_fatal_witness :
  applyItem Cases.unreadable Scenario.yaml Scenario.gcp true "roleset" Scenario.roleset
            Scenario.start
  = (Fail (ErrWrap Scenario.refused "error reading configPath gcp/roleset/deploy"),
     {| trace := [ERead "gcp/roleset/deploy"]; rotateCache := ∅ |}).
Proof.
  rewrite (refused_probe_is_fatal Cases.unreadable Scenario.yaml Scenario.gcp "roleset"
             Scenario.roleset Scenario.start Scenario.refused).
  - vm_compute. reflexivity.
  - left. eexists. reflexivity.
  - reflexivity.
  - vm_compute. reflexivity.
Defined.

(** ** The conflict test *)

Section Conflict.

Lemma Contains_app_r (p s sub : string) :
  Contains s sub = true -> Contains (p +:+ s) sub = true.
Proof.
  intros H. induction p as [|c p IH]; [exact H|].
  change (String c p +:+ s) with (String c (p +:+ s)).
  rewrite Contains_cons, IH. apply orb_true_r.
Qed.

(** X8. The conflict is recognized by the text of the error, and so
    through any number of contexts that were wrapped around it. *)
Theorem conflict_seen_through_wrapping (err : error) (ctx : string) :
  isOverwriteProhibitedError err = true ->
  isOverwriteProhibitedError (ErrWrap err ctx) = true.
Proof.
  unfold isOverwriteProhibitedError. intros H. cbn [errorString].
  apply Contains_app_r, (Contains_app_r ": "), H.
Qed.

End Conflict.

Lemma conflict_seen_through_wrapping_witness :
  isOverwriteProhibitedError (ErrWrap Cases.conflict "error writing gcp/roleset/deploy") = true.
Proof. apply conflict_seen_through_wrapping. reflexivity. Defined.

(** ** Decoding an item *)

Section Decoding.

Variable srv : Server.
Variable lib : Decoders.

(** [replaceAccessor] answers a string that depends on its input and on
    the accessors alone, and records nothing but log lines. *)
Lemma replaceAccessor_pure (input : string) (mounts : Mounts) :
  exists out, forall w,
    (replaceAccessor input mounts w).1 = Ok out /\
    extends logOnly w (replaceAccessor input mounts w).2 /\
    rotateCache (replaceAccessor input mounts w).2 = rotateCache w.
Proof.
  induction mounts as [|[k v] rest IH]; cbn [replaceAccessor].
  - exists input. intros w. repeat split. apply extends_refl.
  - destruct (Contains input (accessorToken k)); [|exact IH].
    eexists. intros w. repeat split.
    apply (extends_accepts logOnly (ELog _)). exact I.
Qed.

Lemma traverse_replaceAccessor (mounts : Mounts) (domains : list string) :
  exists ds,
    Forall2 (fun d d' => forall w, (replaceAccessor d mounts w).1 = Ok d') domains ds /\
    forall w,
      let r := traverse (fun d => replaceAccessor d mounts) domains w in
      r.1 = Ok ds /\ extends logOnly w r.2 /\ rotateCache r.2 = rotateCache w.
Proof.
  induction domains as [|d domains (ds & Hds & IH)]; cbn [traverse].
  - exists []. split; [constructor|]. intros w. repeat split. apply extends_refl.
  - destruct (replaceAccessor_pure d mounts) as (out & Hout).
    exists (out :: ds). split.
    + constructor; [|exact Hds]. intros w. apply Hout.
    + intros w. cbv zeta. rewrite bind_run. destruct (Hout w) as (H1 & H2 & H3).
      destruct (replaceAccessor d mounts w) as [[a| | |] w1]; try discriminate H1.
      injection H1 as ->. rewrite bind_run. destruct (IH w1) as (I1 & I2 & I3).
      simpl in H2, H3.
      destruct (traverse _ domains w1) as [[b| | |] w2]; try discriminate I1.
      injection I1 as ->. simpl in *. repeat split.
      * eapply extends_trans; eauto.
      * congruence.
Qed.

(** X9. An item that decodes as a templated configuration.  Its declared
    domains are resolved first, in their order, each as [replaceAccessor]
    answers it, and unchanged where it carries no marker.  When the decoder
    left a map of the other keys, the item comes out as that map with the
    key allowed_domains set to the resolved domains, also when the item
    declared no domain; when the decoder left no such map (the item has no
    key besides allowed_domains), the assignment of line 286 goes to a nil
    map and the pass panics.  Either way the step makes no call: it records
    log lines only. *)
Theorem templated_item_decoded (raw : value) (mounts : Mounts)
    (role : secretEngineTemplatedConfig) (w : World) :
  decodeTemplated lib raw = Some role ->
  let r := decodeSubConfig lib raw mounts w in
  exists ds,
    r.1 = match Other role with
          | Some other => Ok (<["allowed_domains" := VList (VStr <$> ds)]> other)
          | None => Panic "assignment to entry in nil map"
          end /\
    Forall2 (fun d d' => forall w', (replaceAccessor d mounts w').1 = Ok d')
            (AllowedDomains role) ds /\
    (Forall (fun d => Contains d "__accessor__" = false) (AllowedDomains role) ->
     ds = AllowedDomains role) /\
    extends logOnly w r.2.
Proof.
  intros Hdec r. subst r. unfold decodeSubConfig. rewrite Hdec.
  destruct (traverse_replaceAccessor mounts (AllowedDomains role)) as (ds & Hds & Hrun).
  exists ds. rewrite bind_run. destruct (Hrun w) as (H1 & H2 & _).
  destruct (traverse _ (AllowedDomains role) w) as [[a| | |] w1]; try discriminate H1.
  injection H1 as ->. cbn [fst snd] in H2.
  split; [destruct (Other role); reflexivity|]. split; [exact Hds|].
  split; [|destruct (Other role); exact H2].
  intros Hplain. clear - Hds Hplain. induction Hds as [|d d' l l' Hd _ IH]; [reflexivity|].
  inversion Hplain as [|? ? Hp Hrest]; subst. f_equal; [|apply IH, Hrest].
  specialize (Hd Scenario.start).
  rewrite (replaceAccessor_absent d mounts Scenario.start) in Hd.
  - injection Hd as ->. reflexivity.
  - apply Forall_forall. intros [k v] _. cbn [fst].
    destruct (Contains d (accessorToken k)) eqn:Hk; [|reflexivity].
    apply (Contains_app_l d "__accessor__" (TrimRight k "/")) in Hk. congruence.
Qed.

End Decoding.

Lemma templated_item_decoded_witness :
  let raw := VMap {["name" := VStr "web";
                    "allowed_domains" :=
                      VList [VStr "{{identity.entity.aliases.__accessor__ldap.name}}";
                             VStr "example.com"]]} in
  exists ds,
    (decodeSubConfig Scenario.yaml raw Scenario.auths Scenario.start).1
    = Ok (<["allowed_domains" := VList (VStr <$> ds)]> {["name" := VStr "web"]}) /\
    length ds = 2.
Proof.
  intros raw.
  destruct (templated_item_decoded Scenario.yaml raw Scenario.auths
              {| AllowedDomains := ["{{identity.entity.aliases.__accessor__ldap.name}}";
                                    "example.com"];
                 Other := Some {["name" := VStr "web"]} |}
              Scenario.start)
    as (ds & Hrun & Hds & _).
  - vm_compute. reflexivity.
  - exists ds. split; [exact Hrun|].
    apply Forall2_length in Hds. symmetry. exact Hds.
Defined.

(** An item with no key besides allowed_domains, and an empty item: the
    decoder leaves no map of other keys, and the pass panics. *)
Example bare_templated_item_panics :
  (decodeSubConfig Scenario.yaml
     (VMap {["allowed_domains" := VList [VStr "example.com"]]})
     Scenario.auths Scenario.start).1
  = Panic "assignment to entry in nil map" /\
  (decodeSubConfig Scenario.yaml (VMap ∅) Scenario.auths Scenario.start).1
  = Panic "assignment to entry in nil map".
Proof. split; vm_compute; reflexivity. Qed.

(** ** The rotation step *)

Section RotationReach.

Variable srv : Server.

Lemma isRotatable_spec (t o : string) :
  isRotatable t o = true ->
  (t = "database" /\ o = "config") \/ (t = "aws" /\ o = "config/root").
Proof. unfold isRotatable. intros H. apply bool_decide_eq_true in H. exact H. Qed.

(** X10. The rotation step of an item.  It does something only for an item
    with rotate set, under a mount that was there before the pass, of a
    database connection or of the AWS root configuration; it then records
    nothing but log lines and a write without payload to the rotate-root
    endpoint of that engine.  The other cases of
    [rotateSecretEngineCredentials] are never reached from an item: the GCP
    endpoint is never written, and the error of an unsupported type, which a
    direct call returns without calling the server, never comes out of the
    step.  An error of the step is the server's refusal of the rotation
    write, in the rotation context twice over.  The step panics exactly when
    it is active and the name is neither nil nor a string. *)
Theorem rotation_reach (se : secretEngine) (present rotate : bool)
    (configOption configPath : string) (name : option value) (w : World) :
  let active := rotate && present && isRotatable (Type_ se) configOption in
  let r := rotateIfNeeded srv se present rotate configOption configPath name w in
  extends (rotationEvent se configOption) w r.2 /\
  (active = false -> r = (Ok tt, w)) /\
  (forall e, r.1 = Fail e ->
     exists err, e = ErrWrap (ErrWrap err (rotationContext configPath))
                             (rotationContext configPath)) /\
  ((exists msg, r.1 = Panic msg) <-> active = true /\ stringOrNil name = false) /\
  (forall t p n c w',
     rotatePathOf t p n = None ->
     rotateSecretEngineCredentials srv t p n c w' =
     (Fail (ErrNew ("secret engine type '" +:+ t +:+ "' doesn't support credential rotation")),
      w')).
Proof.
  intros active r.
  assert (Hlast : forall t p n c w',
             rotatePathOf t p n = None ->
             rotateSecretEngineCredentials srv t p n c w' =
             (Fail (ErrNew ("secret engine type '" +:+ t
                            +:+ "' doesn't support credential rotation")), w')).
  { intros t p n c w' Hnone. unfold rotateSecretEngineCredentials. rewrite Hnone.
    reflexivity. }
  subst r. unfold rotateIfNeeded. fold active.
  destruct active eqn:Hact; subst active.
  2:{ split; [apply extends_refl|]. split; [reflexivity|]. split; [discriminate|].
      split; [|exact Hlast]. split.
      - intros [msg Hmsg]. discriminate Hmsg.
      - intros [H _]. discriminate H. }
  apply andb_true_iff in Hact as [_ Hrot]. apply isRotatable_spec in Hrot.
  assert (Hstep : forall nameStr,
            let s := (rotateSecretEngineCredentials srv (Type_ se) (Path se) nameStr configPath
                        !> (fun err => ErrWrap err (rotationContext configPath))) w in
            extends (rotationEvent se configOption) w s.2 /\
            (forall e, s.1 = Fail e ->
               exists err, e = ErrWrap (ErrWrap err (rotationContext configPath))
                                       (rotationContext configPath)) /\
            (forall msg, s.1 <> Panic msg)).
  { intros nameStr. cbv zeta.
    assert (Hrp : exists rp, rotatePathOf (Type_ se) (Path se) nameStr = Some rp /\
                             rotationEvent se configOption (EWrite rp None)).
    { unfold rotatePathOf.
      destruct Hrot as [[Ht Ho] | [Ht Ho]]; rewrite Ht; simpl; eexists;
        (split; [reflexivity|]); [left | right]; eauto. }
    destruct Hrp as (rp & Hrp & Hev).
    unfold wrapErr, rotateSecretEngineCredentials, writeWithWarningCheck.
    rewrite Hrp. run. destruct (rotateCache w !! rp); simpl.
    - split; [|split; [discriminate|discriminate]].
      apply (extends_accepts _ (ELog _)). exact I.
    - destruct (srvWrite srv _ rp None) as [err|sec]; simpl.
      + split; [|split; [|discriminate]].
        * exists [ELog (LogRotating rp); EWrite rp None]. simpl.
          rewrite <- app_assoc. split; [reflexivity|].
          constructor; [exact I|]. constructor; [exact Hev|]. constructor.
        * intros e He. injection He as <-. eexists. reflexivity.
      + split; [|split; [discriminate|discriminate]].
        exists [ELog (LogRotating rp); EWrite rp None; ELog (LogRotated rp)]. simpl.
        rewrite <- !app_assoc. split; [reflexivity|].
        constructor; [exact I|]. constructor; [exact Hev|]. repeat constructor. }
  split; [|split; [|split; [|split]]]; try exact Hlast; try discriminate.
  - rewrite bind_run.
    destruct name as [[| | |s| | |]|]; cbn; try apply extends_refl; apply Hstep.
  - intros e. rewrite bind_run.
    destruct name as [[| | |s| | |]|]; cbn; try discriminate; apply Hstep.
  - rewrite bind_run. split.
    + intros [msg Hmsg]. split; [reflexivity|].
      destruct name as [[| | |s| | |]|]; cbn in *; try reflexivity;
        exfalso; eapply Hstep; exact Hmsg.
    + intros [_ Hname]. destruct name as [[| | |s| | |]|]; cbn in *;
        try discriminate Hname; eexists; reflexivity.
Qed.

End RotationReach.

(** ** The schedules of the retry loops *)

Section Schedules.

Variable srv : Server.

Import Backoff.

Lemma waitAt_below (k : nat) : k < 7 -> waitAt k <> (60 * Second)%Z.
Proof.
  intros Hk. do 7 (destruct k as [|k]; [vm_compute; discriminate|]). lia.
Qed.

Lemma mountWaits_from (n : nat) :
  n <= 7 -> map waitAt (seq 0 n) = take n mountWaits.
Proof.
  intros H. do 8 (destruct n as [|n]; [vm_compute; reflexivity|]). lia.
Qed.

Lemma mountRetry_schedule (path : string) (input : MountInput) :
  forall fuel k w,
    k <= 7 -> 7 <= fuel + k ->
    let r := mountRetry srv (S fuel) path input (backoffAt k) w in
    exists n,
      k + n <= 7 /\
      mountedPaths (trace r.2) = mountedPaths (trace w) ++ replicate (S n) path /\
      sleepsOf (trace r.2) = sleepsOf (trace w) ++ map waitAt (seq k n) /\
      (r.1 = Ok newBackoff \/
       k + n = 7 /\ exists e, r.1 = Fail (retryError path e)).
Proof.
  induction fuel as [|fuel IH]; intros k w Hk Hfuel; cbv zeta;
    (destruct (srvMount srv (trace w) path input) as [e|] eqn:He;
     [rewrite (mountRetry_failed srv _ _ _ _ _ _ He); cbv zeta
     |rewrite (mountRetry_succeeded srv _ _ _ _ _ He); exists 0; cbn [fst snd seq map];
      rewrite mountedPaths_record, sleepsOf_record, !app_nil_r;
      split; [lia|]; split; [reflexivity|]; split; [reflexivity|]; left; reflexivity]);
    destruct (decide (waitAt k = 60 * Second)%Z) as [Hmax|Hne].
  1,3: exists 0; cbn [fst snd seq map];
    rewrite !mountedPaths_record, !sleepsOf_record, !app_nil_r;
    assert (k = 7) by (destruct (decide (k < 7)) as [Hlt|]; [|lia];
                       exfalso; exact (waitAt_below k Hlt Hmax));
    (split; [lia|]); (split; [reflexivity|]); (split; [reflexivity|]);
    right; (split; [lia|]); exists e; reflexivity.
  - exfalso. apply Hne, waitAt_ceiling. lia.
  - assert (Hlt : k < 7).
    { destruct (decide (k < 7)); [assumption|]. exfalso. apply Hne, waitAt_ceiling. lia. }
    destruct (IH (S k) (record (ESleep (waitAt k))
                          (record (ELog (LogMountRetry path (errorString e) (waitAt k)))
                             (record (EMount path input) w)))) as (n & Hn & Hm & Hs & Hr);
      [lia | lia |].
    cbv zeta in Hm, Hs, Hr. exists (S n). split; [lia|]. cbn [seq map].
    rewrite Hm, Hs, !mountedPaths_record, !sleepsOf_record, !app_nil_r, <- !app_assoc.
    split; [reflexivity|]. split; [reflexivity|].
    destruct Hr as [Hr | (Hk7 & e' & Hr)]; [left; exact Hr|].
    right. split; [lia|]. exists e'. exact Hr.
Qed.

(** X11. The [Mount] loop against any server: at most eight attempts, all
    with the same path; between them the waits 500ms, 1s, 2s, 4s, 8s, 16s and
    32s, in this order, as far as the attempts go.  The loop ends with the
    first attempt that the server accepts, with the backoff reset, or with
    a refusal of the eighth. *)
Theorem mount_loop_schedule (path : string) (input : MountInput) (w : World) :
  let r := mountRetry srv retryFuel path input newBackoff w in
  exists n,
    n <= 7 /\
    mountedPaths (trace r.2) = mountedPaths (trace w) ++ replicate (S n) path /\
    sleepsOf (trace r.2) = sleepsOf (trace w) ++ take n mountWaits /\
    (r.1 = Ok newBackoff \/
     n = 7 /\ exists e, r.1 = Fail (retryError path e)).
Proof.
  destruct (mountRetry_schedule path input 15 0 w) as (n & Hn & Hm & Hs & Hr);
    [lia | lia |].
  exists n. rewrite (mountWaits_from n) in Hs by lia.
  split; [lia|]. split; [exact Hm|]. split; [exact Hs|].
  destruct Hr as [Hr | (Hk7 & Hr)]; [left | right]; auto.
Qed.

(** The runs of the [TuneMount] loop: the first, the second or the third
    attempt is accepted, or the third is refused. *)
Lemma tuneRetry_cases (path : string) (c : MountConfigInput) (w : World) :
  let r := tuneRetry srv retryFuel path c newBackoff w in
  let failed k e w0 :=
    record (ELog (LogTuneRetry path (errorString e) (waitAt k)))
           (record (ETuneMount path c) w0) in
  r = (Ok newBackoff, record (ETuneMount path c) w) \/
  (exists e0,
     let w1 := record (ESleep (2 * Second)%Z) (failed 0 e0 w) in
     r = (Ok newBackoff, record (ETuneMount path c) w1) \/
     exists e1,
       let w2 := record (ESleep (16 * Second)%Z) (failed 3 e1 w1) in
       r = (Ok newBackoff, record (ETuneMount path c) w2) \/
       exists e2, r = (Fail (retryError path e2), failed 6 e2 w2)).
Proof.
  intros r failed.
  assert (Hr : r = tuneRetry srv 16 path c (backoffAt 0) w) by reflexivity.
  clearbody r.
  destruct (srvTuneMount srv (trace w) path c) as [e0|] eqn:H0.
  2:{ rewrite (tuneRetry_succeeded srv _ _ _ _ _ H0) in Hr. left. exact Hr. }
  right. exists e0. cbv zeta.
  rewrite (tuneRetry_failed srv _ _ _ _ _ _ H0) in Hr. cbv zeta in Hr.
  destruct (decide (waitAt 1 = 60 * Second)%Z) as [Heq|_];
    [vm_compute in Heq; discriminate Heq|].
  change (waitAt 2) with (2 * Second)%Z in Hr. fold (failed 0 e0 w) in Hr.
  set (w1 := record (ESleep (2 * Second)%Z) (failed 0 e0 w)) in *.
  destruct (srvTuneMount srv (trace w1) path c) as [e1|] eqn:H1.
  2:{ rewrite (tuneRetry_succeeded srv _ _ _ _ _ H1) in Hr. left. exact Hr. }
  right. exists e1.
  rewrite (tuneRetry_failed srv _ _ _ _ _ _ H1) in Hr. cbv zeta in Hr.
  destruct (decide (waitAt 4 = 60 * Second)%Z) as [Heq|_];
    [vm_compute in Heq; discriminate Heq|].
  change (waitAt 5) with (16 * Second)%Z in Hr. fold (failed 3 e1 w1) in Hr.
  set (w2 := record (ESleep (16 * Second)%Z) (failed 3 e1 w1)) in *.
  destruct (srvTuneMount srv (trace w2) path c) as [e2|] eqn:H2.
  2:{ rewrite (tuneRetry_succeeded srv _ _ _ _ _ H2) in Hr. left. exact Hr. }
  right. exists e2.
  rewrite (tuneRetry_failed srv _ _ _ _ _ _ H2) in Hr. cbv zeta in Hr.
  destruct (decide (waitAt 7 = 60 * Second)%Z) as [_|Hne];
    [exact Hr | exfalso; apply Hne; vm_compute; reflexivity].
Qed.

(** X12. The [TuneMount] loop against any server: at most three attempts;
    between them the waits 2s and 16s, as far as the attempts go.  The loop
    ends with the first attempt that the server accepts, with the backoff
    reset, or with a refusal of the third. *)
Theorem tune_loop_schedule (path : string) (c : MountConfigInput) (w : World) :
  let r := tuneRetry srv retryFuel path c newBackoff w in
  exists n,
    n <= 2 /\
    tunedPaths (trace r.2) = tunedPaths (trace w) ++ replicate (S n) path /\
    sleepsOf (trace r.2) = sleepsOf (trace w) ++ take n tuneWaits /\
    (r.1 = Ok newBackoff \/
     n = 2 /\ exists e, r.1 = Fail (retryError path e)).
Proof.
  intros r. subst r.
  destruct (tuneRetry_cases path c w) as [-> | (e0 & [-> | (e1 & [-> | (e2 & ->)])])];
    [exists 0 | exists 1 | exists 2 | exists 2]; cbn [fst snd];
    rewrite ?tunedPaths_record, ?sleepsOf_record, ?app_nil_r, <- ?app_assoc;
    (split; [lia|]); (split; [reflexivity|]); (split; [reflexivity|]);
    [left; reflexivity..|].
  right. split; [reflexivity|]. exists e2. reflexivity.
Qed.

End Schedules.

(** ** What a step records *)

Section Emits.

Variable P : Event -> Prop.

Lemma emits_ret {A} (a : A) : emits P (mret a).
Proof. intros w. apply extends_refl. Qed.

Lemma emits_throw {A} (e : error) : emits P (throw (A := A) e).
Proof. intros w. apply extends_refl. Qed.

Lemma emits_panic {A} (msg : string) : emits P (panic (A := A) msg).
Proof. intros w. apply extends_refl. Qed.

Lemma emits_outOfFuel {A} : emits P (outOfFuel (A := A)).
Proof. intros w. apply extends_refl. Qed.

Lemma emits_readCache : emits P readCache.
Proof. intros w. apply extends_refl. Qed.

Lemma emits_markRotated (p : string) : emits P (markRotated p).
Proof. intros w. exists []. split; [symmetry; apply app_nil_r | constructor]. Qed.

Lemma emits_emit (e : Event) : P e -> emits P (emit e).
Proof. intros He w. apply (extends_accepts P e He). Qed.

Lemma emits_call {A} (answer : list Event -> A) (e : Event) : P e -> emits P (call answer e).
Proof. intros He w. apply (extends_accepts P e He). Qed.

Lemma emits_bind {A B} (m : M A) (f : A -> M B) :
  emits P m -> (forall a, emits P (f a)) -> emits P (m ≫= f).
Proof.
  intros Hm Hf w. rewrite bind_run. specialize (Hm w).
  destruct (m w) as [[a| | |] w1]; simpl in *; try exact Hm.
  eapply extends_trans; [exact Hm | apply Hf].
Qed.

Lemma emits_wrapErr {A} (m : M A) (wrap : error -> error) : emits P m -> emits P (m !> wrap).
Proof.
  intros Hm w. unfold wrapErr. specialize (Hm w).
  destruct (m w) as [[a| | |] w1]; exact Hm.
Qed.

Lemma emits_try {A} (m : M A) : emits P m -> emits P (try m).
Proof.
  intros Hm w. unfold try. specialize (Hm w).
  destruct (m w) as [[a| | |] w1]; exact Hm.
Qed.

Lemma emits_forM {A} (l : list A) (f : A -> M unit) :
  (forall x, emits P (f x)) -> emits P (forM_ l f).
Proof.
  intros Hf. induction l as [|x l IH]; simpl.
  - apply emits_ret.
  - apply emits_bind; auto.
Qed.

Lemma emits_traverse {A B} (f : A -> M B) (l : list A) :
  (forall x, emits P (f x)) -> emits P (traverse f l).
Proof.
  intros Hf. induction l as [|x l IH]; simpl.
  - apply emits_ret.
  - apply emits_bind; [auto|]. intros y.
    apply emits_bind; [auto|]. intros ys. apply emits_ret.
Qed.

End Emits.

Lemma emits_impl (P Q : Event -> Prop) {A} (m : M A) :
  (forall e, P e -> Q e) -> emits P m -> emits Q m.
Proof. intros HPQ Hm w. eapply extends_impl; [exact HPQ | apply Hm]. Qed.

Ltac emitting :=
  unfold log, sleep;
  repeat (first
    [ simple apply emits_ret | simple apply emits_throw | simple apply emits_panic
    | simple apply emits_outOfFuel | simple apply emits_readCache
    | simple apply emits_markRotated
    | simple apply emits_emit
    | simple apply emits_call
    | simple apply emits_wrapErr
    | simple apply emits_try
    | simple apply emits_bind; [|intros ?]
    | simple apply emits_forM; intros ?
    | simple apply emits_traverse; intros ?
    | match goal with |- emits _ (match ?x with _ => _ end) => destruct x end
    | match goal with |- emits _ (if ?x then _ else _) => destruct x end ]).

(** ** The events of an engine *)

Section EngineEvents.

Variable srv : Server.
Variable lib : Decoders.

Lemma prefix_app (a b : string) : String.prefix a (a +:+ b) = true.
Proof.
  induction a as [|c a IH]; [destruct b; reflexivity|].
  change (String c a +:+ b) with (String c (a +:+ b)). cbn [String.prefix].
  destruct (Ascii.ascii_dec c c); [exact IH | contradiction].
Qed.

Lemma append_assoc (a b c : string) : (a +:+ b) +:+ c = a +:+ (b +:+ c).
Proof.
  induction a as [|x a IH]; [reflexivity|].
  change (String x ((a +:+ b) +:+ c) = String x (a +:+ (b +:+ c))).
  rewrite IH. reflexivity.
Qed.

Lemma under_app (se : secretEngine) (rest : string) : under se (Path se +:+ "/" +:+ rest).
Proof. unfold under. rewrite <- append_assoc. apply prefix_app. Qed.

Lemma under_configPath (se : secretEngine) (configOption : string) (name : option value) :
  under se (configPathOf lib (Path se) configOption name).
Proof. unfold configPathOf. destruct name as [[]|]; apply under_app. Qed.

Lemma under_rotatePath (se : secretEngine) (t name rp : string) :
  rotatePathOf t (Path se) name = Some rp -> under se rp.
Proof.
  unfold rotatePathOf. intros H.
  repeat match type of H with
         | context [decide ?p] => destruct (decide p)
         end; try discriminate H; injection H as <-.
  - apply (under_app se "config/rotate-root").
  - apply (under_app se ("rotate-root/" +:+ name)).
  - apply (under_app se (name +:+ "/rotate")).
Qed.

Lemma replaceAccessor_emits (P : Event -> Prop) (input : string) (mounts : Mounts) :
  (forall m, P (ELog m)) -> emits P (replaceAccessor input mounts).
Proof.
  intros Hl. induction mounts as [|[k v] rest IH]; simpl; emitting; auto.
Qed.

Lemma mountRetry_emits (se : secretEngine) (fuel : nat) (input : MountInput)
    (b : Backoff.t) :
  emits (engineEvent se) (mountRetry srv fuel (Path se) input b).
Proof.
  revert b. induction fuel as [|fuel IH]; intros b; simpl; emitting;
    try exact I; try reflexivity. apply IH.
Qed.

Lemma tuneRetry_emits (se : secretEngine) (fuel : nat) (c : MountConfigInput)
    (b : Backoff.t) :
  emits (engineEvent se) (tuneRetry srv fuel (Path se) c b).
Proof.
  revert b. induction fuel as [|fuel IH]; intros b; simpl; emitting;
    try exact I; try reflexivity. apply IH.
Qed.

Lemma rotation_emits (se : secretEngine) (name configPath : string) :
  emits (engineEvent se)
        (rotateSecretEngineCredentials srv (Type_ se) (Path se) name configPath).
Proof.
  unfold rotateSecretEngineCredentials, writeWithWarningCheck.
  destruct (rotatePathOf (Type_ se) (Path se) name) as [rp|] eqn:Hrp; [|apply emits_throw].
  apply under_rotatePath in Hrp. emitting; try exact I. exact Hrp.
Qed.

Lemma applyItem_emits (se : secretEngine) (present : bool) (configOption : string)
    (data : gmap string value) :
  emits (engineEvent se) (applyItem srv lib se present configOption data).
Proof.
  unfold applyItem.
  destruct (negb _ && negb _); [apply emits_throw|].
  pose proof (under_configPath se configOption (data !! "name")) as Hcp.
  unfold applyAt, shouldUpdate, secretExists, writeConfig, rotateIfNeeded,
    writeWithWarningCheck.
  emitting; try exact I; try reflexivity; try exact Hcp;
    try apply rotation_emits;
    try (left; exact Hcp); try (right; eexists; reflexivity).
Qed.

(** X13. Adding a declared engine stays inside its mount.  Besides listing
    the mounts, sleeping and logging, the step mounts or tunes the engine's
    own path and nothing else, checks the CA of its own mount, and reads and
    writes only below its own path; the one write that may go elsewhere is
    the saved answer of an item, which goes where save_to points.  The step
    never lists the auth methods and never unmounts. *)
Theorem engine_stays_in_its_mount (se : secretEngine) (mounts : Mounts) (b : Backoff.t)
    (w : World) :
  extends (engineEvent se) w (processEngine srv lib se mounts b w).2.
Proof.
  revert w. change (emits (engineEvent se) (processEngine srv lib se mounts b)).
  unfold processEngine, mountExists, ensureMount, processOption, processItem,
    decodeSubConfig.
  emitting; try exact I;
    try apply mountRetry_emits; try apply tuneRetry_emits;
    try apply applyItem_emits;
    try (apply replaceAccessor_emits; intros; exact I).
Qed.

Lemma engineEvent_addEvent (se : secretEngine) (e : Event) : engineEvent se e -> addEvent e.
Proof. destruct e; simpl; auto. Qed.

Lemma addEngines_emits (managed : list secretEngine) (mounts : Mounts) (b : Backoff.t) :
  emits addEvent (addEngines srv lib managed mounts b).
Proof.
  revert b. induction managed as [|se rest IH]; intros b; simpl.
  - apply emits_ret.
  - apply emits_bind; [|intros b'; apply IH].
    unfold processEngine, mountExists, ensureMount, processOption, processItem,
      decodeSubConfig.
    emitting; try exact I;
      try (apply replaceAccessor_emits; intros; exact I);
      apply (emits_impl (engineEvent se)); try apply engineEvent_addEvent;
      try apply mountRetry_emits; try apply tuneRetry_emits; apply applyItem_emits.
Qed.

End EngineEvents.

(** ** Mounted or tuned *)

Section MountOrTune.

Variable srv : Server.
Variable lib : Decoders.

Lemma mountCall_paths (se : secretEngine) (present : bool) (c : MountConfigInput)
    (evs : list Event) :
  Forall (mountCall se present c) evs ->
  mountedPaths evs = (if present then []
                      else replicate (length (mountedPaths evs)) (Path se)) /\
  tunedPaths evs = (if present then replicate (length (tunedPaths evs)) (Path se)
                    else []).
Proof.
  induction 1 as [|e evs He _ [IHm IHt]]; [destruct present; split; reflexivity|].
  destruct e; simpl in He; try contradiction; try (split; [exact IHm | exact IHt]).
  - destruct He as (-> & -> & _). split; [|exact IHt].
    change (Path se :: mountedPaths evs
            = Path se :: replicate (length (mountedPaths evs)) (Path se)).
    f_equal. exact IHm.
  - destruct He as (-> & -> & _). split; [exact IHm|].
    change (Path se :: tunedPaths evs
            = Path se :: replicate (length (tunedPaths evs)) (Path se)).
    f_equal. exact IHt.
Qed.

Lemma paths_quiet (w w' : World) :
  extends noMounting w w' ->
  mountedPaths (trace w') = mountedPaths (trace w) /\
  tunedPaths (trace w') = tunedPaths (trace w).
Proof.
  intros (evs & -> & Hev). unfold mountedPaths, tunedPaths. rewrite !omap_app.
  assert (H : omap (fun e => match e with EMount p _ => Some p | _ => None end) evs = [] /\
              omap (fun e => match e with ETuneMount p _ => Some p | _ => None end) evs = []).
  { induction Hev as [|e evs He _ IH]; [split; reflexivity|].
    destruct e; simpl in *; try exact IH; contradiction. }
  destruct H as [-> ->]. rewrite !app_nil_r. split; reflexivity.
Qed.

Lemma processOption_noMounting (se : secretEngine) (present : bool) (mounts : Mounts)
    (entry : string * value) :
  emits noMounting (processOption srv lib se present mounts entry).
Proof.
  unfold processOption, processItem, decodeSubConfig, applyItem, applyAt, shouldUpdate,
    secretExists, writeConfig, rotateIfNeeded, rotateSecretEngineCredentials,
    writeWithWarningCheck.
  emitting; try exact I; apply replaceAccessor_emits; intros; exact I.
Qed.

Lemma mountedPaths_app (a b : list Event) :
  mountedPaths (a ++ b) = mountedPaths a ++ mountedPaths b.
Proof. apply omap_app. Qed.

Lemma tunedPaths_app (a b : list Event) :
  tunedPaths (a ++ b) = tunedPaths a ++ tunedPaths b.
Proof. apply omap_app. Qed.

Lemma ensureMount_present (se : secretEngine) (c : MountConfigInput) (b : Backoff.t)
    (w : World) :
  ensureMount srv se true c b w =
  tuneRetry srv retryFuel (Path se) c b (record (ELog (LogTuning (Path se))) w).
Proof. reflexivity. Qed.

Lemma ensureMount_absent (se : secretEngine) (c : MountConfigInput) (b : Backoff.t)
    (w : World) :
  let mi := {| mi_Type := Type_ se; mi_Description := Description se;
               mi_PluginName := PluginName se; mi_Config := c;
               mi_Options := mc_Options c; mi_Local := Local_ se;
               mi_SealWrap := SealWrap se |} in
  ensureMount srv se false c b w =
  mountRetry srv retryFuel (Path se) mi b
    (record (ELog (LogMountInput mi)) (record (ELog (LogAdding (Path se) (Type_ se))) w)).
Proof. reflexivity. Qed.

Lemma ensureMount_paths (se : secretEngine) (present : bool) (c : MountConfigInput)
    (b : Backoff.t) (w : World) :
  exists n,
    mountedPaths (trace (ensureMount srv se present c b w).2) =
      mountedPaths (trace w) ++ (if present then [] else replicate (S n) (Path se)) /\
    tunedPaths (trace (ensureMount srv se present c b w).2) =
      tunedPaths (trace w) ++ (if present then replicate (S n) (Path se) else []).
Proof.
  destruct present.
  - rewrite ensureMount_present. unfold retryFuel.
    destruct (extends_first (mountCall se true c) (ETuneMount (Path se) c)
                (record (ELog (LogTuning (Path se))) w)
                (tuneRetry srv 16 (Path se) c b (record (ELog (LogTuning (Path se))) w)).2)
      as (evs & Htr & Hev).
    { apply tuneRetry_after_call; simpl; auto. }
    destruct (mountCall_paths se true c evs Hev) as [Hm Ht].
    remember (length (tunedPaths evs)) as n eqn:Hn. clear Hn. exists n.
    rewrite Htr, mountedPaths_app, tunedPaths_app, mountedPaths_record, tunedPaths_record.
    change (mountedPaths (ETuneMount (Path se) c :: evs)) with (mountedPaths evs).
    change (tunedPaths (ETuneMount (Path se) c :: evs)) with (Path se :: tunedPaths evs).
    rewrite Hm, Ht, !app_nil_r. split; reflexivity.
  - rewrite ensureMount_absent. cbv zeta. unfold retryFuel.
    match goal with |- context [mountRetry srv 16 (Path se) ?mi0 b ?w1] =>
      destruct (extends_first (mountCall se false c) (EMount (Path se) mi0) w1
                  (mountRetry srv 16 (Path se) mi0 b w1).2) as (evs & Htr & Hev);
      [apply mountRetry_after_call; simpl; auto|];
      set (mi := mi0) in *
    end.
    destruct (mountCall_paths se false c evs Hev) as [Hm Ht].
    remember (length (mountedPaths evs)) as n eqn:Hn. clear Hn. exists n.
    rewrite Htr, mountedPaths_app, tunedPaths_app, !mountedPaths_record,
      !tunedPaths_record.
    change (mountedPaths (EMount (Path se) mi :: evs)) with (Path se :: mountedPaths evs).
    change (tunedPaths (EMount (Path se) mi :: evs)) with (tunedPaths evs).
    rewrite Hm, Ht, !app_nil_r. split; reflexivity.
Qed.

(** X14. A declared engine is mounted or tuned, never both, and the
    listing decides.  When the listing of the mounts holds the engine's path
    followed by a separator, the pass tunes the engine, once or more, and
    does not mount it; when it does not, the pass mounts the engine, once or
    more, and does not tune it.  Every such call is for the engine's own
    path. *)
Theorem mounted_or_tuned (se : secretEngine) (mounts : Mounts) (b : Backoff.t)
    (w : World) (l : Mounts) (c : MountConfigInput) :
  srvListMounts srv (trace w) = inr l ->
  getMountConfigInput lib se = inr c ->
  let listed := bool_decide (Path se +:+ "/" ∈ l.*1) in
  let r := processEngine srv lib se mounts b w in
  exists n,
    mountedPaths (trace r.2) =
      mountedPaths (trace w) ++ (if listed then [] else replicate (S n) (Path se)) /\
    tunedPaths (trace r.2) =
      tunedPaths (trace w) ++ (if listed then replicate (S n) (Path se) else []).
Proof.
  intros Hl Hc listed r.
  assert (Hr : r = processEngine srv lib se mounts b w) by reflexivity.
  clearbody r. unfold processEngine in Hr. rewrite bind_run in Hr.
  assert (Hlisted : existsb (fst_eqb (Path se +:+ "/")) l = listed).
  { subst listed. clear. induction l as [|[k v] l IH]; [reflexivity|].
    cbn [existsb fmap list_fmap fst]. unfold fst_eqb at 1. cbn [fst]. rewrite IH.
    destruct (String.eqb_spec (Path se +:+ "/") k) as [Heq|Hne].
    - symmetry. apply bool_decide_eq_true_2. rewrite Heq. set_solver.
    - cbn [orb]. apply bool_decide_ext. set_solver. }
  set (w1 := record (ELog (LogExistingMounts l)) (record EListMounts w)).
  assert (Hex : mountExists srv (Path se) w = (Ok listed, w1)).
  { unfold mountExists. rewrite bind_run. unfold call at 1. cbn beta iota.
    rewrite Hl, <- Hlisted. reflexivity. }
  rewrite Hex, Hc in Hr. cbn beta iota in Hr. rewrite bind_run in Hr.
  assert (Hw1 : mountedPaths (trace w1) = mountedPaths (trace w) /\
                tunedPaths (trace w1) = tunedPaths (trace w)).
  { subst w1. rewrite !mountedPaths_record, !tunedPaths_record, !app_nil_r. auto. }
  destruct Hw1 as [Hm1 Ht1]. rewrite <- Hm1, <- Ht1.
  destruct (ensureMount_paths se listed c b w1) as (n & Hm & Ht). exists n.
  destruct (ensureMount srv se listed c b w1) as [[b'| | |] w2]; cbn [fst snd] in *;
    cbn beta iota in Hr; [|subst r; split; assumption..].
  rewrite bind_run in Hr.
  pose proof (emits_forM noMounting (Configuration se)
                (processOption srv lib se listed mounts)
                (processOption_noMounting se listed mounts) w2) as Hq.
  apply paths_quiet in Hq as [Hqm Hqt].
  destruct (forM_ (Configuration se) _ w2) as [[[]| | |] w3]; cbn [fst snd] in *;
    cbn beta iota in Hr; unfold mret, M_ret in Hr; subst r; cbn [fst snd];
    rewrite Hqm, Hqt; split; assumption.
Qed.

End MountOrTune.

Lemma mounted_or_tuned_witness :
  exists n,
    tunedPaths (trace (processEngine Scenario.kvServer Scenario.yaml
                         (Scenario.engine "kv" "kv" [] ∅) [] newBackoff Scenario.start).2)
    = replicate (S n) "kv".
Proof.
  destruct (mounted_or_tuned Scenario.kvServer Scenario.yaml (Scenario.engine "kv" "kv" [] ∅)
              [] newBackoff Scenario.start Scenario.mounted Scenario.emptyMountConfig
              eq_refl eq_refl) as (n & _ & Ht).
  exists n. exact Ht.
Defined.

(** ** The phases of a pass *)

Section Phases.

Variable srv : Server.
Variable lib : Decoders.
Variable cfg : externalConfig.

(** The unmanaged set, whatever the listing answers. *)
Lemma getUnmanaged_run (managed : list secretEngine) (w : World) :
  exists unmanaged,
    getUnmanagedSecretsEngines srv managed w = (Ok unmanaged, record EListMounts w) /\
    forall p, p ∈ dom unmanaged ->
      (p ∉ Path <$> managed) /\ (p ∉ ["sys"; "identity"; "cubbyhole"]) /\
      exists l, srvListMounts srv (trace w) = inr l /\
                p ∈ (fun kv => Trim kv.1 "/") <$> l.
Proof.
  destruct (srvListMounts srv (trace w)) as [e|l] eqn:Hl.
  - exists ∅. split; [apply (getUnmanaged_listing_failed srv managed w e Hl)|].
    intros p Hp. rewrite dom_empty_L in Hp. set_solver.
  - eexists. split.
    + unfold getUnmanagedSecretsEngines, getExistingSecretsEngines.
      rewrite !bind_run. unfold call at 1. cbn beta iota. rewrite Hl. reflexivity.
    + intros p. rewrite dom_without_managed, !dom_delete_L, dom_existing, dom_empty_L.
      intros Hp. split; [set_solver|]. split; [set_solver|].
      exists l. split; [reflexivity|]. set_solver.
Qed.

(** The loop of line 419 returns or fails; it does not panic. *)
Lemma prune_loop_ends (keys : list string) (w : World) :
  (forM_ keys (unmountOne srv) w).1 = Ok tt \/
  exists e, (forM_ keys (unmountOne srv) w).1 = Fail e.
Proof.
  revert w. induction keys as [|k keys IH]; intros w; cbn [forM_]; [left; reflexivity|].
  rewrite bind_run, unmountOne_run. cbv zeta.
  destruct (srvUnmount srv _ k); [right; eexists; reflexivity | apply IH].
Qed.

Lemma NoDup_prefix {A} (l1 l2 : list A) : l1 `prefix_of` l2 -> NoDup l2 -> NoDup l1.
Proof. intros [k ->] H. apply NoDup_app in H. apply H. Qed.

(** X15. The phases of a pass.  The listing of the auth methods comes
    first; then the declared engines are added, and nothing is unmounted
    while that goes on; unmounting comes last, and only once every declared
    engine was added without error.  No path is unmounted twice.  A path is
    unmounted only with purge enabled and the secrets category not
    excluded, and only if the listing of the mounts at the start of the pass
    reported it; the path of a declared engine, as normalized, is never
    unmounted, nor are sys, identity and cubbyhole. *)
Theorem pass_phases (w : World) :
  let r := configureSecretsEngines srv lib cfg w in
  exists adds prunes,
    trace r.2 = trace w ++ EListAuth :: adds ++ prunes /\
    Forall addEvent adds /\ Forall pruneEvent prunes /\
    NoDup (unmountedPaths prunes) /\
    (forall p, p ∈ unmountedPaths prunes ->
       PurgeEnabled cfg = true /\ PurgeExcludeSecrets cfg = false /\
       (p ∉ normalizedPath <$> Secrets cfg) /\
       (p ∉ ["sys"; "identity"; "cubbyhole"]) /\
       exists l, srvListMounts srv (trace w ++ [EListAuth]) = inr l /\
                 p ∈ (fun kv => Trim kv.1 "/") <$> l) /\
    (prunes <> [] ->
     r.1 = Ok tt \/ exists e, r.1 = Fail (ErrWrap e "error removing secrets engines")).
Proof.
  intros r.
  assert (Hr : r = configureSecretsEngines srv lib cfg w) by reflexivity.
  clearbody r. unfold configureSecretsEngines in Hr.
  rewrite bind_run in Hr. unfold call at 1 in Hr. cbn beta iota in Hr.
  assert (Hnone : forall (x : outcome unit * World) evs,
            trace x.2 = trace w ++ EListAuth :: evs -> Forall addEvent evs ->
            exists adds prunes,
              trace x.2 = trace w ++ EListAuth :: adds ++ prunes /\
              Forall addEvent adds /\ Forall pruneEvent prunes /\
              NoDup (unmountedPaths prunes) /\
              (forall p, p ∈ unmountedPaths prunes ->
                 PurgeEnabled cfg = true /\ PurgeExcludeSecrets cfg = false /\
                 (p ∉ normalizedPath <$> Secrets cfg) /\
                 (p ∉ ["sys"; "identity"; "cubbyhole"]) /\
                 exists l, srvListMounts srv (trace w ++ [EListAuth]) = inr l /\
                           p ∈ (fun kv => Trim kv.1 "/") <$> l) /\
              (prunes <> [] ->
               x.1 = Ok tt \/
               exists e, x.1 = Fail (ErrWrap e "error removing secrets engines"))).
  { intros x evs Htr Hev. exists evs, []. rewrite app_nil_r.
    split; [exact Htr|]. split; [exact Hev|]. split; [constructor|].
    split; [constructor|]. split; [|intros H; contradiction].
    intros p Hp. simpl in Hp. set_solver. }
  destruct (srvListAuth srv (trace w)) as [err|auths].
  { subst r. apply (Hnone _ []); [reflexivity | constructor]. }
  rewrite bind_run in Hr.
  destruct (getUnmanaged_run (initSecretsEnginesConfig (Secrets cfg)) (record EListAuth w))
    as (unmanaged & Hun & Hdom).
  rewrite Hun in Hr. cbn beta iota in Hr. rewrite bind_run in Hr.
  unfold wrapErr at 1, addManagedSecretsEngines in Hr. rewrite bind_run in Hr.
  pose proof (addEngines_emits srv lib (initSecretsEnginesConfig (Secrets cfg)) auths
                newBackoff (record EListMounts (record EListAuth w))) as (evs & Htr & Hev).
  assert (Htr' : trace (addEngines srv lib (initSecretsEnginesConfig (Secrets cfg)) auths
                          newBackoff (record EListMounts (record EListAuth w))).2
                 = trace w ++ EListAuth :: EListMounts :: evs).
  { rewrite Htr. unfold record. simpl. rewrite <- !app_assoc. reflexivity. }
  assert (Hadd : Forall addEvent (EListMounts :: evs)) by (constructor; [exact I | exact Hev]).
  clear Htr Hev.
  destruct (addEngines srv lib _ auths newBackoff _) as [[b| | |] w2];
    cbn [fst snd] in Htr'; cbn beta iota in Hr;
    [|subst r; apply (Hnone (_, w2) _ Htr' Hadd)..].
  unfold mret at 1, M_ret at 1 in Hr. cbn beta iota in Hr.
  unfold wrapErr, removeUnmanagedSecretsEngines in Hr.
  destruct (bool_decide (size unmanaged = 0) || negb (PurgeEnabled cfg)
            || PurgeExcludeSecrets cfg) eqn:Hguard.
  { subst r. apply (Hnone (_, w2) _ Htr' Hadd). }
  apply orb_false_elim in Hguard as [Hguard Hexcl].
  apply orb_false_elim in Hguard as [_ Hpurge]. apply negb_false_iff in Hpurge.
  destruct (prune_loop srv (rangeKeys unmanaged) w2) as (prunes & Hp1 & Hp2 & Hp3 & _).
  pose proof (prune_loop_ends (rangeKeys unmanaged) w2) as Hend.
  exists (EListMounts :: evs), prunes.
  assert (Hpaths : forall p, p ∈ unmountedPaths prunes ->
            PurgeEnabled cfg = true /\ PurgeExcludeSecrets cfg = false /\
            (p ∉ normalizedPath <$> Secrets cfg) /\
            (p ∉ ["sys"; "identity"; "cubbyhole"]) /\
            exists l, srvListMounts srv (trace w ++ [EListAuth]) = inr l /\
                      p ∈ (fun kv => Trim kv.1 "/") <$> l).
  { intros p Hp. split; [exact Hpurge|]. split; [exact Hexcl|].
    assert (Hin : p ∈ dom unmanaged).
    { destruct Hp3 as [k Hk]. apply elem_of_elements.
      rewrite <- (rangeKeys_elements unmanaged), Hk. apply elem_of_app. left. exact Hp. }
    destruct (Hdom p Hin) as (H1 & H2 & H3).
    rewrite initSecretsEnginesConfig_paths in H1. auto. }
  assert (Hnodup : NoDup (unmountedPaths prunes)).
  { apply (NoDup_prefix _ _ Hp3). unfold rangeKeys. apply NoDup_fst_map_to_list. }
  destruct (forM_ (rangeKeys unmanaged) (unmountOne srv) w2) as [[[]| | |] w3];
    cbn [fst snd] in *; subst r; cbn beta iota; cbn [fst snd];
    (split; [rewrite Hp1, Htr', <- app_assoc; reflexivity|]); (split; [exact Hadd|]);
    (split; [exact Hp2|]); (split; [exact Hnodup|]); (split; [exact Hpaths|]);
    intros _.
  - left. reflexivity.
  - right. eexists. reflexivity.
  - destruct Hend as [H | [e H]]; discriminate H.
  - destruct Hend as [H | [e H]]; discriminate H.
Qed.

Lemma addEvent_unmounts (evs : list Event) :
  Forall addEvent evs -> unmountedPaths evs = [].
Proof.
  induction 1 as [|e evs He _ IH]; [reflexivity|].
  destruct e; simpl in *; try exact IH. contradiction.
Qed.

Lemma unmountedPaths_record (e : Event) (w : World) :
  unmountedPaths (trace (record e w)) =
  unmountedPaths (trace w) ++ match e with EUnmount p => [p] | _ => [] end.
Proof. unfold unmountedPaths, record. simpl. rewrite omap_app. destruct e; reflexivity. Qed.

(** The loop of line 419 fails with the refusal of the unmount it made
    last. *)
Lemma prune_loop_failure (keys : list string) (w : World) (e : error) :
  (forM_ keys (unmountOne srv) w).1 = Fail e ->
  exists cause p,
    e = ErrWrap cause ("error unmounting " +:+ p +:+ " secret engine from vault") /\
    last (unmountedPaths (trace (forM_ keys (unmountOne srv) w).2)) = Some p.
Proof.
  revert w. induction keys as [|k keys IH]; intros w; cbn [forM_]; [discriminate|].
  rewrite bind_run, unmountOne_run. cbv zeta.
  destruct (srvUnmount srv _ k) as [err|]; [|apply IH].
  cbn [fst snd]. intros H. injection H as <-. exists err, k. split; [reflexivity|].
  rewrite unmountedPaths_record. apply last_snoc.
Qed.

(** X16. The error of a pass names the phase that failed.  A pass fails
    with the refusal of the auth listing, and has then called nothing else;
    or with an error of the add phase, and has then unmounted nothing; or
    with the refusal of an unmount, which is the last unmount it made. *)
Theorem pass_error_names_its_phase (w : World) (e : error) :
  let r := configureSecretsEngines srv lib cfg w in
  r.1 = Fail e ->
  (exists cause,
     e = ErrWrap cause
           "error while getting list of auth engines for secret engine configuration" /\
     srvListAuth srv (trace w) = inl cause /\ r.2 = record EListAuth w) \/
  (exists cause,
     e = ErrWrap cause "error adding secrets engines" /\
     unmountedPaths (trace r.2) = unmountedPaths (trace w)) \/
  (exists cause p,
     e = ErrWrap (ErrWrap cause ("error unmounting " +:+ p +:+ " secret engine from vault"))
                 "error removing secrets engines" /\
     last (unmountedPaths (trace r.2)) = Some p).
Proof.
  intros r.
  assert (Hr : r = configureSecretsEngines srv lib cfg w) by reflexivity.
  clearbody r. unfold configureSecretsEngines in Hr.
  rewrite bind_run in Hr. unfold call at 1 in Hr. cbn beta iota in Hr.
  destruct (srvListAuth srv (trace w)) as [err|auths].
  { subst r. intros H. injection H as <-. left. exists err. auto. }
  rewrite bind_run in Hr.
  destruct (getUnmanaged_run (initSecretsEnginesConfig (Secrets cfg)) (record EListAuth w))
    as (unmanaged & Hun & _).
  rewrite Hun in Hr. cbn beta iota in Hr. rewrite bind_run in Hr.
  unfold wrapErr at 1, addManagedSecretsEngines in Hr. rewrite bind_run in Hr.
  pose proof (addEngines_emits srv lib (initSecretsEnginesConfig (Secrets cfg)) auths
                newBackoff (record EListMounts (record EListAuth w))) as (evs & Htr & Hev).
  apply addEvent_unmounts in Hev.
  assert (Hquiet : unmountedPaths
                     (trace (addEngines srv lib (initSecretsEnginesConfig (Secrets cfg)) auths
                               newBackoff (record EListMounts (record EListAuth w))).2)
                   = unmountedPaths (trace w)).
  { rewrite Htr. unfold unmountedPaths at 1. rewrite omap_app.
    fold (unmountedPaths evs).
    fold (unmountedPaths (trace (record EListMounts (record EListAuth w)))).
    rewrite Hev, !unmountedPaths_record, !app_nil_r. reflexivity. }
  clear Htr Hev.
  destruct (addEngines srv lib _ auths newBackoff _) as [[b| | |] w2];
    cbn [fst snd] in Hquiet; cbn beta iota in Hr;
    [|subst r; intros H; try discriminate H; injection H as <-;
      right; left; eexists; split; [reflexivity | exact Hquiet]|
      subst r; discriminate..].
  unfold mret at 1, M_ret at 1 in Hr. cbn beta iota in Hr.
  unfold wrapErr, removeUnmanagedSecretsEngines in Hr.
  destruct (bool_decide (size unmanaged = 0) || negb (PurgeEnabled cfg)
            || PurgeExcludeSecrets cfg).
  { subst r. discriminate. }
  pose proof (prune_loop_failure (rangeKeys unmanaged) w2) as Hfail.
  destruct (forM_ (rangeKeys unmanaged) (unmountOne srv) w2) as [[[]| | |] w3];
    subst r; cbn [fst snd] in *; try discriminate.
  intros H. injection H as <-. right. right.
  destruct (Hfail _ eq_refl) as (cause & p & -> & Hlast). eauto.
Qed.

End Phases.

(** ** The waits of a pass *)

Section Waits.

Variable srv : Server.
Variable lib : Decoders.
Variable cfg : externalConfig.

Lemma init_length (configs : list secretEngine) :
  length (initSecretsEnginesConfig configs) = length configs.
Proof.
  induction configs as [|se l IH]; [reflexivity|].
  cbn [initSecretsEnginesConfig]. simpl. rewrite IH. reflexivity.
Qed.

Lemma sleepsOf_quiet (w w' : World) :
  extends noSleep w w' -> sleepsOf (trace w') = sleepsOf (trace w).
Proof.
  intros (evs & -> & Hev). unfold sleepsOf. rewrite omap_app.
  rewrite <- (app_nil_r (omap _ (trace w))) at 2. f_equal.
  induction Hev as [|e evs He _ IH]; [reflexivity|].
  destruct e; simpl in *; try exact IH. contradiction.
Qed.

Lemma mountExists_quiet (path : string) : emits noSleep (mountExists srv path).
Proof. unfold mountExists. emitting; exact I. Qed.

Lemma processOption_quiet (se : secretEngine) (present : bool) (mounts : Mounts)
    (entry : string * value) :
  emits noSleep (processOption srv lib se present mounts entry).
Proof.
  unfold processOption, processItem, decodeSubConfig, applyItem, applyAt, shouldUpdate,
    secretExists, writeConfig, rotateIfNeeded, rotateSecretEngineCredentials,
    writeWithWarningCheck.
  emitting; try exact I; apply replaceAccessor_emits; intros; exact I.
Qed.

Lemma prune_quiet (unmanaged : gmap string bool) :
  emits noSleep (removeUnmanagedSecretsEngines srv cfg unmanaged).
Proof. unfold removeUnmanagedSecretsEngines, unmountOne. emitting; exact I. Qed.

Lemma getUnmanaged_quiet (managed : list secretEngine) :
  emits noSleep (getUnmanagedSecretsEngines srv managed).
Proof.
  unfold getUnmanagedSecretsEngines, getExistingSecretsEngines. emitting; exact I.
Qed.

Lemma ensureMount_waits (se : secretEngine) (present : bool) (c : MountConfigInput)
    (w : World) :
  exists waits,
    sleepsOf (trace (ensureMount srv se present c newBackoff w).2)
      = sleepsOf (trace w) ++ waits /\
    freshWaits waits.
Proof.
  unfold ensureMount, retryFuel. destruct present; cbn [negb];
    rewrite !bind_run; unfold log at 1, emit at 1; cbn beta iota.
  - destruct (tuneRetry_cases srv (Path se) c (record (ELog (LogTuning (Path se))) w))
      as [Hr | (e0 & [Hr | (e1 & [Hr | (e2 & Hr)])])];
      unfold retryFuel in Hr; rewrite Hr; cbn [fst snd];
      [exists (take 0 tuneWaits) | exists (take 1 tuneWaits) | exists (take 2 tuneWaits)
      | exists (take 2 tuneWaits)];
      (split; [|right; apply prefix_take]);
      rewrite ?sleepsOf_record, ?app_nil_r, <- ?app_assoc; reflexivity.
  - rewrite bind_run. unfold log at 1, emit at 1. cbn beta iota.
    match goal with |- context [mountRetry srv 16 (Path se) ?mi newBackoff ?w1] =>
      destruct (mountRetry_schedule srv (Path se) mi 15 0 w1) as (n & Hn & _ & Hs & _);
        [lia | lia |]
    end.
    exists (take n mountWaits). split; [|left; apply prefix_take].
    cbv zeta in Hs. change (backoffAt 0) with newBackoff in Hs.
    rewrite Hs, !sleepsOf_record, !app_nil_r, (mountWaits_from n) by lia. reflexivity.
Qed.

Lemma processEngine_waits (se : secretEngine) (mounts : Mounts) (w : World) :
  exists waits,
    sleepsOf (trace (processEngine srv lib se mounts newBackoff w).2)
      = sleepsOf (trace w) ++ waits /\
    freshWaits waits.
Proof.
  assert (Hnone : forall w', extends noSleep w w' ->
            exists waits, sleepsOf (trace w') = sleepsOf (trace w) ++ waits /\
                          freshWaits waits).
  { intros w' H. exists []. rewrite app_nil_r. split; [apply sleepsOf_quiet, H|].
    left. apply prefix_nil. }
  unfold processEngine. rewrite bind_run.
  pose proof (mountExists_quiet (Path se) w) as H1.
  destruct (mountExists srv (Path se) w) as [[present| | |] w1]; cbn [fst snd] in *;
    try (apply Hnone, H1).
  destruct (getMountConfigInput lib se) as [e|c]; [apply Hnone, H1|].
  rewrite bind_run.
  destruct (ensureMount_waits se present c w1) as (waits & Hs & Hfresh).
  exists waits. split; [|exact Hfresh].
  rewrite <- (sleepsOf_quiet w w1 H1), <- Hs.
  destruct (ensureMount srv se present c newBackoff w1) as [[b| | |] w2];
    cbn [fst snd] in *; try reflexivity.
  rewrite bind_run.
  pose proof (emits_forM noSleep (Configuration se) (processOption srv lib se present mounts)
                (processOption_quiet se present mounts) w2) as H2.
  destruct (forM_ (Configuration se) _ w2) as [[[]| | |] w3]; cbn [fst snd] in *;
    apply sleepsOf_quiet, H2.
Qed.

Lemma addEngines_waits (managed : list secretEngine) (mounts : Mounts) (w : World) :
  exists chunks,
    sleepsOf (trace (addEngines srv lib managed mounts newBackoff w).2)
      = sleepsOf (trace w) ++ concat chunks /\
    length chunks <= length managed /\ Forall freshWaits chunks.
Proof.
  revert w. induction managed as [|se rest IH]; intros w; cbn [addEngines].
  - exists []. simpl. rewrite app_nil_r. repeat split; [lia | constructor].
  - rewrite bind_run.
    destruct (processEngine_waits se mounts w) as (waits & Hs & Hfresh).
    pose proof (processEngine_resets srv lib se mounts w) as Hb.
    destruct (processEngine srv lib se mounts newBackoff w) as [[b| | |] w1];
      cbn [fst snd] in *;
      [|exists [waits]; cbn [concat length]; rewrite app_nil_r;
        (split; [exact Hs|]); (split; [lia|]);
        constructor; [exact Hfresh | constructor]..].
    subst b. destruct (IH w1) as (chunks & Hc & Hlen & Hall).
    exists (waits :: chunks). simpl. rewrite Hc, Hs, <- app_assoc.
    split; [reflexivity|]. split; [lia|]. constructor; assumption.
Qed.

(** X17. The backoff does not carry over from one engine to the next.  The
    sleeps of a pass fall into at most one run per declared engine, and each
    run starts from the first wait: it is a prefix of 500ms, 1s, 2s, 4s, 8s,
    16s, 32s (the engine was mounted) or of 2s, 16s (the engine was tuned).
    Nothing else in a pass sleeps. *)
Theorem every_retry_starts_afresh (w : World) :
  let r := configureSecretsEngines srv lib cfg w in
  exists chunks,
    sleepsOf (trace r.2) = sleepsOf (trace w) ++ concat chunks /\
    length chunks <= length (Secrets cfg) /\
    Forall freshWaits chunks.
Proof.
  intros r.
  assert (Hr : r = configureSecretsEngines srv lib cfg w) by reflexivity.
  clearbody r. unfold configureSecretsEngines in Hr.
  rewrite bind_run in Hr. unfold call at 1 in Hr. cbn beta iota in Hr.
  pose proof (init_length (Secrets cfg)) as Hlen.
  assert (Hnone : forall x : outcome unit * World,
            sleepsOf (trace x.2) = sleepsOf (trace w) ->
            exists chunks,
              sleepsOf (trace x.2) = sleepsOf (trace w) ++ concat chunks /\
              length chunks <= length (Secrets cfg) /\ Forall freshWaits chunks).
  { intros x Hx. exists []. simpl. rewrite app_nil_r.
    split; [exact Hx|]. split; [lia | constructor]. }
  destruct (srvListAuth srv (trace w)) as [err|auths].
  { subst r. apply Hnone.
    change (sleepsOf (trace (record EListAuth w)) = sleepsOf (trace w)).
    rewrite sleepsOf_record, app_nil_r. reflexivity. }
  rewrite bind_run in Hr.
  pose proof (getUnmanaged_quiet (initSecretsEnginesConfig (Secrets cfg))
                (record EListAuth w)) as H1.
  apply sleepsOf_quiet in H1. rewrite sleepsOf_record, app_nil_r in H1.
  destruct (getUnmanagedSecretsEngines srv _ (record EListAuth w))
    as [[unmanaged| | |] w1]; cbn [fst snd] in H1; cbn beta iota in Hr;
    [|subst r; apply Hnone; exact H1..].
  rewrite bind_run in Hr. unfold wrapErr at 1, addManagedSecretsEngines in Hr.
  rewrite bind_run in Hr.
  destruct (addEngines_waits (initSecretsEnginesConfig (Secrets cfg)) auths w1)
    as (chunks & Hc & Hn & Hall).
  rewrite H1, Hlen in *. exists chunks.
  destruct (addEngines srv lib _ auths newBackoff w1) as [[b| | |] w2];
    cbn [fst snd] in Hc; cbn beta iota in Hr;
    [|subst r; cbn [fst snd]; auto..].
  unfold mret at 1, M_ret at 1 in Hr. cbn beta iota in Hr. unfold wrapErr in Hr.
  pose proof (prune_quiet unmanaged w2) as H2. apply sleepsOf_quiet in H2.
  destruct (removeUnmanagedSecretsEngines srv cfg unmanaged w2) as [[[]| | |] w3];
    cbn [fst snd] in H2; subst r; cbn [fst snd]; rewrite H2; auto.
Qed.

End Waits.

Lemma pass_error_names_its_phase_witness :
  (configureSecretsEngines Scenario.authRefused Scenario.yaml (Scenario.kvOnly true)
     Scenario.start).2 = record EListAuth Scenario.start.
Proof.
  destruct (pass_error_names_its_phase Scenario.authRefused Scenario.yaml
              (Scenario.kvOnly true) Scenario.start
              (ErrWrap Scenario.refused
                 "error while getting list of auth engines for secret engine configuration")
              eq_refl)
    as [(cause & _ & _ & H) | [(cause & H & _) | (cause & p & H & _)]];
    [exact H | discriminate H | discriminate H].
Defined.

(** ** The metrics exporter *)

Section Exporter.

Import Metrics.

(** X18. What [Collect] sends is what [Describe] announces: the gauges
    of a collection carry the descriptors of the mode, in the order in which
    [Describe] sends them, or the collection sends nothing at all.  In the
    mode unseal it sends nothing exactly when the Vault could not be asked:
    a failure is logged once, the leader is not asked when the seal status
    failed, and a seal status that was obtained is dropped when the leader
    fails.  The gauges of that mode are 0 or 1, and the initialized gauge is
    1 whenever it is sent.  Any mode other than unseal and configure
    describes and collects nothing. *)
Theorem collect_matches_describe (e : prometheusExporter) (c : Counts) :
  let out := Collect e c in
  ((gauges out).*1 = described (Describe e) \/ gauges out = []) /\
  (Mode e = "unseal" ->
   (gauges out = [] <-> (exists err, Sealed (Vault_ e) = inl err) \/
                        (exists err, Leader (Vault_ e) = inl err)) /\
   errorsLogged out = (if decide (gauges out = []) then 1 else 0) /\
   (asked AskLeader out = true <-> exists sealed, Sealed (Vault_ e) = inr sealed) /\
   Forall (fun dv => dv.2 = bToF true \/ dv.2 = bToF false) (gauges out) /\
   (forall v, (initializedDesc, v) ∈ gauges out -> v = bToF true)) /\
  (Mode e <> "unseal" -> Mode e <> "configure" -> Describe e = [] /\ out = []).
Proof.
  intros out. subst out. unfold Collect, Describe.
  destruct (decide (Mode e = "unseal")) as [Hu|Hu].
  - destruct (Sealed (Vault_ e)) as [es|sealed]; [|destruct (Leader (Vault_ e)) as [el|leader]];
      cbn.
    + split; [right; reflexivity|]. split; [|intros H; contradiction].
      intros _. split; [split; eauto|]. split; [reflexivity|].
      split; [split; [discriminate | intros [s Hs]; discriminate Hs]|].
      split; [constructor|]. intros v Hv. set_solver.
    + split; [right; reflexivity|]. split; [|intros H; contradiction].
      intros _. split; [split; eauto|]. split; [reflexivity|].
      split; [split; eauto|]. split; [constructor|]. intros v Hv. set_solver.
    + split; [left; reflexivity|]. split; [|intros H; contradiction].
      intros _. split.
      { split; [discriminate|]. intros [[err H] | [err H]]; discriminate H. }
      split; [reflexivity|]. split; [split; eauto|]. split.
      * constructor; [left; reflexivity|].
        constructor; [destruct sealed; [left | right]; reflexivity|].
        constructor; [destruct leader; [left | right]; reflexivity | constructor].
      * intros v Hv. apply elem_of_cons in Hv as [Hv | Hv]; [congruence|].
        apply elem_of_cons in Hv as [Hv | Hv]; [discriminate Hv|].
        apply elem_of_cons in Hv as [Hv | Hv]; [discriminate Hv|]. set_solver.
  - destruct (decide (Mode e = "configure")) as [Hc|Hc]; cbn.
    + split; [left; reflexivity|]. split; [intros H; contradiction|].
      intros _ H. contradiction.
    + split; [left; reflexivity|]. split; [intros H; contradiction|]. auto.
Qed.

End Exporter.

(** ** The GCS store *)

Section Store.

Import Gcs.

Lemma append_inj (p a b : string) : p +:+ a = p +:+ b -> a = b.
Proof.
  induction p as [|c p IH]; intros H; [exact H|].
  change (String c (p +:+ a) = String c (p +:+ b)) in H. injection H as H. apply IH, H.
Qed.

(** X19. A store keeps the keys apart: under one prefix two keys have the
    same object name only when they are the same key, and with the empty
    prefix the object name is the key.  Across prefixes object names can
    coincide. *)
Theorem object_names_distinct (prefix key1 key2 : string) :
  (objectNameWithPrefix prefix key1 = objectNameWithPrefix prefix key2 <-> key1 = key2) /\
  objectNameWithPrefix EmptyString key1 = key1 /\
  objectNameWithPrefix "vault-" "root" = objectNameWithPrefix "vault" "-root".
Proof.
  unfold objectNameWithPrefix. split; [|split; reflexivity].
  split; [apply append_inj | intros ->; reflexivity].
Qed.

(** X20. [Set] closes its writer on every path, once, after the write,
    and never returns what the close answers: an error of the close is
    printed, and [Set] fails exactly when the write itself fails, with the
    error of the write in the context of the object name and the bucket. *)
Theorem set_closes_and_ignores_close (g : gcsStorage) (key : string)
    (val : list Byte.byte) :
  let n := objectNameWithPrefix (prefix g) key in
  let r := Set_ g key val in
  (exists printed,
     r.2 = CNewWriter (bucket g) n :: CWrite val :: CCloseWriter :: printed /\
     printed = match CloseWriter (cl g) (bucket g) n with
               | Some err => [CPrint err]
               | None => []
               end) /\
  closes CCloseWriter r.2 = 1 /\
  (r.1 = None <-> Write (cl g) (bucket g) n val = None) /\
  (forall err, Write (cl g) (bucket g) n val = Some err ->
     r.1 = Some (Wrapped err ("error writing key '" +:+ n +:+ "' to gcs bucket '"
                              +:+ bucket g +:+ "'"))) /\
  (forall answer,
     (Set_ {| cl := withCloseWriter answer (cl g); bucket := bucket g; prefix := prefix g |}
           key val).1 = r.1).
Proof.
  intros n r. subst n r. unfold Set_, deferred. cbn [cl bucket prefix].
  cbn [withCloseWriter Write CloseWriter].
  destruct (Write (cl g) (bucket g) _ val) as [ew|];
    destruct (CloseWriter (cl g) (bucket g) _) as [ec|]; cbn [fst snd];
    (split; [eexists; split; reflexivity|]); (split; [reflexivity|]);
    (split; [split; [try discriminate; reflexivity | try discriminate; reflexivity]|]);
    (split; [intros err H; try discriminate H; try (injection H as ->); reflexivity|]);
    intros answer; reflexivity.
Qed.

(** X21. [Get] answers the not-found error of the [kv] package exactly
    when the object cannot be opened because it does not exist; any other
    failure, of the opening or of the read, comes back wrapped in a context,
    and a successful read returns the bytes as they were read.  The reader is
    closed once when it was opened, also when the read failed, and not at all
    when it was not. *)
Theorem get_outcomes (g : gcsStorage) (key : string) :
  let n := objectNameWithPrefix (prefix g) key in
  let r := Get g key in
  ((exists msg, r.1 = inl (NotFoundError msg)) <->
   exists err, NewReader (cl g) (bucket g) n = Some err /\ IsObjectNotExist err = true) /\
  (forall e, r.1 = inl e ->
     (exists msg, e = NotFoundError msg) \/ (exists cause ctx, e = Wrapped cause ctx)) /\
  (forall b, r.1 = inr b <->
     NewReader (cl g) (bucket g) n = None /\ ReadAll (cl g) (bucket g) n = inr b) /\
  closes CCloseReader r.2 =
    (match NewReader (cl g) (bucket g) n with Some _ => 0 | None => 1 end).
Proof.
  intros n r. subst n r. unfold Get, deferred.
  destruct (NewReader (cl g) (bucket g) _) as [eo|].
  - destruct (IsObjectNotExist eo) eqn:Hne; cbn [fst snd].
    + split; [split; eauto|]. split; [intros e He; injection He as <-; eauto|].
      split; [|reflexivity]. intros b. split; [discriminate | intros [H _]; discriminate H].
    + split.
      { split; [intros [msg H]; discriminate H|].
        intros (err & Herr & Hex). injection Herr as <-. congruence. }
      split; [intros e He; injection He as <-; eauto|].
      split; [|reflexivity]. intros b. split; [discriminate | intros [H _]; discriminate H].
  - destruct (ReadAll (cl g) (bucket g) _) as [er|b];
      destruct (CloseReader (cl g) (bucket g) _) as [ec|]; cbn [fst snd];
      (split; [split; [intros [msg H]; discriminate H
                      |intros (err & Herr & _); discriminate Herr]|]);
      (split; [intros e He; try discriminate He; injection He as <-; eauto|]);
      (split; [|reflexivity]); intros b'; split;
      try discriminate; try (intros [_ H]; discriminate H);
      try (intros H; injection H as ->; auto);
      try (intros [_ H]; injection H as ->; reflexivity).
Qed.

End Store.
